(** * Editor of Death: the line highlighter, the line diff and the highlight layers

    A shallow embedding of the parts of [editor_of_death_win.py] that carry
    the editor's two engines:

    - [PythonHighlighter.highlightBlock], the per-line tokenizer with its
      carried block state;
    - [DiffHighlighter.highlight] and [DiffHighlighter.clear_both], the
      positional line comparison;
    - [CodeEditor.highlight_current_line], [set_search_highlight] and
      [clear_search_highlight], the highlight layers of an editor;
    - [EditorMain._find_all], the search for every occurrence, with
      [_find_again] and [clear_all_highlights], and what they use of Qt:
      [toPlainText], which hands out a no-break space as a space, and
      [QTextCursor.setPosition], which refuses a position beyond the
      document;
    - [EditorMain._normalize_line_endings] and [_clean_text_aggressive], the
      cleaning of a text when it is opened.

    Text is a list of characters; a character is a code point below 256
    (Rocq's [ascii]), and the character classes of Python's [re] and [str]
    are written out for that range.  The two cleaning functions test code
    points above that range, so their texts are lists of code points. *)

From Stdlib Require Import Ascii String.
From Stdlib Require Import List Arith Bool ZArith Lia Sorted.
Import ListNotations.

Local Open Scope char_scope.
Local Open Scope nat_scope.

(** ** Characters and text *)

Definition text := list ascii.

(** The double quote, written by its code. *)
Definition dq : ascii := "034".

(** The backslash. *)
Definition backslash : ascii := "092".

Definition code (c : ascii) : nat := nat_of_ascii c.

Definition between (lo hi c : ascii) : bool :=
  (code lo <=? code c) && (code c <=? code hi).

Definition eqc (a c : ascii) : bool := Ascii.eqb a c.

Definition one_of (l : list ascii) (c : ascii) : bool := existsb (eqc c) l.

(** [str.isspace] on one character, for code points below 256. *)
Definition isspace (c : ascii) : bool :=
  let k := code c in
  ((9 <=? k) && (k <=? 13)) || ((28 <=? k) && (k <=? 32))
  || (k =? 133) || (k =? 160).

(** [\d] of [re] on a [str] pattern: the decimal digits. *)
Definition digit (c : ascii) : bool := between "0" "9" c.

Definition alpha (c : ascii) : bool := between "A" "Z" c || between "a" "z" c.

(** [\w] of [re] on a [str] pattern, for code points below 256: the ASCII
    letters, digits and underscore, and the Latin-1 letters and numerics. *)
Definition word (c : ascii) : bool :=
  let k := code c in
  alpha c || digit c || eqc "_" c
  || (k =? 170) || (k =? 178) || (k =? 179) || (k =? 181) || (k =? 185)
  || (k =? 186) || ((188 <=? k) && (k <=? 190))
  || ((192 <=? k) && (k <=? 214)) || ((216 <=? k) && (k <=? 246))
  || (248 <=? k).

(** [text[a:b]] for [0 <= a], [0 <= b]. *)
Definition slice (t : text) (a b : nat) : text := firstn (b - a) (skipn a t).

(** The character before position [idx], if any. *)
Definition before (t : text) (idx : nat) : option ascii :=
  match idx with 0 => None | S k => nth_error t k end.

Fixpoint starts_with (sub s : text) : bool :=
  match sub, s with
  | [], _ => true
  | _ :: _, [] => false
  | a :: sub', c :: s' => eqc a c && starts_with sub' s'
  end.

(** [a == b] on strings. *)
Fixpoint text_eqb (a b : text) : bool :=
  match a, b with
  | [], [] => true
  | x :: a', y :: b' => eqc x y && text_eqb a' b'
  | _, _ => false
  end.

(** Leftmost occurrence of [sub] in [s], whose first character has index
    [pos] in the whole text. *)
Fixpoint find_from (sub s : text) (pos : nat) : option nat :=
  if starts_with sub s then Some pos
  else match s with
       | [] => None
       | _ :: s' => find_from sub s' (S pos)
       end.

(** [t.find(sub, start)]; [None] stands for Python's [-1]. *)
Definition find (sub t : text) (start : nat) : option nat :=
  if start <=? length t then find_from sub (skipn start t) start else None.

(** [s.rstrip()]: trailing whitespace removed. *)
Fixpoint rstrip (s : text) : text :=
  match s with
  | [] => []
  | c :: s' =>
      match rstrip s' with
      | [] => if isspace c then [] else [c]
      | r => c :: r
      end
  end.

(** ** The fragment of [re] the highlighter uses

    A backtracking matcher: alternatives are tried left to right, a starred
    class takes as many characters as it can and gives them back one at a
    time.  Only character classes are starred, which is all the patterns of
    the editor need. *)

Module Re.

Inductive re : Type :=
| Eps
| Cls (p : ascii -> bool)          (* one character of a class *)
| Seq (r1 r2 : re)
| Alt (r1 r2 : re)                 (* r1|r2 *)
| Star (p : ascii -> bool)         (* [..]*, greedy *)
| Bnd                              (* \b *)
| Ahead (p : ascii -> bool)        (* (?=c) *)
| Grp (name : string) (r : re).    (* (?P<name>r) *)

Definition Opt (r : re) : re := Alt r Eps.
Definition Plus (p : ascii -> bool) : re := Seq (Cls p) (Star p).

Fixpoint Lit (s : text) : re :=
  match s with
  | [] => Eps
  | c :: s' => Seq (Cls (eqc c)) (Lit s')
  end.

(** Captured groups, the latest first: name, start and end. *)
Definition caps := list (string * (nat * nat)).

Definition is_word (c : option ascii) : bool :=
  match c with Some c => word c | None => false end.

Section Run.
Context {A : Type}.

(** The continuation receives the character before the position, the rest
    of the text, the position and the groups. *)
Definition kont := option ascii -> text -> nat -> caps -> option A.

Fixpoint star (p : ascii -> bool) (prev : option ascii) (s : text)
    (pos : nat) (k : option ascii -> text -> nat -> option A) : option A :=
  match s with
  | c :: s' =>
      if p c then
        match star p (Some c) s' (S pos) k with
        | Some a => Some a
        | None => k prev s pos
        end
      else k prev s pos
  | [] => k prev s pos
  end.

Fixpoint run (r : re) (prev : option ascii) (s : text) (pos : nat)
    (cs : caps) (k : kont) : option A :=
  match r with
  | Eps => k prev s pos cs
  | Cls p =>
      match s with
      | c :: s' => if p c then k (Some c) s' (S pos) cs else None
      | [] => None
      end
  | Seq r1 r2 =>
      run r1 prev s pos cs (fun prev' s' pos' cs' => run r2 prev' s' pos' cs' k)
  | Alt r1 r2 =>
      match run r1 prev s pos cs k with
      | Some a => Some a
      | None => run r2 prev s pos cs k
      end
  | Star p => star p prev s pos (fun prev' s' pos' => k prev' s' pos' cs)
  | Bnd =>
      if xorb (is_word prev) (is_word (hd_error s)) then k prev s pos cs
      else None
  | Ahead p =>
      match s with
      | c :: _ => if p c then k prev s pos cs else None
      | [] => None
      end
  | Grp name r' =>
      run r' prev s pos cs
        (fun prev' s' pos' cs' => k prev' s' pos' ((name, (pos, pos')) :: cs'))
  end.
End Run.

(** A match object: where it starts, where it ends, its groups. *)
Record Match := mkMatch { m_start : nat; m_end : nat; m_caps : caps }.

Definition match_at (r : re) (prev : option ascii) (s : text) (pos : nat)
  : option Match :=
  run r prev s pos [] (fun _ _ pos' cs => Some (mkMatch pos pos' cs)).

(** Leftmost match in [s], the rest of a text from position [pos] on. *)
Fixpoint search_from (r : re) (prev : option ascii) (s : text) (pos : nat)
  {struct s} : option Match :=
  match match_at r prev s pos with
  | Some m => Some m
  | None =>
      match s with
      | [] => None
      | c :: s' => search_from r (Some c) s' (S pos)
      end
  end.

(** [pattern.search(t, idx)]: the text before [idx] is still seen by [\b]. *)
Definition search (r : re) (t : text) (idx : nat) : option Match :=
  if idx <=? length t then search_from r (before t idx) (skipn idx t) idx
  else None.

(** [re.finditer]: the matches from left to right, each search resuming
    where the previous match ended.  [skip] counts the characters of the
    last match still to be passed over.  (No pattern of the editor matches
    the empty string.) *)
Fixpoint finditer_from (r : re) (prev : option ascii) (s : text) (pos skip : nat)
  {struct s} : list Match :=
  match skip with
  | S skip' =>
      match s with
      | [] => []
      | c :: s' => finditer_from r (Some c) s' (S pos) skip'
      end
  | 0 =>
      match match_at r prev s pos with
      | Some m =>
          m :: match s with
               | [] => []
               | c :: s' => finditer_from r (Some c) s' (S pos) (m_end m - pos - 1)
               end
      | None =>
          match s with
          | [] => []
          | c :: s' => finditer_from r (Some c) s' (S pos) 0
          end
      end
  end.

Definition finditer (r : re) (t : text) : list Match :=
  finditer_from r None t 0 0.

(** [m.group(name)] as a span; [None] when the group took no part. *)
Fixpoint group (name : string) (cs : caps) : option (nat * nat) :=
  match cs with
  | [] => None
  | (n, sp) :: cs' => if String.eqb n name then Some sp else group name cs'
  end.

End Re.

Import Re.

(** ** [BaseHighlighter]: colours and formats *)

(** The colour attributes of [BaseHighlighter]; their RGB values depend on
    the theme and play no part here. *)
Inductive color : Type :=
| c_string | c_number | c_comment | c_type | c_kw | c_func | c_deco | c_regex.

Record QTextCharFormat : Type :=
  mkFormat { foreground : color; fontBold : bool; fontItalic : bool }.

(** [BaseHighlighter.fmt(color, bold, italic)]. *)
Definition fmt (c : color) (bold italic : bool) : QTextCharFormat :=
  mkFormat c bold italic.

(** The classification tags, as the formats [highlightBlock] builds. *)
Definition STRING := fmt c_string false false.
Definition NUMBER := fmt c_number false false.
Definition COMMENT := fmt c_comment false true.
Definition KEYWORD := fmt c_kw true false.
Definition BUILTIN := fmt c_type false false.
Definition FUNCTION_CALL := fmt c_func false false.
Definition DECORATOR := fmt c_deco true false.
Definition INTERPOLATION_MARKER := fmt c_regex false false.

(** One call [setFormat(start, count, format)] of [QSyntaxHighlighter]. *)
Record call : Type :=
  setFormat { sf_start : nat; sf_count : nat; sf_format : QTextCharFormat }.

(** [QSyntaxHighlighter.setFormat] on a block of [n] characters writes the
    format at the positions [start <= p < min (start + count) n]. *)
Definition covers (n : nat) (c : call) (p : nat) : bool :=
  (sf_start c <=? p) && (p <? Nat.min (sf_start c + sf_count c) n).

Definition apply_call (n : nat) (f : nat -> option QTextCharFormat) (c : call)
  : nat -> option QTextCharFormat :=
  fun p => if covers n c p then Some (sf_format c) else f p.

(** The format of every position once the calls have run in order. *)
Definition formats (n : nat) (cs : list call) : nat -> option QTextCharFormat :=
  fold_left (apply_call n) cs (fun _ => None).

(** ** [PythonHighlighter] *)

Definition STATE_NONE : Z := 0.
Definition STATE_TRIPLE_S : Z := 1.
Definition STATE_TRIPLE_D : Z := 2.

Definition kw : list string :=
  [ "False"; "await"; "else"; "import"; "pass"; "None"; "break"; "except";
    "in"; "raise"; "True"; "class"; "finally"; "is"; "return"; "and";
    "continue"; "for"; "lambda"; "try"; "as"; "def"; "from"; "nonlocal";
    "while"; "assert"; "del"; "global"; "not"; "with"; "async"; "elif"; "if";
    "or"; "yield" ]%string.

Definition builtins : list string :=
  [ "abs"; "dict"; "help"; "min"; "setattr"; "all"; "dir"; "hex"; "next";
    "slice"; "any"; "divmod"; "id"; "object"; "sorted"; "ascii"; "enumerate";
    "input"; "oct"; "staticmethod"; "bin"; "eval"; "int"; "open"; "str";
    "bool"; "exec"; "isinstance"; "ord"; "sum"; "bytearray"; "filter";
    "issubclass"; "pow"; "super"; "bytes"; "float"; "iter"; "print"; "tuple";
    "callable"; "format"; "len"; "property"; "type"; "chr"; "frozenset";
    "list"; "range"; "vars"; "classmethod"; "getattr"; "locals"; "repr";
    "zip"; "compile"; "globals"; "map"; "reversed"; "__import__"; "complex";
    "hasattr"; "max"; "round" ]%string.

(** [w in s] for a set of words. *)
Definition mem (w : text) (s : list string) : bool :=
  existsb (String.eqb (string_of_list_ascii w)) s.

(** *** The patterns *)

(** [[A-Za-z_]] *)
Definition ident_start (c : ascii) : bool := alpha c || eqc "_" c.
(** [[A-Za-z0-9_]] *)
Definition ident_char (c : ascii) : bool :=
  alpha c || between "0" "9" c || eqc "_" c.
(** [[A-Za-z0-9_\.]] *)
Definition deco_char (c : ascii) : bool := ident_char c || eqc "." c.
(** [[0-9a-fA-F_]] *)
Definition hex_char (c : ascii) : bool :=
  between "0" "9" c || between "a" "f" c || between "A" "F" c || eqc "_" c.
(** [[01_]] *)
Definition bin_char (c : ascii) : bool := one_of ["0"; "1"; "_"] c.
(** [[0-7_]] *)
Definition oct_char (c : ascii) : bool := between "0" "7" c || eqc "_" c.
(** [[\d_]] *)
Definition digit_us (c : ascii) : bool := digit c || eqc "_" c.
(** [[^\n]] *)
Definition not_newline (c : ascii) : bool := negb (eqc "010" c).

Definition triple_s : text := ["'"; "'"; "'"].
Definition triple_d : text := [dq; dq; dq].

(** [@[A-Za-z_][A-Za-z0-9_\.]*] *)
Definition re_deco : re :=
  Seq (Cls (eqc "@")) (Seq (Cls ident_start) (Star deco_char)).

(** [#[^\n]*] *)
Definition re_comment : re := Seq (Cls (eqc "#")) (Star not_newline).

(** [(?P<p>[fF]?)((?P<ts>SSS|DDD)|(?P<s>S)|(?P<d>D))], with [S] the single
    and [D] the double quote. *)
Definition pat : re :=
  Seq (Grp "p" (Opt (Cls (one_of ["f"; "F"]))))
      (Alt (Grp "ts" (Alt (Lit triple_s) (Lit triple_d)))
           (Alt (Grp "s" (Lit ["'"])) (Grp "d" (Lit [dq])))).

(** The number pattern, laid out with blanks between its parts:
    [\b ( 0[xX][0-9a-fA-F_]+ | 0[bB][01_]+ | 0[oO][0-7_]+
        | \d [\d_]* (?: \. \d [\d_]* )? (?: [eE] [+-]? \d [\d_]* )? ) \b] *)
Definition re_number : re :=
  let hex := Seq (Cls (eqc "0")) (Seq (Cls (one_of ["x"; "X"])) (Plus hex_char)) in
  let bin := Seq (Cls (eqc "0")) (Seq (Cls (one_of ["b"; "B"])) (Plus bin_char)) in
  let oct := Seq (Cls (eqc "0")) (Seq (Cls (one_of ["o"; "O"])) (Plus oct_char)) in
  let frac := Seq (Cls (eqc ".")) (Seq (Cls digit) (Star digit_us)) in
  let expo :=
    Seq (Cls (one_of ["e"; "E"]))
        (Seq (Opt (Cls (one_of ["+"; "-"]))) (Seq (Cls digit) (Star digit_us))) in
  let dec := Seq (Cls digit) (Seq (Star digit_us) (Seq (Opt frac) (Opt expo))) in
  Seq Bnd (Seq (Alt hex (Alt bin (Alt oct dec))) Bnd).

(** [\b[A-Za-z_][A-Za-z0-9_]*\b] *)
Definition re_ident : re :=
  Seq Bnd (Seq (Cls ident_start) (Seq (Star ident_char) Bnd)).

(** [\b[A-Za-z_][A-Za-z0-9_]*(?=\()] *)
Definition re_call : re :=
  Seq Bnd (Seq (Cls ident_start) (Seq (Star ident_char) (Ahead (eqc "(")))).

(** *** Results: a value, or what stops the run *)

Inductive res (A : Type) : Type :=
| Ok (a : A)
| IndexError          (* [text[j]] out of range *)
| OutOfFuel.          (* a [while] loop cut short by the model *)
Arguments Ok {A} a.
Arguments IndexError {A}.
Arguments OutOfFuel {A}.

Definition bind {A B : Type} (r : res A) (f : A -> res B) : res B :=
  match r with
  | Ok a => f a
  | IndexError => IndexError
  | OutOfFuel => OutOfFuel
  end.

Notation "x <- r ;; k" := (bind r (fun x => k))
  (at level 61, r at next level, right associativity).

(** *** [_f_braces] *)

Definition enumerate {A : Type} (l : list A) : list (nat * A) :=
  combine (seq 0 (length l)) l.

Definition _f_braces (t : text) (start end_ : nat) : list call :=
  flat_map
    (fun ich : nat * ascii =>
       if one_of ["{"; "}"] (snd ich)
       then [setFormat (start + fst ich) 1 (fmt c_regex false false)]
       else [])
    (enumerate (slice t start end_)).

(** [prefix.lower() == 'f']: of the code points below 256 only [f] and [F]
    lower to [f]. *)
Definition lower_is_f (prefix : text) : bool :=
  match prefix with
  | [c] => one_of ["f"; "F"] c
  | _ => false
  end.

(** The text of a group, empty when the group took no part. *)
Definition group_text (name : string) (m : Match) (t : text) : text :=
  match group name (m_caps m) with
  | Some (a, b) => slice t a b
  | None => []
  end.

(** *** The string pass *)

(** The inner [while j < n] of the string pass, from [j] with the escape
    flag [esc]; the result is [j] when the loop is left. *)
Fixpoint quote_loop (fuel : nat) (t : text) (q : ascii) (j : nat) (esc : bool)
  : res nat :=
  match fuel with
  | 0 => OutOfFuel
  | S fuel' =>
      if j <? length t then
        match nth_error t j with
        | None => IndexError
        | Some ch =>
            if esc then quote_loop fuel' t q (S j) false
            else if eqc ch backslash then quote_loop fuel' t q (S j) true
            else if eqc ch q then Ok (S j)
            else quote_loop fuel' t q (S j) false
        end
      else Ok j
  end.

(** The [while idx < n] loop.  The result is the calls it makes and, when it
    leaves [highlightBlock] through [return], the block state it has set. *)
Fixpoint string_loop (gas fuel : nat) (t : text) (idx : nat)
  : res (list call * option Z) :=
  match fuel with
  | 0 => OutOfFuel
  | S fuel' =>
      let n := length t in
      if idx <? n then
        match search pat t idx with
        | None => Ok ([], None)
        | Some m =>
            let start := m_start m in
            let prefix := group_text "p" m t in
            match group "ts" (m_caps m) with
            | Some (a, b) =>
                let q := slice t a b in
                match find q t (start + 3) with
                | None =>
                    Ok ([setFormat start (n - start) (fmt c_string false false)],
                        Some (if text_eqb q triple_s
                              then STATE_TRIPLE_S else STATE_TRIPLE_D))
                | Some end_ =>
                    r <- string_loop gas fuel' t (end_ + 3) ;;
                    Ok (setFormat start (end_ + 3 - start) (fmt c_string false false)
                          :: (if lower_is_f prefix
                              then _f_braces t start (end_ + 3) else [])
                          ++ fst r,
                        snd r)
                end
            | None =>
                let q := match group "s" (m_caps m) with
                         | Some _ => "'"
                         | None => dq
                         end in
                j <- quote_loop gas t q (start + 1 + length prefix) false ;;
                r <- string_loop gas fuel' t j ;;
                Ok (setFormat start (j - start) (fmt c_string false false)
                      :: (if lower_is_f prefix then _f_braces t start j else [])
                      ++ fst r,
                    snd r)
            end
        end
      else Ok ([], None)
  end.

(** *** [highlightBlock] *)

Definition span_call (f : QTextCharFormat) (m : Match) : call :=
  setFormat (m_start m) (m_end m - m_start m) f.

Definition deco_calls (t : text) : list call :=
  map (span_call (fmt c_deco true false)) (finditer re_deco t).

Definition number_calls (t : text) : list call :=
  map (span_call (fmt c_number false false)) (finditer re_number t).

Definition word_calls (t : text) : list call :=
  flat_map
    (fun m =>
       let w := slice t (m_start m) (m_end m) in
       if mem w kw then [span_call (fmt c_kw true false) m]
       else if mem w builtins then [span_call (fmt c_type false false) m]
       else [])
    (finditer re_ident t).

Definition func_calls (t : text) : list call :=
  map (span_call (fmt c_func false false)) (finditer re_call t).

(** [comment_start]: [re.search] on [text[i:]], shifted back by [i]. *)
Definition comment_start (t : text) (i : nat) : option nat :=
  match search re_comment (skipn i t) 0 with
  | Some cm => Some (i + m_start cm)
  | None => None
  end.

Definition comment_calls (t : text) (i : nat) : list call :=
  match comment_start t i with
  | Some cs => [setFormat cs (length t - cs) (fmt c_comment false true)]
  | None => []
  end.

(** The body of [highlightBlock] after the continuation check: [i] is where
    the passes resume and [pre] the calls already made. *)
Definition passes (fuel : nat) (t : text) (i : nat) (pre : list call)
  : res (list call * Z) :=
  r <- string_loop fuel fuel t i ;;
  match snd r with
  | Some st => Ok (pre ++ deco_calls t ++ fst r, st)
  | None =>
      Ok (pre ++ deco_calls t ++ fst r ++ number_calls t ++ word_calls t
            ++ func_calls t ++ comment_calls t i,
          STATE_NONE)
  end.

(** The closing delimiter of the state [st]. *)
Definition endq (st : Z) : text :=
  if (st =? STATE_TRIPLE_S)%Z then triple_s else triple_d.

(** [highlightBlock(text)] with [previousBlockState()] as second argument:
    the [setFormat] calls in order and the value given to
    [setCurrentBlockState]. *)
Definition highlightBlock_fuel (fuel : nat) (t : text) (previousBlockState : Z)
  : res (list call * Z) :=
  let st := if (previousBlockState =? -1)%Z then STATE_NONE
            else previousBlockState in
  let n := length t in
  if (st =? STATE_TRIPLE_S)%Z || (st =? STATE_TRIPLE_D)%Z then
    match find (endq st) t 0 with
    | None => Ok ([setFormat 0 n (fmt c_string false false)], st)
    | Some end_idx =>
        passes fuel t (end_idx + 3)
          [setFormat 0 (end_idx + 3) (fmt c_string false false)]
    end
  else passes fuel t 0 [].

(** Enough fuel for every line: each turn of either loop moves its index
    forward and stops at [n]. *)
Definition highlightBlock (t : text) (previousBlockState : Z)
  : res (list call * Z) :=
  highlightBlock_fuel (S (length t)) t previousBlockState.

(** The formats of the positions [0 .. n-1] of a line after
    [highlightBlock]. *)
Definition rendered (t : text) (st : Z) : res (list (option QTextCharFormat)) :=
  r <- highlightBlock t st ;;
  Ok (map (formats (length t) (fst r)) (seq 0 (length t))).

(** The text of a string literal. *)
Definition txt (s : string) : text := list_ascii_of_string s.

(** ** [CodeEditor]: the highlight layers *)

(** [QColor(r, g, b, a)]. *)
Record QColor : Type := mkColor { red : nat; green : nat; blue : nat; alpha_ : nat }.

(** A [QTextCursor]: anchor and position, or a whole block selected with
    [select(BlockUnderCursor)]. *)
Inductive QTextCursor : Type :=
| Cursor (anchor position : nat)
| BlockUnderCursor (block_num : nat).

(** [QTextEdit.ExtraSelection]: a cursor and, of the format, the background
    and the [FullWidthSelection] property. *)
Record ExtraSelection : Type := mkSel
  { sel_cursor : QTextCursor; sel_background : QColor; sel_full_width : bool }.

(** The fields of a [CodeEditor] that the highlight layers, the diff and the
    search read or write.  [document] is the list of the blocks' texts;
    [extraSelections] is what [setExtraSelections] last received. *)
Record CodeEditor : Type := mkEditor
  { document : list text;
    textCursor : nat * nat;                    (* anchor, position *)
    isReadOnly : bool;
    _search_highlights : list ExtraSelection;
    _diff_highlights : list ExtraSelection;
    _search_results : list (nat * nat);
    _current_search_index : Z;
    _search_text : text;
    extraSelections : list ExtraSelection }.

Definition with_search_highlights (ed : CodeEditor) (l : list ExtraSelection)
  : CodeEditor :=
  mkEditor (document ed) (textCursor ed) (isReadOnly ed) l (_diff_highlights ed)
    (_search_results ed) (_current_search_index ed) (_search_text ed)
    (extraSelections ed).

Definition with_diff_highlights (ed : CodeEditor) (l : list ExtraSelection)
  : CodeEditor :=
  mkEditor (document ed) (textCursor ed) (isReadOnly ed) (_search_highlights ed) l
    (_search_results ed) (_current_search_index ed) (_search_text ed)
    (extraSelections ed).

Definition setExtraSelections (ed : CodeEditor) (l : list ExtraSelection)
  : CodeEditor :=
  mkEditor (document ed) (textCursor ed) (isReadOnly ed) (_search_highlights ed)
    (_diff_highlights ed) (_search_results ed) (_current_search_index ed)
    (_search_text ed) l.

Definition with_search (ed : CodeEditor) (results : list (nat * nat)) (index : Z)
    (t : text) : CodeEditor :=
  mkEditor (document ed) (textCursor ed) (isReadOnly ed) (_search_highlights ed)
    (_diff_highlights ed) results index t (extraSelections ed).

(** [highlight_current_line]: the current-line selection, then the search
    layer, then the diff layer; a read-only editor has no current line. *)
Definition highlight_current_line (ed : CodeEditor) : CodeEditor :=
  if isReadOnly ed then
    setExtraSelections ed (_search_highlights ed ++ _diff_highlights ed)
  else
    let sel := mkSel (Cursor (snd (textCursor ed)) (snd (textCursor ed)))
                 (mkColor 255 255 0 80) true in
    setExtraSelections ed ([sel] ++ _search_highlights ed ++ _diff_highlights ed).

(** [setTextCursor] with a cursor of the editor's document, as [textCursor()]
    returns it and [setPosition] moves it; [cursorPositionChanged] is
    connected to [highlight_current_line]. *)
Definition setTextCursor (ed : CodeEditor) (c : nat * nat) : CodeEditor :=
  let ed' := mkEditor (document ed) c (isReadOnly ed) (_search_highlights ed)
               (_diff_highlights ed) (_search_results ed)
               (_current_search_index ed) (_search_text ed) (extraSelections ed) in
  if snd c =? snd (textCursor ed) then ed' else highlight_current_line ed'.

Definition set_search_highlight (ed : CodeEditor) (cursor : QTextCursor)
  : CodeEditor :=
  let s := mkSel cursor (mkColor 255 235 59 220) false in
  highlight_current_line (with_search_highlights ed [s]).

Definition clear_search_highlight (ed : CodeEditor) : CodeEditor :=
  highlight_current_line (with_search_highlights ed []).

(** [CodeEditor.__init__], on a document, as far as the fields above go. *)
Definition new_editor (doc : list text) : CodeEditor :=
  highlight_current_line (mkEditor doc (0, 0) false [] [] [] (-1)%Z [] []).

(** ** [DiffHighlighter] *)

(** What a tab widget's [currentWidget()] can be: nothing, a widget without
    the [_diff_highlights] attribute, or a [CodeEditor]. *)
Inductive widget : Type :=
| NoWidget
| OtherWidget
| Editor (ed : CodeEditor).

(** One turn of the [for ed in (left, right)] of [clear_both]. *)
Definition clear_diff (w : widget) : widget :=
  match w with
  | NoWidget => NoWidget
  | OtherWidget => OtherWidget
  | Editor ed => Editor (highlight_current_line (with_diff_highlights ed []))
  end.

(** [DiffHighlighter.clear_both(left, right)]; the callers pass the current
    widgets of the two panes, which are distinct objects. *)
Definition clear_both (left right : widget) : widget * widget :=
  (clear_diff left, clear_diff right).

(** [doc.blockCount()], [doc.findBlockByNumber(k).isValid()] and the block's
    [text()]. *)
Definition blockCount (doc : list text) : nat := length doc.
Definition isValid (doc : list text) (k : nat) : bool := k <? blockCount doc.
Definition block_text (doc : list text) (k : nat) : text := nth k doc [].

(** Python's truth value of a string. *)
Definition truthy (s : text) : bool :=
  match s with [] => false | _ => true end.

Definition highlight_color : QColor := mkColor 255 255 0 220.

Definition line_selection (block_num : nat) : ExtraSelection :=
  mkSel (BlockUnderCursor block_num) highlight_color false.

(** The state of the comparison loop: [changed], [left_selections],
    [right_selections]. *)
Definition diff_state : Type := bool * list ExtraSelection * list ExtraSelection.

(** The body of [for block_num in range(max_blocks)]. *)
Definition diff_step (left_doc right_doc : list text) (s : diff_state)
    (block_num : nat) : diff_state :=
  let '(changed, left_selections, right_selections) := s in
  let left_text :=
    if isValid left_doc block_num then block_text left_doc block_num else [] in
  let right_text :=
    if isValid right_doc block_num then block_text right_doc block_num else [] in
  if negb (text_eqb (rstrip left_text) (rstrip right_text)) then
    let left_selections :=
      if truthy (rstrip left_text) && isValid left_doc block_num
      then left_selections ++ [line_selection block_num] else left_selections in
    let right_selections :=
      if truthy (rstrip right_text) && isValid right_doc block_num
      then right_selections ++ [line_selection block_num] else right_selections in
    (true, left_selections, right_selections)
  else s.

Definition diff_loop (left_doc right_doc : list text) : diff_state :=
  let max_blocks := Nat.max (blockCount left_doc) (blockCount right_doc) in
  fold_left (diff_step left_doc right_doc) (seq 0 max_blocks) (false, [], []).

(** [DiffHighlighter(left, right).highlight()], on two [CodeEditor]s as
    [run_compare] passes them: the editors afterwards and [changed]. *)
Definition highlight (left right : CodeEditor) : CodeEditor * CodeEditor * bool :=
  let left := highlight_current_line (with_diff_highlights left []) in
  let right := highlight_current_line (with_diff_highlights right []) in
  let '(changed, left_selections, right_selections) :=
    diff_loop (document left) (document right) in
  if changed then
    (highlight_current_line (with_diff_highlights left left_selections),
     highlight_current_line (with_diff_highlights right right_selections),
     true)
  else (left, right, false).

(** ** [EditorMain._find_all] *)

(** The blocks of a document joined by newlines. *)
Fixpoint join_blocks (doc : list text) : text :=
  match doc with
  | [] => []
  | [b] => b
  | b :: doc' => b ++ "010" :: join_blocks doc'
  end.

(** What [toPlainText()] hands out for a character of the document: the
    no-break space U+00A0 comes out as a space.  The other characters Qt
    replaces there (U+2028, U+2029, U+FDD0, U+FDD1) lie above the texts
    modelled here. *)
Definition plain_char (c : ascii) : ascii :=
  if Ascii.eqb c "160" then " " else c.

(** [toPlainText()]: the blocks joined by newlines, character by character
    as Qt hands them out; the offsets are those of the document. *)
Definition toPlainText (doc : list text) : text :=
  map plain_char (join_blocks doc).

(** [cursor.setPosition(pos, mode)] on a cursor [(anchor, position)] of the
    document [doc].  The positions of a document are [0] to the length of
    its plain text; Qt refuses any other with a warning and leaves the
    cursor as it was.  [keep_anchor] is [MoveMode.KeepAnchor]. *)
Definition setPosition (doc : list text) (c : nat * nat) (pos : nat)
    (keep_anchor : bool) : nat * nat :=
  if pos <=? length (toPlainText doc) then
    if keep_anchor then (fst c, pos) else (pos, pos)
  else c.

(** The two calls [cursor.setPosition(pos)] and
    [cursor.setPosition(pos + length, KeepAnchor)] that [_find_all] and
    [_find_again] make on a cursor [c] for a stored result [sp]. *)
Definition select_result (doc : list text) (c : nat * nat) (sp : nat * nat)
  : nat * nat :=
  setPosition doc (setPosition doc c (fst sp) false) (fst sp + snd sp) true.

(** The [while True] loop of [_find_all], from [pos]: the entries appended to
    [_search_results]. *)
Fixpoint find_loop (fuel : nat) (doc_text t : text) (pos : nat)
  : res (list (nat * nat)) :=
  match fuel with
  | 0 => OutOfFuel
  | S fuel' =>
      match find t doc_text pos with
      | None => Ok []
      | Some pos' =>
          r <- find_loop fuel' doc_text t (pos' + 1) ;;
          Ok ((pos', length t) :: r)
      end
  end.

(** The yellow selection over the span [sp]. *)
Definition search_selection (sp : nat * nat) : ExtraSelection :=
  mkSel (Cursor (fst sp) (fst sp + snd sp)) (mkColor 255 255 0 180) false.

(** One turn of [for start_pos, length in ed._search_results]: a fresh
    cursor [QTextCursor(ed.document())], at the start of the document, set
    by the two [setPosition], and the yellow selection over it. *)
Definition result_selection (doc : list text) (sp : nat * nat) : ExtraSelection :=
  let c := select_result doc (0, 0) sp in
  mkSel (Cursor (fst c) (snd c)) (mkColor 255 255 0 180) false.

(** [_find_all(text)] on the current editor [ed]; the message box and the
    status line are left out. *)
Definition _find_all_fuel (fuel : nat) (ed : CodeEditor) (t : text)
  : res CodeEditor :=
  if negb (truthy t) then Ok ed
  else
    let ed := with_search ed [] (-1)%Z t in
    results <- find_loop fuel (toPlainText (document ed)) t 0 ;;
    let ed := with_search ed results (-1)%Z t in
    match results with
    | [] => Ok (highlight_current_line (with_search_highlights ed []))
    | first :: _ =>
        let ed := with_search_highlights ed
                    (map (result_selection (document ed)) results) in
        let ed := highlight_current_line ed in
        let ed := with_search ed results 0%Z t in
        Ok (setTextCursor ed (select_result (document ed) (textCursor ed) first))
    end.

Definition _find_all (ed : CodeEditor) (t : text) : res CodeEditor :=
  _find_all_fuel (length (toPlainText (document ed)) + 2) ed t.

(** ** [EditorMain]: navigation and clearing *)

(** [l[i]] for a Python list: a negative index counts from the end. *)
Definition py_index {A : Type} (l : list A) (i : Z) : res A :=
  let n := Z.of_nat (length l) in
  let k := if (i <? 0)%Z then (i + n)%Z else i in
  if ((0 <=? k) && (k <? n))%Z then
    match nth_error l (Z.to_nat k) with
    | Some x => Ok x
    | None => IndexError
    end
  else IndexError.

(** [_find_again(forward)] on the current editor [ed]; [selected] is
    [ed.textCursor().selectedText()], which Qt hands over; the status line
    is left out. *)
Definition _find_again (ed : CodeEditor) (forward : bool) (selected : text)
  : res CodeEditor :=
  match _search_results ed with
  | [] => if truthy selected then _find_all ed selected else Ok ed
  | _ :: _ =>
      let n := Z.of_nat (length (_search_results ed)) in
      let index := if forward then ((_current_search_index ed + 1) mod n)%Z
                   else ((_current_search_index ed - 1) mod n)%Z in
      let ed := with_search ed (_search_results ed) index (_search_text ed) in
      r <- py_index (_search_results ed) (_current_search_index ed) ;;
      Ok (setTextCursor ed (select_result (document ed) (textCursor ed) r))
  end.

(** One pane of [clear_all_highlights]:
    [if isinstance(w, CodeEditor): w.clear_search_highlight()]. *)
Definition clear_search (w : widget) : widget :=
  match w with
  | Editor ed => Editor (clear_search_highlight ed)
  | NoWidget => NoWidget
  | OtherWidget => OtherWidget
  end.

(** [clear_all_highlights] on the current widgets of the two panes. *)
Definition clear_all_highlights (left right : widget) : widget * widget :=
  clear_both (clear_search left) (clear_search right).

(** ** Cleaning a text when it is opened *)

(** A Python [str] as the list of its code points; the texts cleaned here
    may hold any character, not only those below 256. *)
Definition ustr : Type := list N.

Fixpoint has_prefix (old s : ustr) : bool :=
  match old, s with
  | [], _ => true
  | _ :: _, [] => false
  | a :: old', c :: s' => (a =? c)%N && has_prefix old' s'
  end.

(** [s.replace(old, new)] for a non-empty [old], as at every call below:
    the occurrences of [old] from left to right, not overlapping; [skip]
    counts the characters of an occurrence still to pass. *)
Fixpoint replace_from (old new s : ustr) (skip : nat) : ustr :=
  match s with
  | [] => []
  | c :: rest =>
      match skip with
      | S k => replace_from old new rest k
      | 0 =>
          if has_prefix old s
          then new ++ replace_from old new rest (length old - 1)
          else c :: replace_from old new rest 0
      end
  end.

Definition str_replace (old new s : ustr) : ustr := replace_from old new s 0.

(** The class [\x01-\x08\x0b-\x0c\x0e-\x1f\x7f-\x9f]. *)
Definition control (c : N) : bool :=
  ((1 <=? c) && (c <=? 8) || (11 <=? c) && (c <=? 12)
   || (14 <=? c) && (c <=? 31) || (127 <=? c) && (c <=? 159))%N.

(** [re.sub] of that class by the empty string: each match is one
    character, and each is dropped. *)
Definition re_sub_control (s : ustr) : ustr :=
  filter (fun c => negb (control c)) s.

Definition _normalize_line_endings (text : ustr) : ustr :=
  let text := str_replace [13; 10]%N [10]%N text in
  let text := str_replace [13]%N [10]%N text in
  let text := str_replace [0x200b]%N [] text in
  let text := str_replace [0xfeff]%N [] text in
  let text := str_replace [0x200c]%N [] text in
  let text := str_replace [0x200d]%N [] text in
  let text := str_replace [0xa0]%N [32]%N text in
  let text := str_replace [0]%N [] text in
  re_sub_control text.

(** The test of the loop of [_clean_text_aggressive]. *)
Definition kept (c : N) : bool :=
  ((c =? 10) || (c =? 9) || ((32 <=? c) && (c <=? 126)) || (128 <=? c))%N.

Definition _clean_text_aggressive (text : ustr) : ustr :=
  let result := filter kept text in
  str_replace [13]%N [10]%N (str_replace [13; 10]%N [10]%N result).

(** * The vocabulary of the properties *)

(** ** Layers *)

(** An editor whose extra selections are those its layers compose to. *)
Definition composed (ed : CodeEditor) : Prop := highlight_current_line ed = ed.

(** The search layer of a widget, when it has one. *)
Definition search_layer (w : widget) : option (list ExtraSelection) :=
  match w with Editor ed => Some (_search_highlights ed) | _ => None end.

(** The editors on which no search has ever run: a new editor, then cursor
    moves, comparisons and clearings of the diff layer. *)
Inductive no_search_run : CodeEditor -> Prop :=
| ns_new (doc : list text) : no_search_run (new_editor doc)
| ns_cursor (ed : CodeEditor) (c : nat * nat) :
    no_search_run ed -> no_search_run (setTextCursor ed c)
| ns_compare_left (ed other : CodeEditor) :
    no_search_run ed -> no_search_run (fst (fst (highlight ed other)))
| ns_compare_right (ed other : CodeEditor) :
    no_search_run ed -> no_search_run (snd (fst (highlight other ed)))
| ns_clear_diff (ed ed' : CodeEditor) :
    no_search_run ed -> clear_diff (Editor ed) = Editor ed' -> no_search_run ed'.

(** The editors on which no diff has ever run: a new editor, then cursor
    moves, searches and settings and clearings of the search layer. *)
Inductive no_diff_run : CodeEditor -> Prop :=
| nd_new (doc : list text) : no_diff_run (new_editor doc)
| nd_cursor (ed : CodeEditor) (c : nat * nat) :
    no_diff_run ed -> no_diff_run (setTextCursor ed c)
| nd_find_all (ed ed' : CodeEditor) (t : text) :
    no_diff_run ed -> _find_all ed t = Ok ed' -> no_diff_run ed'
| nd_set_search (ed : CodeEditor) (cursor : QTextCursor) :
    no_diff_run ed -> no_diff_run (set_search_highlight ed cursor)
| nd_clear_search (ed : CodeEditor) :
    no_diff_run ed -> no_diff_run (clear_search_highlight ed).

(** ** The line diff *)

(** Line [i] of a document; a missing line counts as empty text. *)
Definition line (doc : list text) (i : nat) : text := nth i doc [].

(** The comparison of the loop at index [i]. *)
Definition differ (l r : list text) (i : nat) : bool :=
  negb (text_eqb (rstrip (line l i)) (rstrip (line r i))).

(** Whether the loop appends a selection for document [d] at index [i]. *)
Definition selected (l r d : list text) (i : nat) : bool :=
  differ l r i && (truthy (rstrip (line d i)) && isValid d i).

(** The diff layers that [highlight] leaves on the two editors. *)
Definition left_marks (left right : CodeEditor) : list ExtraSelection :=
  _diff_highlights (fst (fst (highlight left right))).

Definition right_marks (left right : CodeEditor) : list ExtraSelection :=
  _diff_highlights (snd (fst (highlight left right))).

(** The number of indices the comparison visits. *)
Definition max_blocks (left right : CodeEditor) : nat :=
  Nat.max (blockCount (document left)) (blockCount (document right)).

(** Index [i] is marked changed when a side carries its line selection. *)
Definition marked (left right : CodeEditor) (i : nat) : Prop :=
  In (line_selection i) (left_marks left right)
  \/ In (line_selection i) (right_marks left right).

(** The selections of a layer that select block [i]. *)
Definition on_block (i : nat) (s : ExtraSelection) : bool :=
  match sel_cursor s with
  | BlockUnderCursor k => k =? i
  | Cursor _ _ => false
  end.

(** How many highlight ranges a layer holds for line [i]. *)
Definition ranges_on (sels : list ExtraSelection) (i : nat) : nat :=
  length (filter (on_block i) sels).

(** The documents of the examples. *)
Definition abc : list text := [["a"]; ["b"]; ["c"]].
Definition axc : list text := [["a"]; ["x"]; ["c"]].
Definition zabc : list text := [["z"]; ["a"]; ["b"]; ["c"]].

(** ** Search *)

(** [sub] occurs in [d] at offset [p]: [d[p : p + len(sub)] == sub]. *)
Definition occurs (sub d : text) (p : nat) : Prop :=
  slice d p (p + length sub) = sub.

(** ** Matches and formats *)

(** The character before the position once [u] has been consumed. *)
Definition prev_after (prev : option ascii) (u : text) : option ascii :=
  fold_left (fun _ c => Some c) u prev.

(** A triple-quote delimiter starts at offset [k] of the line. *)
Definition triple_at (t : text) (k : nat) : bool :=
  starts_with triple_s (skipn k t) || starts_with triple_d (skipn k t).

(** A line of six single quotes. *)
Definition six_quotes : text := txt "''''''".

(** The first match ends before the second starts. *)
Definition precedes (m1 m2 : Match) : Prop := m_end m1 <= m_start m2.

(** Position [p] lies in the span of the match. *)
Definition within (m : Match) (p : nat) : Prop := m_start m <= p < m_end m.

(** Some call of format [F] covers position [p]. *)
Definition covered_by (n : nat) (calls : list call) (F : QTextCharFormat)
    (p : nat) : Prop :=
  exists c, In c calls /\ sf_format c = F /\ covers n c p = true.

(** An identifier written with ASCII letters, digits and underscores
    occupies [a .. b-1], starts at a word boundary and has an opening
    parenthesis right after it. *)
Definition call_site (t : text) (a b : nat) : Prop :=
  a < b
  /\ is_word (before t a) = false
  /\ (exists c, nth_error t a = Some c /\ ident_start c = true)
  /\ forallb ident_char (slice t a b) = true
  /\ nth_error t b = Some "(".

(** The character before offset [k] of [s], which [prev] precedes. *)
Definition prev_at (prev : option ascii) (s : text) (k : nat) : option ascii :=
  match k with 0 => prev | S k' => nth_error s k' end.

(** [s] between double quotes. *)
Definition quoted (s : string) : text := dq :: txt s ++ [dq].

(** The line of the comment example: a string literal holding [#], two
    blanks and a comment. *)
Definition real_comment_line : text :=
  txt "x = " ++ quoted "a#b" ++ txt "  # real comment".

(** An editor on [aaa] after the search for [aa]: two results, the first
    one current. *)
Definition searched_aaa : CodeEditor :=
  mkEditor [txt "aaa"] (0, 2) false
    (map search_selection [(0, 2); (1, 2)]) [] [(0, 2); (1, 2)] 0%Z (txt "aa")
    (mkSel (Cursor 2 2) (mkColor 255 255 0 80) true
       :: map search_selection [(0, 2); (1, 2)]).

(** The editor inside a widget, when it is one. *)
Definition editor_of (w : widget) : option CodeEditor :=
  match w with Editor ed => Some ed | _ => None end.

(** The selection of the current line of an editor that is not read-only. *)
Definition current_line_selection (ed : CodeEditor) : ExtraSelection :=
  mkSel (Cursor (snd (textCursor ed)) (snd (textCursor ed)))
    (mkColor 255 255 0 80) true.

(** The call stays inside a line of [n] characters. *)
Definition in_line (n : nat) (c : call) : Prop := sf_start c + sf_count c <= n.

(** A line with an f-string, a hexadecimal number and a comment. *)
Definition sample_line : text := txt "x = f'{a}' + g(0x1F) # if".

(** The characters [_normalize_line_endings] removes or replaces: carriage
    return, NUL, the zero-width characters, the no-break space and the
    control characters of the class. *)
Definition artifact (c : N) : bool :=
  ((c =? 13) || (c =? 0) || (c =? 0x200b) || (c =? 0xfeff) || (c =? 0x200c)
   || (c =? 0x200d) || (c =? 0xa0))%N || control c.

(** Neither an artifact nor a newline nor a space. *)
Definition visible (c : N) : bool :=
  negb (artifact c) && negb (c =? 10)%N && negb (c =? 32)%N.

(** What the replacements that follow the one of CR LF make of one
    character: CR becomes a newline, the no-break space a space, every
    other artifact goes, and any other character stays. *)
Definition norm_char (c : N) : ustr :=
  if (c =? 13)%N then [10%N]
  else if (c =? 0xa0)%N then [32%N]
  else if artifact c then []
  else [c].

(** An editor that holds the results of a search for [aa] in a text that
    has since lost its last character: the second result ends beyond the
    document. *)
Definition edited_aa : CodeEditor :=
  mkEditor [txt "aa"] (2, 2) false
    (map search_selection [(0, 2); (1, 2)]) [] [(0, 2); (1, 2)] 0%Z (txt "aa")
    (mkSel (Cursor 2 2) (mkColor 255 255 0 80) true
       :: map search_selection [(0, 2); (1, 2)]).

(** A document with a no-break space between two letters. *)
Definition nbsp_doc : list text := [["a"; "160"; "b"]].

(** What clearing every highlight makes of the current widget [w] of a pane:
    of an editor, the editor with both layers empty and the current line as
    its only extra selection (none when read-only), everything else kept;
    of any other widget, and of no widget, the same. *)
Definition cleared (w w' : widget) : Prop :=
  match w with
  | Editor ed =>
      exists ed',
        w' = Editor ed'
        /\ _search_highlights ed' = [] /\ _diff_highlights ed' = []
        /\ extraSelections ed'
           = (if isReadOnly ed then [] else [current_line_selection ed])
        /\ document ed' = document ed
        /\ textCursor ed' = textCursor ed
        /\ isReadOnly ed' = isReadOnly ed
        /\ _search_results ed' = _search_results ed
        /\ _current_search_index ed' = _current_search_index ed
        /\ _search_text ed' = _search_text ed
  | NoWidget => w' = NoWidget
  | OtherWidget => w' = OtherWidget
  end.

(** Whether position [p] of [t] holds a brace. *)
Definition brace_at (t : text) (p : nat) : bool :=
  match nth_error t p with
  | Some ch => one_of ["{"; "}"] ch
  | None => false
  end.

(** The positions of the braces of [t] from [start] to [end_ - 1], in
    increasing order. *)
Definition brace_positions (t : text) (start end_ : nat) : list nat :=
  filter (brace_at t) (seq start (Nat.min end_ (length t) - start)).

(** The call [c] moved [d] characters to the right. *)
Definition shift_call (d : nat) (c : call) : call :=
  setFormat (sf_start c + d) (sf_count c) (sf_format c).

(** The calls of the string pass: STRING and INTERPOLATION_MARKER. *)
Definition is_string_call (c : call) : bool :=
  match foreground (sf_format c) with
  | c_string | c_regex => true
  | _ => false
  end.

(** A match moved [d] characters to the right, with its groups. *)
Definition shift_match (d : nat) (m : Match) : Match :=
  mkMatch (m_start m + d) (m_end m + d)
    (map (fun g : string * (nat * nat) =>
            (fst g, (fst (snd g) + d, snd (snd g) + d))) (m_caps m)).

(** * Properties *)

(** ** The highlight layers *)

Lemma highlight_current_line_search (ed : CodeEditor) :
  _search_highlights (highlight_current_line ed) = _search_highlights ed.
Proof. unfold highlight_current_line; destruct (isReadOnly ed); reflexivity. Qed.

Lemma highlight_current_line_diff (ed : CodeEditor) :
  _diff_highlights (highlight_current_line ed) = _diff_highlights ed.
Proof. unfold highlight_current_line; destruct (isReadOnly ed); reflexivity. Qed.

Lemma highlight_current_line_document (ed : CodeEditor) :
  document (highlight_current_line ed) = document ed.
Proof. unfold highlight_current_line; destruct (isReadOnly ed); reflexivity. Qed.

Lemma highlight_current_line_idem (ed : CodeEditor) :
  highlight_current_line (highlight_current_line ed) = highlight_current_line ed.
Proof.
  unfold highlight_current_line.
  destruct ed as [d c ro sh dh sr ix st ex]; simpl.
  destruct ro; simpl; reflexivity.
Qed.

Lemma new_editor_composed (doc : list text) : composed (new_editor doc).
Proof. apply highlight_current_line_idem. Qed.

Lemma clear_search_highlight_idem (ed : CodeEditor) :
  clear_search_highlight (clear_search_highlight ed) = clear_search_highlight ed.
Proof.
  unfold clear_search_highlight, highlight_current_line, with_search_highlights.
  destruct ed as [d c ro sh dh sr ix st ex]; simpl.
  destruct ro; simpl; reflexivity.
Qed.

Lemma clear_diff_idem (w : widget) : clear_diff (clear_diff w) = clear_diff w.
Proof.
  destruct w as [| |ed]; simpl; try reflexivity.
  unfold highlight_current_line, with_diff_highlights.
  destruct ed as [d c ro sh dh sr ix st ex]; simpl.
  destruct ro; simpl; reflexivity.
Qed.

Lemma clear_search_highlight_noop (ed : CodeEditor) :
  _search_highlights ed = [] -> composed ed -> clear_search_highlight ed = ed.
Proof.
  unfold composed, clear_search_highlight. intros Hs Hc.
  replace (with_search_highlights ed []) with ed; [exact Hc|].
  destruct ed; simpl in *; subst; reflexivity.
Qed.

Lemma clear_diff_noop (ed : CodeEditor) :
  _diff_highlights ed = [] -> composed ed -> clear_diff (Editor ed) = Editor ed.
Proof.
  unfold composed. intros Hd Hc. simpl.
  replace (with_diff_highlights ed []) with ed; [now rewrite Hc|].
  destruct ed; simpl in *; subst; reflexivity.
Qed.

Lemma composed_after (ed : CodeEditor) : composed (highlight_current_line ed).
Proof. apply highlight_current_line_idem. Qed.

Lemma setTextCursor_composed (ed : CodeEditor) (c : nat * nat) :
  composed ed -> composed (setTextCursor ed c).
Proof.
  unfold setTextCursor. destruct (snd c =? snd (textCursor ed)) eqn:E;
    [|intros _; apply composed_after].
  apply Nat.eqb_eq in E. unfold composed, highlight_current_line.
  destruct ed as [d tc ro sh dh sr ix st ex]; simpl in *. rewrite E.
  destruct ro; simpl; intros [= <-]; reflexivity.
Qed.

Lemma setTextCursor_layers (ed : CodeEditor) (c : nat * nat) :
  _search_highlights (setTextCursor ed c) = _search_highlights ed
  /\ _diff_highlights (setTextCursor ed c) = _diff_highlights ed.
Proof.
  unfold setTextCursor. destruct (snd c =? snd (textCursor ed)); [now split|].
  now rewrite highlight_current_line_search, highlight_current_line_diff.
Qed.

Lemma highlight_keeps_search (left right : CodeEditor) :
  _search_highlights (fst (fst (highlight left right))) = _search_highlights left
  /\ _search_highlights (snd (fst (highlight left right)))
     = _search_highlights right
  /\ composed (fst (fst (highlight left right)))
  /\ composed (snd (fst (highlight left right))).
Proof.
  unfold highlight. destruct (diff_loop _ _) as [[changed ls] rs].
  destruct changed; cbn [fst snd];
    repeat (rewrite ?highlight_current_line_search;
            cbn [with_diff_highlights _search_highlights]);
    (split; [reflexivity|]); (split; [reflexivity|]);
    split; apply composed_after.
Qed.

Lemma no_search_run_inv (ed : CodeEditor) :
  no_search_run ed -> _search_highlights ed = [] /\ composed ed.
Proof.
  induction 1 as [doc|ed c _ [IH1 IH2]|ed other _ [IH1 IH2]|ed other _ [IH1 IH2]
                 |ed ed' _ [IH1 IH2] Hc].
  - split; [reflexivity|apply new_editor_composed].
  - split; [now rewrite (proj1 (setTextCursor_layers ed c))
           |now apply setTextCursor_composed].
  - destruct (highlight_keeps_search ed other) as (H1 & _ & H3 & _).
    split; [congruence|assumption].
  - destruct (highlight_keeps_search other ed) as (_ & H2 & _ & H4).
    split; [congruence|assumption].
  - simpl in Hc. injection Hc as <-.
    split; [|apply composed_after].
    rewrite highlight_current_line_search. now destruct ed.
Qed.

Lemma find_all_keeps_diff (fuel : nat) (ed ed' : CodeEditor) (t : text) :
  _find_all_fuel fuel ed t = Ok ed' -> composed ed ->
  _diff_highlights ed' = _diff_highlights ed /\ composed ed'.
Proof.
  unfold _find_all_fuel. destruct (negb (truthy t)); [now intros [= <-]|].
  destruct (find_loop fuel _ t 0) as [r| |]; simpl; try discriminate.
  destruct r as [|first r]; intros [= <-] _.
  - split; [|apply composed_after].
    rewrite highlight_current_line_diff. now destruct ed.
  - split.
    + rewrite (proj2 (setTextCursor_layers _ _)). cbn [with_search _diff_highlights].
      rewrite highlight_current_line_diff. now destruct ed.
    + apply setTextCursor_composed. unfold composed, highlight_current_line.
      destruct ed as [d tc ro sh dh sr ix st ex]; simpl.
      destruct ro; reflexivity.
Qed.

Lemma no_diff_run_inv (ed : CodeEditor) :
  no_diff_run ed -> _diff_highlights ed = [] /\ composed ed.
Proof.
  induction 1 as [doc|ed c _ [IH1 IH2]|ed ed' t _ [IH1 IH2] Hf
                 |ed cursor _ [IH1 IH2]|ed _ [IH1 IH2]].
  - split; [reflexivity|apply new_editor_composed].
  - split; [now rewrite (proj2 (setTextCursor_layers ed c))
           |now apply setTextCursor_composed].
  - destruct (find_all_keeps_diff _ _ _ _ Hf IH2) as [H1 H2].
    split; [congruence|assumption].
  - split; [|apply composed_after]. unfold set_search_highlight.
    rewrite highlight_current_line_diff. now destruct ed.
  - split; [|apply composed_after]. unfold clear_search_highlight.
    rewrite highlight_current_line_diff. now destruct ed.
Qed.

(** C7. Clearing the search highlights and clearing the diff highlights are
    idempotent on every editor state.  On an editor where no search (no
    diff) has ever run, and more generally where that layer is empty and
    the extra selections are composed from the layers, clearing changes
    nothing; a missing widget or one without diff highlights is passed
    over.  The functions are total: nothing in them can raise. *)
Theorem clear_idempotent_and_safe :
  (forall ed, clear_search_highlight (clear_search_highlight ed)
              = clear_search_highlight ed)
  /\ (forall left right,
        clear_both (fst (clear_both left right)) (snd (clear_both left right))
        = clear_both left right)
  /\ (forall ed, no_search_run ed -> clear_search_highlight ed = ed)
  /\ (forall l r, no_diff_run l -> no_diff_run r ->
                  clear_both (Editor l) (Editor r) = (Editor l, Editor r))
  /\ (forall ed, _search_highlights ed = [] -> composed ed ->
                 clear_search_highlight ed = ed)
  /\ (forall l r, _diff_highlights l = [] -> composed l ->
                  _diff_highlights r = [] -> composed r ->
                  clear_both (Editor l) (Editor r) = (Editor l, Editor r))
  /\ (forall doc, clear_search_highlight (new_editor doc) = new_editor doc)
  /\ (forall dl dr, clear_both (Editor (new_editor dl)) (Editor (new_editor dr))
                    = (Editor (new_editor dl), Editor (new_editor dr)))
  /\ clear_both NoWidget OtherWidget = (NoWidget, OtherWidget).
Proof.
  split; [exact clear_search_highlight_idem|].
  split.
  { intros l r. unfold clear_both; simpl. now rewrite !clear_diff_idem. }
  split.
  { intros ed H. apply no_search_run_inv in H as [H1 H2].
    now apply clear_search_highlight_noop. }
  split.
  { intros l r Hl Hr. apply no_diff_run_inv in Hl as [Hl1 Hl2].
    apply no_diff_run_inv in Hr as [Hr1 Hr2]. unfold clear_both.
    now rewrite (clear_diff_noop l), (clear_diff_noop r). }
  split; [exact clear_search_highlight_noop|].
  split.
  { intros l r Hl Cl Hr Cr. unfold clear_both.
    now rewrite (clear_diff_noop l Hl Cl), (clear_diff_noop r Hr Cr). }
  split.
  { intros doc. apply clear_search_highlight_noop;
      [unfold new_editor; now rewrite highlight_current_line_search
      |apply new_editor_composed]. }
  split; [|reflexivity].
  intros dl dr. unfold clear_both.
  rewrite !clear_diff_noop; try reflexivity; try apply new_editor_composed;
    unfold new_editor; now rewrite highlight_current_line_diff.
Qed.

Lemma clear_idempotent_and_safe_witness :
  let ed := new_editor [["a"]] in
  let moved := setTextCursor ed (1, 1) in
  _search_highlights ed = [] /\ composed ed /\ _diff_highlights ed = []
  /\ clear_search_highlight ed = ed
  /\ clear_both (Editor ed) (Editor ed) = (Editor ed, Editor ed)
  /\ no_search_run moved /\ no_diff_run moved
  /\ clear_search_highlight moved = moved
  /\ clear_both (Editor moved) (Editor ed) = (Editor moved, Editor ed).
Proof.
  intros ed moved.
  assert (Hs : _search_highlights ed = []) by reflexivity.
  assert (Hd : _diff_highlights ed = []) by reflexivity.
  assert (Hc : composed ed) by reflexivity.
  assert (Hns : no_search_run moved) by (apply ns_cursor, ns_new).
  assert (Hnd : no_diff_run moved) by (apply nd_cursor, nd_new).
  destruct clear_idempotent_and_safe as (_ & _ & Hrs & Hrd & Hn & Hb & _).
  split; [exact Hs|]. split; [exact Hc|]. split; [exact Hd|].
  split; [exact (Hn ed Hs Hc)|]. split; [exact (Hb ed ed Hd Hc Hd Hc)|].
  split; [exact Hns|]. split; [exact Hnd|].
  split; [exact (Hrs moved Hns)|exact (Hrd moved ed Hnd (nd_new _))].
Defined.

(** C9. Clearing the search layer leaves the stored diff ranges as they
    were, and they are still composed into the extra selections; clearing
    the diff layer of both panes leaves the stored search ranges as they
    were. *)
Theorem layers_independent :
  (forall ed,
      _diff_highlights (clear_search_highlight ed) = _diff_highlights ed
      /\ exists below, extraSelections (clear_search_highlight ed)
                       = below ++ _diff_highlights ed)
  /\ (forall left right,
        search_layer (fst (clear_both left right)) = search_layer left
        /\ search_layer (snd (clear_both left right)) = search_layer right)
  /\ (forall ed, exists below,
        extraSelections (highlight_current_line ed)
        = below ++ _search_highlights ed ++ _diff_highlights ed).
Proof.
  split; [|split].
  - intros ed. split.
    + unfold clear_search_highlight.
      rewrite highlight_current_line_diff. now destruct ed.
    + unfold clear_search_highlight, highlight_current_line.
      destruct ed as [d c ro sh dh sr ix st ex]; simpl.
      destruct ro; simpl; [now exists []|eexists [_]; reflexivity].
  - intros l r. unfold clear_both; simpl.
    split; [destruct l as [| |ed]|destruct r as [| |ed]]; simpl;
      try reflexivity; rewrite highlight_current_line_search; now destruct ed.
  - intros ed. unfold highlight_current_line.
    destruct (isReadOnly ed); simpl; [now exists []|eexists [_]; reflexivity].
Qed.

(** ** The line diff *)

Lemma text_eqb_eq (a b : text) : text_eqb a b = true <-> a = b.
Proof.
  revert b; induction a as [|x a IH]; intros [|y b]; simpl;
    try (split; [discriminate|discriminate]); try tauto.
  unfold eqc. rewrite andb_true_iff, Ascii.eqb_eq, IH.
  split; [intros [-> ->]; reflexivity|intros [= -> ->]; auto].
Qed.

Lemma differ_neq (l r : list text) (i : nat) :
  differ l r i = true <-> rstrip (line l i) <> rstrip (line r i).
Proof.
  unfold differ. rewrite negb_true_iff, <- not_true_iff_false, text_eqb_eq.
  tauto.
Qed.

Lemma block_text_or_empty (d : list text) (k : nat) :
  (if isValid d k then block_text d k else []) = line d k.
Proof.
  unfold isValid, block_text, blockCount, line.
  destruct (k <? length d) eqn:E; [reflexivity|].
  apply Nat.ltb_ge in E. symmetry; now apply nth_overflow.
Qed.

Lemma truthy_valid (d : list text) (i : nat) :
  truthy (rstrip (line d i)) = true -> isValid d i = true.
Proof.
  unfold isValid, blockCount, line. intros H.
  apply Nat.ltb_lt. destruct (Nat.lt_ge_cases i (length d)) as [|Hge]; [assumption|].
  rewrite (nth_overflow _ _ Hge) in H. discriminate.
Qed.

Lemma diff_fold (l r : list text) (k a : nat) (c : bool)
    (ls rs : list ExtraSelection) :
  fold_left (diff_step l r) (seq a k) (c, ls, rs)
  = (c || existsb (differ l r) (seq a k),
     ls ++ map line_selection (filter (selected l r l) (seq a k)),
     rs ++ map line_selection (filter (selected l r r) (seq a k))).
Proof.
  revert a c ls rs; induction k as [|k IH]; intros a c ls rs.
  - simpl. now rewrite orb_false_r, !app_nil_r.
  - cbn [seq fold_left existsb filter].
    assert (Hstep : diff_step l r (c, ls, rs) a
                    = if differ l r a
                      then (true,
                            if truthy (rstrip (line l a)) && isValid l a
                            then ls ++ [line_selection a] else ls,
                            if truthy (rstrip (line r a)) && isValid r a
                            then rs ++ [line_selection a] else rs)
                      else (c, ls, rs)).
    { unfold diff_step. rewrite !block_text_or_empty. reflexivity. }
    assert (SL : selected l r l a
                 = differ l r a && (truthy (rstrip (line l a)) && isValid l a))
      by reflexivity.
    assert (SR : selected l r r a
                 = differ l r a && (truthy (rstrip (line r a)) && isValid r a))
      by reflexivity.
    rewrite Hstep, SL, SR.
    destruct (differ l r a) eqn:D; rewrite IH; cbn [andb orb].
    + rewrite orb_true_r.
      destruct (truthy (rstrip (line l a)) && isValid l a);
        destruct (truthy (rstrip (line r a)) && isValid r a); cbn [map];
        rewrite <- ?app_assoc; reflexivity.
    + reflexivity.
Qed.

Lemma diff_loop_closed (l r : list text) :
  let m := Nat.max (blockCount l) (blockCount r) in
  diff_loop l r
  = (existsb (differ l r) (seq 0 m),
     map line_selection (filter (selected l r l) (seq 0 m)),
     map line_selection (filter (selected l r r) (seq 0 m))).
Proof. intros m. unfold diff_loop. fold m. now rewrite diff_fold. Qed.

Lemma filter_none {A : Type} (f : A -> bool) (l : list A) :
  (forall x, In x l -> f x = false) -> filter f l = [].
Proof.
  induction l as [|x l IH]; intros H; simpl; [reflexivity|].
  rewrite (H x (or_introl eq_refl)). apply IH. intros y Hy. apply H. now right.
Qed.

Lemma highlight_marks (left right : CodeEditor) :
  let l := document left in
  let r := document right in
  let m := max_blocks left right in
  left_marks left right = map line_selection (filter (selected l r l) (seq 0 m))
  /\ right_marks left right = map line_selection (filter (selected l r r) (seq 0 m))
  /\ snd (highlight left right) = existsb (differ l r) (seq 0 m).
Proof.
  intros l r m. unfold left_marks, right_marks, highlight.
  rewrite !highlight_current_line_document.
  replace (document (with_diff_highlights left [])) with l by now destruct left.
  replace (document (with_diff_highlights right [])) with r by now destruct right.
  rewrite diff_loop_closed.
  change (Nat.max (blockCount l) (blockCount r)) with m.
  destruct (existsb (differ l r) (seq 0 m)) eqn:E; cbn [fst snd].
  - rewrite !highlight_current_line_diff.
    split; [now destruct left|split; [now destruct right|reflexivity]].
  - rewrite !highlight_current_line_diff.
    assert (Hno : forall d, filter (selected l r d) (seq 0 m) = []).
    { intros d. apply filter_none. intros x Hx. unfold selected.
      destruct (differ l r x) eqn:D; [|reflexivity].
      assert (existsb (differ l r) (seq 0 m) = true)
        by (apply existsb_exists; now exists x).
      congruence. }
    rewrite !Hno.
    split; [now destruct left|split; [now destruct right|reflexivity]].
Qed.

Lemma in_line_selections (f : nat -> bool) (m i : nat) :
  In (line_selection i) (map line_selection (filter f (seq 0 m)))
  <-> i < m /\ f i = true.
Proof.
  rewrite in_map_iff. split.
  - intros (k & Hk & Hin). injection Hk as ->.
    apply filter_In in Hin as [Hin Hf]. apply in_seq in Hin. split; [lia|assumption].
  - intros [Hi Hf]. exists i. split; [reflexivity|].
    apply filter_In. split; [apply in_seq; lia|assumption].
Qed.

Lemma differ_selected (l r : list text) (i : nat) :
  differ l r i = true -> selected l r l i = true \/ selected l r r i = true.
Proof.
  intros D. unfold selected. rewrite D. cbn [andb].
  destruct (truthy (rstrip (line l i))) eqn:TL.
  - left. now rewrite (truthy_valid l i TL).
  - destruct (truthy (rstrip (line r i))) eqn:TR.
    + right. now rewrite (truthy_valid r i TR).
    + exfalso. apply differ_neq in D. apply D.
      destruct (rstrip (line l i)); [|discriminate].
      destruct (rstrip (line r i)); [reflexivity|discriminate].
Qed.

Lemma differ_in_range (l r : list text) (i : nat) :
  differ l r i = true -> i < Nat.max (length l) (length r).
Proof.
  intros D. destruct (Nat.lt_ge_cases i (Nat.max (length l) (length r))) as [|Hge];
    [assumption|exfalso].
  apply differ_neq in D. apply D. unfold line.
  rewrite !nth_overflow by lia. reflexivity.
Qed.

Lemma count_line_selections (f : nat -> bool) (i k a : nat) :
  ranges_on (map line_selection (filter f (seq a k))) i
  = if (a <=? i) && (i <? a + k) && f i then 1 else 0.
Proof.
  unfold ranges_on. revert a; induction k as [|k IH]; intros a.
  - simpl. replace (i <? a + 0) with (i <? a) by (f_equal; lia).
    destruct (a <=? i) eqn:E1; destruct (i <? a) eqn:E2; try reflexivity.
    apply Nat.leb_le in E1. apply Nat.ltb_lt in E2. lia.
  - cbn [seq filter].
    assert (Hrest : length (filter (on_block i)
                             (map line_selection (filter f (seq (S a) k))))
                    = if (S a <=? i) && (i <? a + S k) && f i then 1 else 0).
    { rewrite IH. replace (S a + k) with (a + S k) by lia. reflexivity. }
    destruct (Nat.eq_dec a i) as [->|Hne].
    + assert (H0 : (S i <=? i) = false) by (apply Nat.leb_gt; lia).
      rewrite H0 in Hrest. cbn [andb] in Hrest.
      assert (H1 : (i <=? i) = true) by (apply Nat.leb_le; lia).
      assert (H2 : (i <? i + S k) = true) by (apply Nat.ltb_lt; lia).
      rewrite H1, H2. cbn [andb].
      destruct (f i); [|exact Hrest].
      cbn [map filter on_block line_selection sel_cursor].
      rewrite Nat.eqb_refl. cbn [length]. now rewrite Hrest.
    + assert (H1 : (a <=? i) = (S a <=? i)).
      { destruct (S a <=? i) eqn:E; [apply Nat.leb_le in E; apply Nat.leb_le; lia
                                    |apply Nat.leb_gt in E; apply Nat.leb_gt; lia]. }
      rewrite H1. destruct (f a); [|exact Hrest].
      cbn [map filter on_block line_selection sel_cursor].
      assert (H2 : (a =? i) = false) by now apply Nat.eqb_neq.
      rewrite H2. exact Hrest.
Qed.

Lemma rstrip_spaces (s : text) : forallb isspace s = true -> rstrip s = [].
Proof.
  induction s as [|c s IH]; simpl; [reflexivity|].
  intros H. apply andb_true_iff in H as [Hc Hs]. now rewrite (IH Hs), Hc.
Qed.

(** C2. The comparison marks index [i] changed exactly when the
    right-trimmed texts of line [i] differ, for every index below the larger
    block count, a missing line counting as empty; no index beyond is
    marked, and [changed] is returned exactly when some index differs.
    The lines [foo ] and [foo] trim to the same text; [a b c] against
    [a x c] marks index 1 only; [a b c] against [z a b c] marks 0 to 3. *)
Theorem compare_marks_differing_lines :
  (forall left right i, i < max_blocks left right ->
      (marked left right i
       <-> rstrip (line (document left) i) <> rstrip (line (document right) i)))
  /\ (forall left right i, max_blocks left right <= i -> ~ marked left right i)
  /\ (forall left right,
        snd (highlight left right) = true
        <-> exists i, i < max_blocks left right
                      /\ rstrip (line (document left) i)
                         <> rstrip (line (document right) i))
  /\ (rstrip (txt "foo ") = rstrip (txt "foo")
      /\ snd (highlight (new_editor [txt "foo "]) (new_editor [txt "foo"]))
         = false)
  /\ (left_marks (new_editor abc) (new_editor axc) = [line_selection 1]
      /\ right_marks (new_editor abc) (new_editor axc) = [line_selection 1])
  /\ (left_marks (new_editor abc) (new_editor zabc)
      = [line_selection 0; line_selection 1; line_selection 2]
      /\ right_marks (new_editor abc) (new_editor zabc)
         = [line_selection 0; line_selection 1; line_selection 2; line_selection 3]).
Proof.
  split; [|split; [|split; [|split; [split; reflexivity
                                    |split; split; reflexivity]]]].
  - intros left right i Hi. unfold marked.
    destruct (highlight_marks left right) as (HL & HR & _).
    rewrite HL, HR, !in_line_selections, <- differ_neq. split.
    + intros [[_ H]|[_ H]]; unfold selected in H;
        apply andb_true_iff in H; tauto.
    + intros D. destruct (differ_selected _ _ _ D); [left|right]; tauto.
  - intros left right i Hi. unfold marked.
    destruct (highlight_marks left right) as (HL & HR & _).
    rewrite HL, HR, !in_line_selections. intros [[H _]|[H _]]; lia.
  - intros left right.
    destruct (highlight_marks left right) as (_ & _ & HC).
    rewrite HC, existsb_exists. split.
    + intros (i & Hin & D). exists i. apply in_seq in Hin.
      split; [lia|now apply differ_neq].
    + intros (i & Hi & D). exists i. split; [apply in_seq; lia|now apply differ_neq].
Qed.

Lemma compare_marks_differing_lines_witness :
  1 < max_blocks (new_editor abc) (new_editor axc)
  /\ (marked (new_editor abc) (new_editor axc) 1
      <-> rstrip (line (document (new_editor abc)) 1)
          <> rstrip (line (document (new_editor axc)) 1))
  /\ ~ marked (new_editor abc) (new_editor axc) 3.
Proof.
  assert (H1 : 1 < max_blocks (new_editor abc) (new_editor axc))
    by (vm_compute; lia).
  assert (H3 : max_blocks (new_editor abc) (new_editor axc) <= 3)
    by (vm_compute; lia).
  split; [exact H1|].
  split; [exact (proj1 compare_marks_differing_lines _ _ 1 H1)
         |exact (proj1 (proj2 compare_marks_differing_lines) _ _ 3 H3)].
Defined.

(** C8, as the code has it. For every index whose right-trimmed texts
    differ, a side whose line is non-empty after right-trimming holds
    exactly one highlight range for that line, and a side whose line is
    missing, empty or made of whitespace only holds none; every range of
    the diff layers selects a whole block. *)
Theorem changed_line_ranges :
  forall left right i,
    rstrip (line (document left) i) <> rstrip (line (document right) i) ->
    ranges_on (left_marks left right) i
    = (if truthy (rstrip (line (document left) i)) then 1 else 0)
    /\ ranges_on (right_marks left right) i
       = (if truthy (rstrip (line (document right) i)) then 1 else 0)
    /\ (forallb isspace (line (document left) i) = true ->
        ranges_on (left_marks left right) i = 0)
    /\ (forallb isspace (line (document right) i) = true ->
        ranges_on (right_marks left right) i = 0)
    /\ Forall (fun s => exists k, s = line_selection k)
         (left_marks left right ++ right_marks left right).
Proof.
  intros left right i D. apply differ_neq in D.
  destruct (highlight_marks left right) as (HL & HR & _).
  pose proof (differ_in_range _ _ _ D) as Hi.
  assert (Hcount : forall d,
             ranges_on (map line_selection
                          (filter (selected (document left) (document right) d)
                             (seq 0 (max_blocks left right)))) i
             = if truthy (rstrip (line d i)) then 1 else 0).
  { intros d. rewrite count_line_selections. unfold selected.
    rewrite D. cbn [andb plus].
    assert (H2 : (i <? max_blocks left right) = true)
      by (apply Nat.ltb_lt; exact Hi).
    rewrite H2. cbn [andb].
    destruct (truthy (rstrip (line d i))) eqn:T; [|reflexivity].
    now rewrite (truthy_valid d i T). }
  rewrite HL, HR, !Hcount.
  split; [reflexivity|]. split; [reflexivity|].
  split; [intros H; now rewrite (rstrip_spaces _ H)|].
  split; [intros H; now rewrite (rstrip_spaces _ H)|].
  apply Forall_forall. intros s Hs. apply in_app_or in Hs.
  destruct Hs as [Hs|Hs]; apply in_map_iff in Hs as (k & <- & _); now exists k.
Qed.

Lemma changed_line_ranges_witness :
  ranges_on (left_marks (new_editor abc) (new_editor axc)) 1 = 1
  /\ ranges_on (right_marks (new_editor abc) (new_editor axc)) 1 = 1.
Proof.
  assert (D : rstrip (line (document (new_editor abc)) 1)
              <> rstrip (line (document (new_editor axc)) 1))
    by (vm_compute; discriminate).
  destruct (changed_line_ranges (new_editor abc) (new_editor axc) 1 D)
    as (HL & HR & _).
  split; [exact HL|exact HR].
Defined.

(** C8 as stated fails on a changed line made of whitespace: the line is not
    empty, yet its side receives no highlight range. *)
Lemma whitespace_line_gets_no_range :
  let left := new_editor [[" "; " "]] in
  let right := new_editor [["x"]] in
  line (document left) 0 <> []
  /\ marked left right 0
  /\ ranges_on (left_marks left right) 0 = 0
  /\ ~ (line (document left) 0 <> [] -> ranges_on (left_marks left right) 0 = 1).
Proof.
  cbv zeta. split; [vm_compute; discriminate|].
  split; [right; vm_compute; now left|].
  split; [reflexivity|].
  intros H. assert (E : line (document (new_editor [[" "; " "]])) 0 <> [])
    by (vm_compute; discriminate).
  specialize (H E). vm_compute in H. discriminate.
Qed.

(** ** [str.find] and the search for every occurrence *)

Lemma starts_with_firstn (sub s : text) :
  starts_with sub s = true <-> firstn (length sub) s = sub.
Proof.
  revert s; induction sub as [|a sub IH]; intros s; simpl; [tauto|].
  destruct s as [|c s]; [split; discriminate|].
  unfold eqc. rewrite andb_true_iff, Ascii.eqb_eq, IH. split.
  - intros [-> ->]; reflexivity.
  - intros [= -> ->]; auto.
Qed.

Lemma starts_with_nil (sub : text) : sub <> [] -> starts_with sub [] = false.
Proof. destruct sub; [congruence|reflexivity]. Qed.

Lemma occurs_starts_with (sub d : text) (p : nat) :
  occurs sub d p <-> starts_with sub (skipn p d) = true.
Proof.
  unfold occurs, slice. replace (p + length sub - p) with (length sub) by lia.
  symmetry; apply starts_with_firstn.
Qed.

Lemma occurs_in_range (sub d : text) (p : nat) :
  sub <> [] -> occurs sub d p -> p < length d.
Proof.
  intros Hne H. apply occurs_starts_with in H.
  destruct (Nat.lt_ge_cases p (length d)) as [|Hge]; [assumption|].
  rewrite (skipn_all2 d Hge), (starts_with_nil sub Hne) in H. discriminate.
Qed.

Lemma find_from_some (sub s : text) (pos p : nat) :
  find_from sub s pos = Some p ->
  pos <= p /\ starts_with sub (skipn (p - pos) s) = true
  /\ forall k, k < p - pos -> starts_with sub (skipn k s) = false.
Proof.
  revert pos; induction s as [|c s IH]; intros pos; simpl.
  - destruct (starts_with sub []) eqn:E; [|discriminate].
    intros [= <-]. rewrite Nat.sub_diag. simpl. repeat split; [lia|assumption|lia].
  - destruct (starts_with sub (c :: s)) eqn:E.
    + intros [= <-]. rewrite Nat.sub_diag. simpl. repeat split; [lia|assumption|lia].
    + intros H. apply IH in H as (Hle & Hat & Hbefore).
      replace (p - pos) with (S (p - S pos)) by lia. simpl.
      repeat split; [lia|assumption|].
      intros [|k] Hk; simpl; [assumption|apply Hbefore; lia].
Qed.

Lemma find_from_none (sub s : text) (pos : nat) :
  find_from sub s pos = None -> forall k, starts_with sub (skipn k s) = false.
Proof.
  revert pos; induction s as [|c s IH]; intros pos; simpl.
  - destruct (starts_with sub []) eqn:E; [discriminate|].
    intros _ k. now rewrite skipn_nil.
  - destruct (starts_with sub (c :: s)) eqn:E; [discriminate|].
    intros H [|k]; simpl; [assumption|now apply (IH _ H)].
Qed.

Lemma find_some (sub d : text) (start p : nat) :
  find sub d start = Some p ->
  start <= p /\ occurs sub d p
  /\ forall k, start <= k < p -> ~ occurs sub d k.
Proof.
  unfold find. destruct (start <=? length d) eqn:E; [|discriminate].
  intros H. apply find_from_some in H as (Hle & Hat & Hbefore).
  rewrite skipn_skipn in Hat. replace (p - start + start) with p in Hat by lia.
  repeat split; [assumption|now apply occurs_starts_with|].
  intros k Hk Hocc. apply occurs_starts_with in Hocc.
  specialize (Hbefore (k - start)). rewrite skipn_skipn in Hbefore.
  replace (k - start + start) with k in Hbefore by lia.
  rewrite Hbefore in Hocc by lia. discriminate.
Qed.

Lemma find_none (sub d : text) (start : nat) :
  sub <> [] -> find sub d start = None ->
  forall k, start <= k -> ~ occurs sub d k.
Proof.
  unfold find. intros Hne H k Hk Hocc.
  pose proof (occurs_in_range _ _ _ Hne Hocc) as Hlt.
  apply occurs_starts_with in Hocc.
  destruct (start <=? length d) eqn:E; [|apply Nat.leb_gt in E; lia].
  pose proof (find_from_none _ _ _ H (k - start)) as Hk'.
  rewrite skipn_skipn in Hk'. replace (k - start + start) with k in Hk' by lia.
  congruence.
Qed.

Lemma find_loop_more_fuel (d t : text) (fuel : nat) :
  forall pos r fuel', find_loop fuel d t pos = Ok r -> fuel <= fuel' ->
                      find_loop fuel' d t pos = Ok r.
Proof.
  induction fuel as [|fuel IH]; intros pos r fuel' H Hle; [discriminate|].
  destruct fuel' as [|fuel']; [lia|]. simpl in *.
  destruct (find t d pos) as [p|]; [|assumption].
  destruct (find_loop fuel d t (p + 1)) as [r'| |] eqn:E; try discriminate.
  rewrite (IH _ _ fuel' E) by lia. assumption.
Qed.

Lemma find_loop_spec (d t : text) (Hne : t <> []) (fuel : nat) :
  forall pos, length d + 1 - pos < fuel ->
    exists r, find_loop fuel d t pos = Ok r
      /\ StronglySorted lt (map fst r)
      /\ (forall p, In p (map fst r) <-> pos <= p /\ occurs t d p)
      /\ Forall (fun e => snd e = length t) r.
Proof.
  induction fuel as [|fuel IH]; intros pos Hfuel; [lia|]. simpl.
  destruct (find t d pos) as [p|] eqn:F.
  - apply find_some in F as (Hle & Hocc & Hbefore).
    pose proof (occurs_in_range _ _ _ Hne Hocc) as Hlt.
    destruct (IH (p + 1)) as (r & Hr & Hsort & Hin & Hlen); [lia|].
    rewrite Hr. simpl. eexists; split; [reflexivity|]. simpl.
    split; [|split].
    + constructor; [assumption|].
      apply Forall_forall. intros q Hq. apply Hin in Hq. lia.
    + intros q. rewrite Hin. split.
      * intros [<-|[Hq Hoq]]; [tauto|split; [lia|assumption]].
      * intros [Hq Hoq]. destruct (Nat.eq_dec p q) as [|Hneq]; [now left|right].
        split; [|assumption].
        destruct (Nat.lt_ge_cases q p) as [Hqp|]; [|lia].
        exfalso. apply (Hbefore q); [lia|assumption].
    + constructor; [reflexivity|assumption].
  - exists []. simpl. split; [reflexivity|]. split; [constructor|].
    split; [|constructor].
    intros p. split; [tauto|]. intros [Hp Hocc].
    exact (find_none _ _ _ Hne F p Hp Hocc).
Qed.

Lemma highlight_current_line_results (ed : CodeEditor) :
  _search_results (highlight_current_line ed) = _search_results ed.
Proof. unfold highlight_current_line; destruct (isReadOnly ed); reflexivity. Qed.

Lemma setTextCursor_results (ed : CodeEditor) (c : nat * nat) :
  _search_results (setTextCursor ed c) = _search_results ed.
Proof.
  unfold setTextCursor. destruct (snd c =? snd (textCursor ed)); [reflexivity|].
  now rewrite highlight_current_line_results.
Qed.

Lemma find_all_results (fuel : nat) (ed ed' : CodeEditor) (t : text) :
  t <> [] -> _find_all_fuel fuel ed t = Ok ed' ->
  find_loop fuel (toPlainText (document ed)) t 0 = Ok (_search_results ed').
Proof.
  intros Hne. unfold _find_all_fuel.
  destruct t as [|c t]; [congruence|]. cbn [truthy negb].
  replace (document (with_search ed [] (-1)%Z (c :: t))) with (document ed)
    by now destruct ed.
  destruct (find_loop fuel (toPlainText (document ed)) (c :: t) 0)
    as [r| |]; simpl; try discriminate.
  destruct r as [|first r]; intros [= <-].
  - rewrite highlight_current_line_results. now destruct ed.
  - rewrite setTextCursor_results. reflexivity.
Qed.

(** C10. For a non-empty query the search returns, in strictly increasing
    order of offset, exactly the offsets at which the query occurs in the
    document text, overlapping occurrences included, each with the length
    of the query; any larger fuel gives the same editor.  Searching [aa]
    in [aaa] gives the offsets 0 and 1. *)
Theorem find_all_occurrences :
  forall (ed : CodeEditor) (t : text), t <> [] ->
    let d := toPlainText (document ed) in
    exists ed',
      _find_all ed t = Ok ed'
      /\ (forall fuel, length d + 2 <= fuel -> _find_all_fuel fuel ed t = Ok ed')
      /\ StronglySorted lt (map fst (_search_results ed'))
      /\ (forall p, In p (map fst (_search_results ed')) <-> occurs t d p)
      /\ Forall (fun e => snd e = length t) (_search_results ed')
      /\ (ed = new_editor [txt "aaa"] -> t = txt "aa" ->
          _search_results ed' = [(0, 2); (1, 2)]).
Proof.
  intros ed t Hne d.
  destruct (find_loop_spec d t Hne (length d + 2) 0) as (r & Hr & Hsort & Hin & Hlen);
    [lia|].
  assert (Hrun : forall fuel, length d + 2 <= fuel ->
            exists ed', _find_all_fuel fuel ed t = Ok ed'
                        /\ forall fuel', fuel <= fuel' ->
                                         _find_all_fuel fuel' ed t = Ok ed').
  { intros fuel Hfuel. unfold _find_all_fuel.
    destruct t as [|c t]; [congruence|]. cbn [truthy negb].
    replace (document (with_search ed [] (-1)%Z (c :: t))) with (document ed)
      by now destruct ed.
    fold d. rewrite (find_loop_more_fuel _ _ _ _ _ fuel Hr Hfuel). cbn [bind].
    clear Hsort Hin Hlen.
    destruct r as [|first r]; (eexists; split; [reflexivity|]);
      intros fuel' Hle;
      rewrite (find_loop_more_fuel _ _ _ _ _ fuel' Hr) by lia; reflexivity. }
  destruct (Hrun (length d + 2) (Nat.le_refl _)) as (ed' & Hed & Hmore).
  exists ed'. split; [exact Hed|]. split; [exact Hmore|].
  pose proof (find_all_results _ _ _ _ Hne Hed) as Hres. fold d in Hres.
  rewrite Hr in Hres. injection Hres as Hres. subst r.
  split; [assumption|]. split; [|split; [assumption|]].
  - intros p. rewrite Hin. split; [tauto|]. intros H; split; [lia|assumption].
  - intros -> ->. unfold _find_all in Hed. vm_compute in Hed.
    injection Hed as <-. reflexivity.
Qed.

Lemma find_all_occurrences_witness :
  exists ed', _find_all (new_editor [txt "aaa"]) (txt "aa") = Ok ed'
              /\ _search_results ed' = [(0, 2); (1, 2)].
Proof.
  assert (Hne : txt "aa" <> []) by (vm_compute; discriminate).
  destruct (find_all_occurrences (new_editor [txt "aaa"]) (txt "aa") Hne)
    as (ed' & Hed & _ & _ & _ & _ & Hex).
  exists ed'. split; [exact Hed|exact (Hex eq_refl eq_refl)].
Defined.

(** ** The matcher *)

Lemma prev_after_app (prev : option ascii) (u v : text) :
  prev_after prev (u ++ v) = prev_after (prev_after prev u) v.
Proof. apply fold_left_app. Qed.

(** Whatever a pattern returns, it returns through its continuation, called
    on a suffix of the text at the matching position. *)
Lemma star_kont {A : Type} (p : ascii -> bool) (s : text) :
  forall prev pos (k : option ascii -> text -> nat -> option A) a,
    star p prev s pos k = Some a ->
    exists u s', s = u ++ s' /\ forallb p u = true
                 /\ k (prev_after prev u) s' (pos + length u) = Some a.
Proof.
  induction s as [|c s IH]; intros prev pos k a; simpl.
  - intros H. exists [], []. simpl. now rewrite Nat.add_0_r.
  - destruct (p c) eqn:Pc.
    + destruct (star p (Some c) s (S pos) k) as [a'|] eqn:E.
      * intros [= ->]. apply IH in E as (u & s' & -> & Hu & Hk).
        exists (c :: u), s'. simpl. rewrite Pc, Hu.
        replace (pos + S (length u)) with (S pos + length u) by lia.
        repeat split; assumption.
      * intros H. exists [], (c :: s). simpl. now rewrite Nat.add_0_r.
    + intros H. exists [], (c :: s). simpl. now rewrite Nat.add_0_r.
Qed.

Lemma run_kont {A : Type} (r : re) :
  forall prev s pos cs (k : kont) (a : A),
    run r prev s pos cs k = Some a ->
    exists u s' cs', s = u ++ s'
                     /\ k (prev_after prev u) s' (pos + length u) cs' = Some a.
Proof.
  induction r as [|p|r1 IH1 r2 IH2|r1 IH1 r2 IH2|p| |p|name r IH];
    intros prev s pos cs k a; simpl.
  - intros H. exists [], s, cs. simpl. now rewrite Nat.add_0_r.
  - destruct s as [|c s]; [discriminate|]. destruct (p c); [|discriminate].
    intros H. exists [c], s, cs. simpl. now rewrite Nat.add_1_r.
  - intros H. apply IH1 in H as (u & s' & cs' & -> & H).
    apply IH2 in H as (v & s'' & cs'' & -> & H).
    exists (u ++ v), s'', cs''. rewrite prev_after_app, length_app, <- app_assoc.
    now rewrite Nat.add_assoc.
  - destruct (run r1 prev s pos cs k) as [a'|] eqn:E.
    + intros [= ->]. now apply IH1 in E.
    + apply IH2.
  - intros H. apply star_kont in H as (u & s' & -> & _ & H).
    now exists u, s', cs.
  - destruct (xorb _ _); [|discriminate].
    intros H. exists [], s, cs. simpl. now rewrite Nat.add_0_r.
  - destruct s as [|c s]; [discriminate|]. destruct (p c); [|discriminate].
    intros H. exists [], (c :: s), cs. simpl. now rewrite Nat.add_0_r.
  - intros H. apply IH in H as (u & s' & cs' & -> & H).
    now exists u, s', ((name, (pos, pos + length u)) :: cs').
Qed.

Lemma match_at_span (r : re) (prev : option ascii) (s : text) (pos : nat)
    (m : Match) :
  match_at r prev s pos = Some m ->
  m_start m = pos /\ pos <= m_end m <= pos + length s.
Proof.
  unfold match_at. intros H.
  apply run_kont in H as (u & s' & cs' & -> & H). injection H as <-. simpl.
  rewrite length_app. lia.
Qed.

Lemma search_from_span (r : re) (s : text) :
  forall prev pos m, search_from r prev s pos = Some m ->
                     pos <= m_start m <= m_end m /\ m_end m <= pos + length s.
Proof.
  induction s as [|c s IH]; intros prev pos m; simpl.
  - destruct (match_at r prev [] pos) as [m'|] eqn:E; [|discriminate].
    intros [= ->]. apply match_at_span in E. simpl in E. lia.
  - destruct (match_at r prev (c :: s) pos) as [m'|] eqn:E.
    + intros [= ->]. apply match_at_span in E. simpl in E. lia.
    + intros H. apply IH in H. lia.
Qed.

Lemma search_span (r : re) (t : text) (idx : nat) (m : Match) :
  search r t idx = Some m ->
  idx <= m_start m <= m_end m /\ m_end m <= length t.
Proof.
  unfold search. destruct (idx <=? length t) eqn:E; [|discriminate].
  apply Nat.leb_le in E. intros H. apply search_from_span in H.
  rewrite length_skipn in H. lia.
Qed.

(** ** The tokenizer returns on every line *)

Lemma quote_loop_total (t : text) (q : ascii) (fuel : nat) :
  forall j esc, length t - j < fuel ->
    exists j', quote_loop fuel t q j esc = Ok j' /\ j <= j'.
Proof.
  induction fuel as [|fuel IH]; intros j esc Hfuel; [lia|]. simpl.
  destruct (j <? length t) eqn:E.
  - apply Nat.ltb_lt in E.
    destruct (nth_error t j) as [ch|] eqn:N;
      [|apply nth_error_None in N; lia].
    destruct esc.
    + destruct (IH (S j) false) as (j' & -> & Hj'); [lia|]. exists j'. split; [reflexivity|lia].
    + destruct (eqc ch backslash).
      * destruct (IH (S j) true) as (j' & -> & Hj'); [lia|].
        exists j'. split; [reflexivity|lia].
      * destruct (eqc ch q).
        -- exists (S j). split; [reflexivity|lia].
        -- destruct (IH (S j) false) as (j' & -> & Hj'); [lia|].
           exists j'. split; [reflexivity|lia].
  - exists j. split; [reflexivity|lia].
Qed.

Lemma quote_loop_more_fuel (t : text) (q : ascii) (fuel : nat) :
  forall j esc j' fuel', quote_loop fuel t q j esc = Ok j' -> fuel <= fuel' ->
                         quote_loop fuel' t q j esc = Ok j'.
Proof.
  induction fuel as [|fuel IH]; intros j esc j' fuel' H Hle; [discriminate|].
  destruct fuel' as [|fuel']; [lia|]. simpl in *.
  destruct (j <? length t); [|assumption].
  destruct (nth_error t j) as [ch|]; [|discriminate].
  destruct esc; [apply (IH _ _ _ _ H); lia|].
  destruct (eqc ch backslash); [apply (IH _ _ _ _ H); lia|].
  destruct (eqc ch q); [assumption|apply (IH _ _ _ _ H); lia].
Qed.

Lemma string_loop_total (t : text) (gas : nat) (Hgas : length t < gas)
    (fuel : nat) :
  forall idx, length t - idx < fuel ->
    exists r, string_loop gas fuel t idx = Ok r.
Proof.
  induction fuel as [|fuel IH]; intros idx Hfuel; [lia|]. simpl.
  destruct (idx <? length t) eqn:E; [|eexists; reflexivity].
  apply Nat.ltb_lt in E.
  destruct (search pat t idx) as [m|] eqn:S; [|eexists; reflexivity].
  apply search_span in S.
  destruct (group "ts" (m_caps m)) as [[a b]|].
  - destruct (find (slice t a b) t (m_start m + 3)) as [e|] eqn:F;
      [|eexists; reflexivity].
    apply find_some in F as (Hle & _).
    destruct (IH (e + 3)) as (r & ->); [lia|]. eexists; reflexivity.
  - match goal with
    | |- context [quote_loop gas t ?q ?j false] =>
        destruct (quote_loop_total t q gas j false) as (j' & -> & Hj'); [lia|]
    end.
    cbn [bind]. destruct (IH j') as (r & ->); [lia|]. eexists; reflexivity.
Qed.

Lemma string_loop_more_fuel (t : text) (gas gas' : nat) (Hgas : gas <= gas')
    (fuel : nat) :
  forall idx r fuel', string_loop gas fuel t idx = Ok r -> fuel <= fuel' ->
                      string_loop gas' fuel' t idx = Ok r.
Proof.
  induction fuel as [|fuel IH]; intros idx r fuel' H Hle; [discriminate|].
  destruct fuel' as [|fuel']; [lia|]. simpl in *.
  destruct (idx <? length t); [|assumption].
  destruct (search pat t idx) as [m|]; [|assumption].
  destruct (group "ts" (m_caps m)) as [[a b]|].
  - destruct (find (slice t a b) t (m_start m + 3)) as [e|]; [|assumption].
    destruct (string_loop gas fuel t (e + 3)) as [r'| |] eqn:E; try discriminate.
    rewrite (IH _ _ fuel' E) by lia. assumption.
  - match goal with
    | H : context [quote_loop gas t ?q ?j false] |- _ =>
        destruct (quote_loop gas t q j false) as [j'| |] eqn:Q; try discriminate;
        rewrite (quote_loop_more_fuel _ _ _ _ _ _ gas' Q Hgas)
    end.
    cbn [bind] in *.
    destruct (string_loop gas fuel t j') as [r'| |] eqn:E; try discriminate.
    rewrite (IH _ _ fuel' E) by lia. assumption.
Qed.

(** The block state the string pass sets when it returns is that of an
    open triple-quoted literal. *)
Lemma string_loop_state (t : text) (gas fuel : nat) :
  forall idx cs st, string_loop gas fuel t idx = Ok (cs, Some st) ->
                    st = STATE_TRIPLE_S \/ st = STATE_TRIPLE_D.
Proof.
  induction fuel as [|fuel IH]; intros idx cs st; [discriminate|]. simpl.
  destruct (idx <? length t); [|discriminate].
  destruct (search pat t idx) as [m|]; [|discriminate].
  destruct (group "ts" (m_caps m)) as [[a b]|].
  - destruct (find (slice t a b) t (m_start m + 3)) as [e|].
    + destruct (string_loop gas fuel t (e + 3)) as [[cs' o]| |] eqn:E;
        try discriminate.
      simpl. intros [= _ ->]. exact (IH _ _ _ E).
    + intros [= _ <-]. destruct (text_eqb _ _); [now left|now right].
  - destruct (quote_loop gas t _ _ false) as [j| |]; try discriminate.
    cbn [bind].
    destruct (string_loop gas fuel t j) as [[cs' o]| |] eqn:E; try discriminate.
    simpl. intros [= _ ->]. exact (IH _ _ _ E).
Qed.

Lemma passes_enough (t : text) (i : nat) (pre : list call) (fuel : nat) :
  length t < fuel ->
  passes fuel t i pre = passes (S (length t)) t i pre
  /\ exists calls st', passes fuel t i pre = Ok (calls, st')
       /\ (st' = STATE_NONE \/ st' = STATE_TRIPLE_S \/ st' = STATE_TRIPLE_D).
Proof.
  intros Hfuel. unfold passes.
  destruct (string_loop_total t (S (length t)) (Nat.lt_succ_diag_r _)
              (S (length t)) i) as ([cs o] & Hr); [lia|].
  rewrite Hr.
  rewrite (string_loop_more_fuel t (S (length t)) fuel Hfuel _ _ _ fuel Hr Hfuel).
  split; [reflexivity|]. cbn [bind snd fst].
  destruct o as [st|].
  - eexists _, _. split; [reflexivity|]. right.
    exact (string_loop_state _ _ _ _ _ _ Hr).
  - eexists _, _. split; [reflexivity|]. now left.
Qed.

Lemma highlightBlock_enough (t : text) (st : Z) (fuel : nat) :
  length t < fuel -> highlightBlock_fuel fuel t st = highlightBlock t st.
Proof.
  intros Hfuel. unfold highlightBlock, highlightBlock_fuel.
  destruct (_ || _); [|apply (passes_enough t 0 [] fuel Hfuel)].
  destruct (find _ t 0); [|reflexivity].
  apply (passes_enough _ _ _ fuel Hfuel).
Qed.

(** C6. On every line and every previous block state, [highlightBlock]
    returns its calls and a block state: no [IndexError] is raised and the
    loops end, with any fuel above the length of the line; the block state
    it sets is one of the three states.  The empty line makes no call and
    sets [STATE_NONE]. *)
Theorem highlightBlock_total :
  forall (t : text) (st : Z),
    exists calls st',
      highlightBlock t st = Ok (calls, st')
      /\ (forall fuel, length t < fuel ->
                       highlightBlock_fuel fuel t st = Ok (calls, st'))
      /\ (st' = STATE_NONE \/ st' = STATE_TRIPLE_S \/ st' = STATE_TRIPLE_D)
      /\ highlightBlock [] STATE_NONE = Ok ([], STATE_NONE).
Proof.
  intros t st.
  assert (H : exists calls st',
             highlightBlock t st = Ok (calls, st')
             /\ (st' = STATE_NONE \/ st' = STATE_TRIPLE_S \/ st' = STATE_TRIPLE_D)).
  { unfold highlightBlock, highlightBlock_fuel.
    destruct ((_ =? STATE_TRIPLE_S)%Z || _) eqn:E.
    - destruct (find _ t 0).
      + apply (passes_enough t _ _ (S (length t)) (Nat.lt_succ_diag_r _)).
      + eexists _, _. split; [reflexivity|]. right.
        apply orb_true_iff in E as [E|E]; apply Z.eqb_eq in E; tauto.
    - apply (passes_enough t 0 [] (S (length t)) (Nat.lt_succ_diag_r _)). }
  destruct H as (calls & st' & Hrun & Hst).
  exists calls, st'. split; [exact Hrun|]. split; [|split; [exact Hst|reflexivity]].
  intros fuel Hfuel. now rewrite highlightBlock_enough.
Qed.

Lemma highlightBlock_total_witness :
  exists calls st',
    highlightBlock_fuel 10 (dq :: txt "abc") STATE_TRIPLE_D = Ok (calls, st').
Proof.
  destruct (highlightBlock_total (dq :: txt "abc") STATE_TRIPLE_D)
    as (calls & st' & _ & Hfuel & _).
  exists calls, st'. apply Hfuel. vm_compute. lia.
Defined.

(** ** Triple-quoted literals across lines *)

Lemma search_from_match (r : re) (s : text) :
  forall prev pos m, search_from r prev s pos = Some m ->
    exists prev', match_at r prev' (skipn (m_start m - pos) s) (m_start m) = Some m.
Proof.
  induction s as [|c s IH]; intros prev pos m; simpl.
  - destruct (match_at r prev [] pos) as [m'|] eqn:E; [|discriminate].
    intros [= ->]. destruct (match_at_span _ _ _ _ _ E) as [-> _].
    rewrite Nat.sub_diag. now exists prev.
  - destruct (match_at r prev (c :: s) pos) as [m'|] eqn:E.
    + intros [= ->]. destruct (match_at_span _ _ _ _ _ E) as [-> _].
      rewrite Nat.sub_diag. now exists prev.
    + intros H. pose proof (search_from_span _ _ _ _ _ H) as Hsp.
      apply IH in H as (prev' & H). exists prev'.
      replace (m_start m - pos) with (S (m_start m - S pos)) by lia. exact H.
Qed.

Lemma pat_match_ts (prev : option ascii) (s : text) (pos : nat) (m : Match)
    (a b : nat) :
  match_at pat prev s pos = Some m ->
  group "ts" (m_caps m) = Some (a, b) ->
  pos <= a
  /\ (starts_with triple_s (skipn (a - pos) s)
      || starts_with triple_d (skipn (a - pos) s)) = true.
Proof.
  unfold match_at, pat, triple_s, triple_d. cbn [run Opt Lit].
  destruct s as [|c0 [|c1 [|c2 [|c3 s]]]]; cbn [run];
    repeat match goal with
      | |- context [if ?b then _ else _] => destruct b eqn:?
      end;
    try discriminate; intros [= <-] H; cbn in H; try discriminate;
    injection H as <- <-;
    (split; [lia|]);
    rewrite ?Nat.sub_diag;
    repeat match goal with
      | |- context [S ?p - ?p] => replace (S p - p) with 1 by lia
      end;
    cbn [skipn starts_with];
    repeat match goal with
      | H : _ = true |- _ => rewrite H
      end;
    cbn [andb orb]; rewrite ?orb_true_r; reflexivity.
Qed.

Lemma quote_loop_ge (t : text) (q : ascii) (fuel : nat) :
  forall j esc j', quote_loop fuel t q j esc = Ok j' -> j <= j'.
Proof.
  induction fuel as [|fuel IH]; intros j esc j'; [discriminate|]. simpl.
  destruct (j <? length t); [|intros [= <-]; lia].
  destruct (nth_error t j) as [ch|]; [|discriminate].
  destruct esc; [intros H; apply IH in H; lia|].
  destruct (eqc ch backslash); [intros H; apply IH in H; lia|].
  destruct (eqc ch q); [intros [= <-]; lia|intros H; apply IH in H; lia].
Qed.

(** The string pass sets a block state only at a triple-quote delimiter. *)
Lemma string_loop_open (t : text) (gas fuel : nat) :
  forall idx cs st, string_loop gas fuel t idx = Ok (cs, Some st) ->
                    exists k, idx <= k /\ triple_at t k = true.
Proof.
  induction fuel as [|fuel IH]; intros idx cs st; [discriminate|]. simpl.
  destruct (idx <? length t); [|discriminate].
  destruct (search pat t idx) as [m|] eqn:S; [|discriminate].
  pose proof (search_span _ _ _ _ S) as Hsp.
  destruct (group "ts" (m_caps m)) as [[a b]|] eqn:G.
  - destruct (find (slice t a b) t (m_start m + 3)) as [e|] eqn:F.
    + destruct (string_loop gas fuel t (e + 3)) as [[cs' o]| |] eqn:E;
        try discriminate.
      simpl. intros [= _ ->]. apply find_some in F as (Hle & _).
      destruct (IH _ _ _ E) as (k & Hk & Hat). exists k. split; [lia|assumption].
    + intros _. unfold search in S.
      destruct (idx <=? length t); [|discriminate].
      apply search_from_match in S as (prev' & S).
      rewrite skipn_skipn in S.
      replace (m_start m - idx + idx) with (m_start m) in S by lia.
      destruct (pat_match_ts _ _ _ _ _ _ S G) as (Ha & Hat).
      rewrite !skipn_skipn in Hat.
      replace (a - m_start m + m_start m) with a in Hat by lia.
      exists a. split; [lia|exact Hat].
  - destruct (quote_loop gas t _ _ false) as [j| |] eqn:Q; try discriminate.
    cbn [bind]. apply quote_loop_ge in Q.
    destruct (string_loop gas fuel t j) as [[cs' o]| |] eqn:E; try discriminate.
    simpl. intros [= _ ->].
    destruct (IH _ _ _ E) as (k & Hk & Hat). exists k. split; [lia|assumption].
Qed.

(** ** [finditer]: the matches lie in the text, one after the other *)

Lemma finditer_from_span (r : re) (s : text) :
  forall prev pos skip m, In m (finditer_from r prev s pos skip) ->
    pos + skip <= m_start m /\ m_start m <= m_end m <= pos + length s.
Proof.
  induction s as [|c s IH]; intros prev pos skip m; simpl.
  - destruct skip; [|intros []].
    destruct (match_at r prev [] pos) as [m'|] eqn:E; [|intros []].
    intros [<-|[]]. apply match_at_span in E. simpl in E. lia.
  - destruct skip as [|skip].
    + destruct (match_at r prev (c :: s) pos) as [m'|] eqn:E.
      * intros [<-|H].
        -- apply match_at_span in E. simpl in E. lia.
        -- apply IH in H. lia.
      * intros H. apply IH in H. lia.
    + intros H. apply IH in H. lia.
Qed.

Lemma finditer_from_sorted (r : re) (s : text) :
  forall prev pos skip, StronglySorted precedes (finditer_from r prev s pos skip).
Proof.
  induction s as [|c s IH]; intros prev pos skip; simpl.
  - destruct skip; [|constructor].
    destruct (match_at r prev [] pos); repeat constructor.
  - destruct skip as [|skip]; [|apply IH].
    destruct (match_at r prev (c :: s) pos) as [m|] eqn:E; [|apply IH].
    constructor; [apply IH|].
    apply Forall_forall. intros m2 H2. apply finditer_from_span in H2.
    apply match_at_span in E. unfold precedes. lia.
Qed.

Lemma finditer_span (r : re) (t : text) (m : Match) :
  In m (finditer r t) -> m_start m <= m_end m <= length t.
Proof. intros H. apply finditer_from_span in H. lia. Qed.

Lemma sorted_disjoint (l : list Match) (m1 m2 : Match) (p : nat) :
  StronglySorted precedes l -> In m1 l -> In m2 l ->
  within m1 p -> within m2 p -> m1 = m2.
Proof.
  unfold within, precedes.
  induction 1 as [|m l Hs IH Hall]; intros H1 H2 W1 W2; [destruct H1|].
  rewrite Forall_forall in Hall.
  destruct H1 as [<-|H1], H2 as [<-|H2].
  - reflexivity.
  - specialize (Hall _ H2). lia.
  - specialize (Hall _ H1). lia.
  - now apply IH.
Qed.

Lemma finditer_disjoint (r : re) (t : text) (m1 m2 : Match) (p : nat) :
  In m1 (finditer r t) -> In m2 (finditer r t) ->
  within m1 p -> within m2 p -> m1 = m2.
Proof. apply sorted_disjoint, finditer_from_sorted. Qed.

(** ** The format a position ends with *)

Lemma formats_from_none (n : nat) (p : nat) (cs : list call) :
  forall f, (forall c, In c cs -> covers n c p = false) ->
            fold_left (apply_call n) cs f p = f p.
Proof.
  induction cs as [|c cs IH]; intros f H; simpl; [reflexivity|].
  rewrite IH by (intros c' Hc'; apply H; now right).
  unfold apply_call. now rewrite (H c (or_introl eq_refl)).
Qed.

Lemma formats_from_all (n : nat) (p : nat) (F : QTextCharFormat) (cs : list call) :
  forall f, (exists c, In c cs /\ covers n c p = true) ->
            (forall c, In c cs -> covers n c p = true -> sf_format c = F) ->
            fold_left (apply_call n) cs f p = Some F.
Proof.
  induction cs as [|c cs IH]; intros f Hex Hall; [destruct Hex as (? & [] & _)|].
  simpl. destruct (existsb (fun c' => covers n c' p) cs) eqn:E.
  - apply existsb_exists in E. apply IH; [exact E|].
    intros c' Hc'. apply Hall. now right.
  - rewrite formats_from_none.
    + destruct Hex as (c0 & [<-|Hin] & Hcov).
      * unfold apply_call. rewrite Hcov. f_equal. apply Hall; [now left|assumption].
      * assert (existsb (fun c' => covers n c' p) cs = true)
          by (apply existsb_exists; now exists c0).
        congruence.
    + intros c' Hc'. destruct (covers n c' p) eqn:C; [|reflexivity].
      assert (existsb (fun c' => covers n c' p) cs = true)
        by (apply existsb_exists; now exists c').
      congruence.
Qed.

(** No later call covers [p]: the earlier calls decide. *)
Lemma formats_app_none (n p : nat) (early late : list call) :
  (forall c, In c late -> covers n c p = false) ->
  formats n (early ++ late) p = formats n early p.
Proof.
  intros H. unfold formats. rewrite fold_left_app. now apply formats_from_none.
Qed.

(** Some later call covers [p], and those that do all write [F]. *)
Lemma formats_app_all (n p : nat) (F : QTextCharFormat) (early late : list call) :
  (exists c, In c late /\ covers n c p = true) ->
  (forall c, In c late -> covers n c p = true -> sf_format c = F) ->
  formats n (early ++ late) p = Some F.
Proof.
  intros Hex Hall. unfold formats. rewrite fold_left_app.
  now apply formats_from_all.
Qed.

(** The last call that covers a position gives it its format. *)
Lemma formats_last (n p : nat) (early late : list call) (c : call) :
  covers n c p = true ->
  (forall c', In c' late -> covers n c' p = false) ->
  formats n (early ++ c :: late) p = Some (sf_format c).
Proof.
  intros Hc Hlate.
  replace (early ++ c :: late) with ((early ++ [c]) ++ late)
    by now rewrite <- app_assoc.
  rewrite formats_app_none by assumption.
  apply formats_app_all; [exists c; split; [now left|assumption]|].
  intros c' [<-|[]] _. reflexivity.
Qed.

Lemma span_call_covers (F : QTextCharFormat) (m : Match) (n p : nat) :
  m_end m <= n -> m_start m <= m_end m ->
  covers n (span_call F m) p = true <-> within m p.
Proof.
  intros Hn Hle. unfold covers, span_call, within. cbn [sf_start sf_count].
  rewrite andb_true_iff, Nat.leb_le, Nat.ltb_lt. lia.
Qed.

(** ** The order of the passes *)

(** A line that leaves [STATE_NONE] has run every pass: its calls end with
    those of the number, word, function-call and comment passes, each made
    over the whole line. *)
Lemma highlightBlock_full (t : text) (st : Z) (calls : list call) :
  highlightBlock t st = Ok (calls, STATE_NONE) ->
  exists early i,
    calls = early ++ number_calls t ++ word_calls t ++ func_calls t
                  ++ comment_calls t i.
Proof.
  unfold highlightBlock, highlightBlock_fuel.
  assert (Hp : forall i pre,
             passes (S (length t)) t i pre = Ok (calls, STATE_NONE) ->
             exists early i,
               calls = early ++ number_calls t ++ word_calls t ++ func_calls t
                             ++ comment_calls t i).
  { intros i pre. unfold passes.
    destruct (string_loop _ _ t i) as [[cs o]| |] eqn:E; try discriminate.
    cbn [bind snd fst]. destruct o as [st0|].
    - intros [= _ ->].
      destruct (string_loop_state _ _ _ _ _ _ E); discriminate.
    - intros [= <-]. exists (pre ++ deco_calls t ++ cs), i.
      now rewrite <- !app_assoc. }
  destruct ((_ =? STATE_TRIPLE_S)%Z || _) eqn:B; [|apply Hp].
  destruct (find _ t 0); [apply Hp|].
  intros [= _ H]. exfalso.
  apply orb_true_iff in B as [B|B]; apply Z.eqb_eq in B;
    rewrite H in B; discriminate.
Qed.

Lemma word_calls_in (t : text) (c : call) :
  In c (word_calls t) ->
  exists m, In m (finditer re_ident t)
            /\ ((mem (slice t (m_start m) (m_end m)) kw = true
                 /\ c = span_call KEYWORD m)
                \/ (mem (slice t (m_start m) (m_end m)) kw = false
                    /\ c = span_call BUILTIN m)).
Proof.
  unfold word_calls. rewrite in_flat_map. intros (m & Hm & Hc). exists m.
  split; [assumption|].
  destruct (mem _ kw); [left; destruct Hc as [<-|[]]; now split|].
  destruct (mem _ builtins); [|destruct Hc].
  right. destruct Hc as [<-|[]]. now split.
Qed.

Lemma word_calls_format (t : text) (c : call) :
  In c (word_calls t) -> sf_format c = KEYWORD \/ sf_format c = BUILTIN.
Proof.
  intros H. apply word_calls_in in H as (m & _ & [[_ ->]|[_ ->]]); auto.
Qed.

Lemma func_calls_format (t : text) (c : call) :
  In c (func_calls t) -> sf_format c = FUNCTION_CALL.
Proof. unfold func_calls. rewrite in_map_iff. now intros (m & <- & _). Qed.

Lemma number_calls_format (t : text) (c : call) :
  In c (number_calls t) -> sf_format c = NUMBER.
Proof. unfold number_calls. rewrite in_map_iff. now intros (m & <- & _). Qed.

Lemma comment_calls_format (t : text) (i : nat) (c : call) :
  In c (comment_calls t i) -> sf_format c = COMMENT.
Proof.
  unfold comment_calls. destruct (comment_start t i); [|intros []].
  now intros [<-|[]].
Qed.

Lemma span_call_within (F : QTextCharFormat) (r : re) (t : text) (m : Match)
    (p : nat) :
  In m (finditer r t) ->
  covers (length t) (span_call F m) p = true <-> within m p.
Proof. intros H. apply finditer_span in H. apply span_call_covers; lia. Qed.

Section Passes.
Variables (t : text) (st : Z) (calls : list call).
Hypothesis Hrun : highlightBlock t st = Ok (calls, STATE_NONE).
Variable p : nat.

(** A position of a function-call match outside the comment. *)
Lemma call_match_format (m : Match) :
  In m (finditer re_call t) -> within m p ->
  ~ covered_by (length t) calls COMMENT p ->
  formats (length t) calls p = Some FUNCTION_CALL.
Proof.
  intros Hm Hw Hnc.
  destruct (highlightBlock_full _ _ _ Hrun) as (early & i & Hcalls).
  rewrite Hcalls, !app_assoc, <- (app_assoc _ (func_calls t)).
  apply formats_app_all.
  - exists (span_call FUNCTION_CALL m). split.
    + apply in_or_app. left. now apply in_map.
    + now apply (span_call_within _ re_call).
  - intros c Hc Hcov. apply in_app_or in Hc as [Hc|Hc];
      [now apply (func_calls_format t)|].
    exfalso. apply Hnc. exists c. split; [|split].
    + rewrite Hcalls. do 4 (apply in_or_app; right). exact Hc.
    + now apply comment_calls_format in Hc.
    + exact Hcov.
Qed.

(** A position of a reserved word outside function calls and comment. *)
Lemma keyword_match_format (m : Match) :
  In m (finditer re_ident t) ->
  mem (slice t (m_start m) (m_end m)) kw = true -> within m p ->
  ~ covered_by (length t) calls FUNCTION_CALL p -> ~ covered_by (length t) calls COMMENT p ->
  formats (length t) calls p = Some KEYWORD.
Proof.
  intros Hm Hkw Hw Hnf Hnc.
  destruct (highlightBlock_full _ _ _ Hrun) as (early & i & Hcalls).
  rewrite Hcalls, !app_assoc, <- (app_assoc _ (func_calls t)),
    <- (app_assoc _ (word_calls t)).
  apply formats_app_all.
  - exists (span_call KEYWORD m). split.
    + apply in_or_app. left. unfold word_calls. apply in_flat_map.
      exists m. split; [assumption|]. rewrite Hkw. now left.
    + now apply (span_call_within _ re_ident).
  - intros c Hc Hcov. apply in_app_or in Hc as [Hc|Hc].
    + apply word_calls_in in Hc as (m2 & Hm2 & Hc).
      assert (Hw2 : within m2 p).
      { destruct Hc as [[_ ->]|[_ ->]];
          now apply (span_call_within _ re_ident) in Hcov. }
      rewrite (finditer_disjoint _ _ _ _ _ Hm2 Hm Hw2 Hw) in Hc.
      destruct Hc as [[_ ->]|[Hc _]]; [reflexivity|congruence].
    + exfalso. apply in_app_or in Hc as [Hc|Hc]; [apply Hnf|apply Hnc];
        exists c; (split; [|split; [|exact Hcov]]).
      * rewrite Hcalls. do 3 (apply in_or_app; right).
        apply in_or_app. now left.
      * now apply (func_calls_format t).
      * rewrite Hcalls. do 4 (apply in_or_app; right). exact Hc.
      * now apply comment_calls_format in Hc.
Qed.

(** A position of a number match outside words, function calls and
    comment. *)
Lemma number_match_format (m : Match) :
  In m (finditer re_number t) -> within m p ->
  ~ covered_by (length t) calls KEYWORD p -> ~ covered_by (length t) calls BUILTIN p ->
  ~ covered_by (length t) calls FUNCTION_CALL p -> ~ covered_by (length t) calls COMMENT p ->
  formats (length t) calls p = Some NUMBER.
Proof.
  intros Hm Hw Hnk Hnb Hnf Hnc.
  destruct (highlightBlock_full _ _ _ Hrun) as (early & i & Hcalls).
  rewrite Hcalls. apply formats_app_all.
  - exists (span_call NUMBER m). split.
    + apply in_or_app. left. now apply in_map.
    + now apply (span_call_within _ re_number).
  - intros c Hc Hcov. apply in_app_or in Hc as [Hc|Hc];
      [now apply (number_calls_format t)|].
    exfalso.
    assert (Hin : In c calls).
    { rewrite Hcalls. do 2 (apply in_or_app; right). exact Hc. }
    apply in_app_or in Hc as [Hc|Hc].
    { destruct (word_calls_format _ _ Hc); [apply Hnk|apply Hnb];
        exists c; auto. }
    apply in_app_or in Hc as [Hc|Hc].
    { apply Hnf. exists c. split; [assumption|].
      split; [now apply (func_calls_format t)|assumption]. }
    apply Hnc. exists c. split; [assumption|].
    split; [now apply comment_calls_format in Hc|assumption].
Qed.
End Passes.

(** ** Function calls *)

Lemma finditer_from_match (r : re) (s : text) :
  forall prev pos skip m, In m (finditer_from r prev s pos skip) ->
    exists prev', match_at r prev' (skipn (m_start m - pos) s) (m_start m) = Some m.
Proof.
  induction s as [|c s IH]; intros prev pos skip m; simpl.
  - destruct skip; [|intros []].
    destruct (match_at r prev [] pos) as [m'|] eqn:E; [|intros []].
    intros [<-|[]]. destruct (match_at_span _ _ _ _ _ E) as [-> _].
    rewrite Nat.sub_diag. now exists prev.
  - assert (Htail : forall skip',
               In m (finditer_from r (Some c) s (S pos) skip') ->
               exists prev',
                 match_at r prev' (skipn (m_start m - pos) (c :: s)) (m_start m)
                 = Some m).
    { intros skip' H. pose proof (finditer_from_span _ _ _ _ _ _ H) as Hsp.
      apply IH in H as (prev' & H). exists prev'.
      replace (m_start m - pos) with (S (m_start m - S pos)) by lia. exact H. }
    destruct skip as [|skip]; [|apply Htail].
    destruct (match_at r prev (c :: s) pos) as [m'|] eqn:E; [|apply Htail].
    intros [<-|H]; [|now apply Htail in H].
    destruct (match_at_span _ _ _ _ _ E) as [-> _].
    rewrite Nat.sub_diag. now exists prev.
Qed.

(** A match of the call pattern is a run of identifier characters, begun by
    a letter or an underscore, with an opening parenthesis right after. *)
Lemma call_match_shape (t : text) (m : Match) :
  In m (finditer re_call t) ->
  m_start m < m_end m
  /\ (exists c, nth_error t (m_start m) = Some c /\ ident_start c = true)
  /\ forallb ident_char (slice t (m_start m) (m_end m)) = true
  /\ nth_error t (m_end m) = Some "(".
Proof.
  intros H. pose proof (finditer_span _ _ _ H) as Hsp.
  apply finditer_from_match in H as (prev & H).
  rewrite Nat.sub_0_r in H. unfold match_at, re_call in H. cbn [run] in H.
  destruct (xorb _ _); [|discriminate].
  destruct (skipn (m_start m) t) as [|c s] eqn:Es; [discriminate|].
  destruct (ident_start c) eqn:Ec; [|discriminate].
  apply star_kont in H as (u & s' & -> & Hu & H).
  destruct s' as [|c' s']; [discriminate|].
  destruct (eqc "(" c') eqn:Ep; [|discriminate].
  injection H as H. apply Ascii.eqb_eq in Ep. subst c'.
  assert (Hend : m_end m = S (m_start m) + length u) by (rewrite <- H; reflexivity).
  assert (Ht : t = firstn (m_start m) t ++ c :: u ++ "(" :: s').
  { rewrite <- Es. symmetry. apply firstn_skipn. }
  assert (Hlen : length (firstn (m_start m) t) = m_start m).
  { apply firstn_length_le. lia. }
  split; [lia|]. split; [|split].
  - exists c. split; [|assumption].
    rewrite Ht at 1. rewrite nth_error_app2 by lia.
    rewrite Hlen, Nat.sub_diag. reflexivity.
  - unfold slice. rewrite Es, Hend.
    replace (S (m_start m) + length u - m_start m) with (S (length u)) by lia.
    cbn [firstn forallb]. rewrite firstn_app, firstn_all, Nat.sub_diag.
    cbn [firstn]. rewrite app_nil_r, Hu, andb_true_r.
    unfold ident_start in Ec. unfold ident_char.
    apply orb_true_iff in Ec as [->| ->]; [reflexivity|now rewrite orb_true_r].
  - rewrite Ht at 1. rewrite nth_error_app2 by lia.
    rewrite Hlen, Hend.
    replace (S (m_start m) + length u - m_start m) with (S (length u)) by lia.
    cbn [nth_error]. rewrite nth_error_app2 by lia.
    now rewrite Nat.sub_diag.
Qed.

Lemma star_greedy {A : Type} (p : ascii -> bool) (u s' : text) :
  forall prev pos (k : option ascii -> text -> nat -> option A) a,
    forallb p u = true ->
    match s' with c' :: _ => p c' = false | [] => True end ->
    k (prev_after prev u) s' (pos + length u) = Some a ->
    star p prev (u ++ s') pos k = Some a.
Proof.
  induction u as [|c u IH]; intros prev pos k a Hu Hs Hk; simpl in *.
  - rewrite Nat.add_0_r in Hk.
    destruct s' as [|c' s']; simpl; [assumption|]. now rewrite Hs.
  - apply andb_true_iff in Hu as [Hc Hu]. rewrite Hc.
    rewrite (IH (Some c) (S pos) k a Hu Hs); [reflexivity|].
    now replace (S pos + length u) with (pos + S (length u)) by lia.
Qed.

Lemma ident_start_word (c : ascii) : ident_start c = true -> word c = true.
Proof.
  unfold ident_start, word. intros H.
  apply orb_true_iff in H as [-> | ->]; [reflexivity|].
  now rewrite !orb_true_r.
Qed.

Lemma ident_char_word (c : ascii) : ident_char c = true -> word c = true.
Proof.
  unfold ident_char, word, digit. intros H.
  apply orb_true_iff in H as [H | ->]; [|now rewrite !orb_true_r].
  apply orb_true_iff in H as [-> | ->]; [reflexivity|].
  now rewrite !orb_true_r.
Qed.

Lemma call_match_at (prev : option ascii) (c : ascii) (u s' : text) (pos : nat) :
  is_word prev = false -> ident_start c = true -> forallb ident_char u = true ->
  match_at re_call prev (c :: u ++ "(" :: s') pos
  = Some (mkMatch pos (S pos + length u) []).
Proof.
  intros Hp Hc Hu. unfold match_at, re_call. cbn [run].
  cbn [hd_error is_word]. rewrite Hp, (ident_start_word c Hc), Hc. cbn [xorb].
  apply star_greedy; [assumption|reflexivity|reflexivity].
Qed.

Lemma nth_error_skipn_cons {A : Type} (l : list A) (k : nat) (x : A) :
  nth_error l k = Some x -> skipn k l = x :: skipn (S k) l.
Proof.
  revert k; induction l as [|y l IH]; intros [|k]; simpl; try discriminate.
  - now intros [= ->].
  - intros H. now rewrite (IH _ H).
Qed.

(** Every position where the pattern matches is found by [finditer],
    unless it lies strictly inside an earlier match. *)
Lemma finditer_from_complete (r : re) (s : text) :
  forall prev pos skip q m,
    pos + skip <= q <= pos + length s ->
    match_at r (prev_at prev s (q - pos)) (skipn (q - pos) s) q = Some m ->
    In m (finditer_from r prev s pos skip)
    \/ exists m0, In m0 (finditer_from r prev s pos skip)
                  /\ m_start m0 < q < m_end m0.
Proof.
  induction s as [|c s IH]; intros prev pos skip q m Hq Hm.
  - simpl in Hq. assert (q = pos) by lia. subst q.
    destruct skip; [|lia]. rewrite Nat.sub_diag in Hm. simpl in Hm.
    simpl. rewrite Hm. left. now left.
  - simpl in Hq.
    assert (Hstep : pos < q ->
              match_at r (prev_at (Some c) s (q - S pos)) (skipn (q - S pos) s) q
              = Some m).
    { intros Hlt. replace (q - pos) with (S (q - S pos)) in Hm by lia.
      simpl in Hm. destruct (q - S pos) as [|k] eqn:Ek; simpl in *; exact Hm. }
    destruct skip as [|skip].
    + cbn [finditer_from].
      destruct (Nat.eq_dec q pos) as [->|Hne].
      * rewrite Nat.sub_diag in Hm. simpl in Hm. rewrite Hm. left. now left.
      * assert (Hlt : pos < q) by lia. specialize (Hstep Hlt).
        destruct (match_at r prev (c :: s) pos) as [m0|] eqn:E0.
        -- pose proof (match_at_span _ _ _ _ _ E0) as (Hs0 & He0).
           destruct (Nat.lt_ge_cases q (m_end m0)) as [Hin|Hout].
           ++ right. exists m0. split; [now left|lia].
           ++ destruct (IH (Some c) (S pos) (m_end m0 - pos - 1) q m) as [H|H];
                [lia|exact Hstep|left; now right|].
              destruct H as (m1 & H1 & Hq1). right. exists m1.
              split; [now right|assumption].
        -- apply (IH (Some c) (S pos) 0 q m); [lia|exact Hstep].
    + cbn [finditer_from].
      apply (IH (Some c) (S pos) skip q m); [lia|apply Hstep; lia].
Qed.

Lemma before_prev_at (t : text) (q : nat) : prev_at None t q = before t q.
Proof. destruct q; reflexivity. Qed.

Lemma slice_nth (t : text) (a b k : nat) (c : ascii) :
  a <= k < b -> nth_error t k = Some c -> In c (slice t a b).
Proof.
  intros Hk Hn. unfold slice.
  apply (nth_error_In _ (k - a)).
  rewrite nth_error_firstn.
  assert (Hlt : (k - a <? b - a) = true) by (apply Nat.ltb_lt; lia).
  rewrite Hlt, nth_error_skipn. now replace (a + (k - a)) with k by lia.
Qed.

(** Every call site of a line is a match of the call pattern. *)
Lemma call_site_found (t : text) (a b : nat) :
  call_site t a b -> In (mkMatch a b []) (finditer re_call t).
Proof.
  intros (Hab & Hbnd & (c & Hc & Hstart) & Hchars & Hparen).
  assert (Hb : b < length t) by (apply nth_error_Some; congruence).
  pose proof (nth_error_skipn_cons _ _ _ Hc) as Hsa.
  pose proof (nth_error_skipn_cons _ _ _ Hparen) as Hsb.
  set (u := firstn (b - S a) (skipn (S a) t)).
  assert (Hu : skipn (S a) t = u ++ "(" :: skipn (S b) t).
  { rewrite <- Hsb. unfold u.
    replace (skipn b t) with (skipn (b - S a) (skipn (S a) t)).
    - symmetry. apply firstn_skipn.
    - rewrite skipn_skipn. f_equal. lia. }
  assert (Hlen : length u = b - S a).
  { unfold u. rewrite firstn_length_le; [reflexivity|].
    rewrite length_skipn. lia. }
  assert (Hall : forallb ident_char u = true).
  { unfold slice in Hchars. rewrite Hsa in Hchars.
    replace (b - a) with (S (b - S a)) in Hchars by lia.
    cbn [firstn forallb] in Hchars. apply andb_true_iff in Hchars. tauto. }
  assert (Hm : match_at re_call (prev_at None t (a - 0)) (skipn (a - 0) t) a
               = Some (mkMatch a b [])).
  { rewrite Nat.sub_0_r, before_prev_at, Hsa, Hu.
    rewrite (call_match_at _ c u _ a Hbnd Hstart Hall). do 2 f_equal. lia. }
  destruct (finditer_from_complete re_call t None 0 0 a _ (conj (Nat.le_0_l _)
              (Nat.lt_le_incl _ _ (Nat.lt_trans _ _ _ Hab Hb))) Hm)
    as [H|(m0 & H0 & Hq)]; [exact H|exfalso].
  destruct (call_match_shape _ _ H0) as (_ & _ & Hchars0 & _).
  destruct a as [|a']; [lia|]. cbn [before] in Hbnd.
  destruct (nth_error t a') as [c'|] eqn:Ec';
    [|apply nth_error_None in Ec'; lia].
  cbn [is_word] in Hbnd.
  assert (Hin : In c' (slice t (m_start m0) (m_end m0)))
    by (apply (slice_nth _ _ _ a'); [lia|assumption]).
  rewrite forallb_forall in Hchars0.
  rewrite (ident_char_word _ (Hchars0 _ Hin)) in Hbnd. discriminate.
Qed.

(** C5, as the code has it. On a line whose passes all run, every position
    of an identifier of ASCII letters, digits and underscores that starts
    at a word boundary and has an opening parenthesis right after it ends
    FUNCTION_CALL unless the comment span covers it; these identifiers are
    the matches of the call pattern, and the call pass overrides KEYWORD
    and BUILTIN for that occurrence only.  [print] in [print(1)] is
    FUNCTION_CALL, a bare [print] is BUILTIN, in [print(print)] only the
    first is FUNCTION_CALL, and the reserved word of [if(x)] is
    FUNCTION_CALL. *)
Theorem function_call_override :
  (forall t st calls a b p,
      highlightBlock t st = Ok (calls, STATE_NONE) ->
      call_site t a b -> a <= p < b ->
      ~ covered_by (length t) calls COMMENT p ->
      formats (length t) calls p = Some FUNCTION_CALL)
  /\ (forall t st calls m p,
      highlightBlock t st = Ok (calls, STATE_NONE) ->
      In m (finditer re_call t) -> within m p ->
      ~ covered_by (length t) calls COMMENT p ->
      formats (length t) calls p = Some FUNCTION_CALL)
  /\ (forall t m,
        In m (finditer re_call t) ->
        m_start m < m_end m
        /\ (exists c, nth_error t (m_start m) = Some c /\ ident_start c = true)
        /\ forallb ident_char (slice t (m_start m) (m_end m)) = true
        /\ nth_error t (m_end m) = Some "(")
  /\ rendered (txt "print(1)") STATE_NONE
     = Ok [Some FUNCTION_CALL; Some FUNCTION_CALL; Some FUNCTION_CALL;
           Some FUNCTION_CALL; Some FUNCTION_CALL; None; Some NUMBER; None]
  /\ rendered (txt "print") STATE_NONE
     = Ok [Some BUILTIN; Some BUILTIN; Some BUILTIN; Some BUILTIN; Some BUILTIN]
  /\ rendered (txt "print(print)") STATE_NONE
     = Ok [Some FUNCTION_CALL; Some FUNCTION_CALL; Some FUNCTION_CALL;
           Some FUNCTION_CALL; Some FUNCTION_CALL; None;
           Some BUILTIN; Some BUILTIN; Some BUILTIN; Some BUILTIN; Some BUILTIN;
           None]
  /\ rendered (txt "if(x)") STATE_NONE
     = Ok [Some FUNCTION_CALL; Some FUNCTION_CALL; None; None; None].
Proof.
  split.
  { intros t st calls a b p Hrun Hsite Hp.
    apply (call_match_format t st calls Hrun p (mkMatch a b []));
      [now apply call_site_found|exact Hp]. }
  split; [intros t st calls m p Hrun; now apply (call_match_format t st)|].
  split; [exact call_match_shape|].
  repeat split; reflexivity.
Qed.

Lemma function_call_override_witness :
  exists calls,
    highlightBlock (txt "len(x) # n") STATE_NONE = Ok (calls, STATE_NONE)
    /\ formats 10 calls 1 = Some FUNCTION_CALL.
Proof.
  exists [setFormat 0 3 BUILTIN; setFormat 0 3 FUNCTION_CALL;
          setFormat 7 3 COMMENT].
  split; [reflexivity|].
  apply (proj1 function_call_override (txt "len(x) # n") STATE_NONE _ 0 3 1).
  - reflexivity.
  - unfold call_site. split; [lia|]. split; [reflexivity|].
    split; [exists "l"; split; reflexivity|]. split; reflexivity.
  - lia.
  - intros (c & Hin & Hf & Hc).
    repeat (destruct Hin as [<-|Hin]; [discriminate|]). destruct Hin.
Defined.

(** C5 as stated fails inside a comment: in [# f(x)] the identifier [f] has
    the parenthesis right after it and ends COMMENT. *)
Lemma call_in_comment_stays_comment :
  let t := txt "# f(x)" in
  In (mkMatch 2 3 []) (finditer re_call t)
  /\ nth_error t 2 = Some "f" /\ nth_error t 3 = Some "("
  /\ rendered t STATE_NONE
     = Ok [Some COMMENT; Some COMMENT; Some COMMENT; Some COMMENT; Some COMMENT;
           Some COMMENT]
  /\ COMMENT <> FUNCTION_CALL.
Proof.
  cbv zeta. split; [now left|].
  repeat split; try reflexivity. discriminate.
Qed.

(** ** Strings and the later passes *)

(** C3, as the code has it. After the passes every position carries one
    format, that of the last call covering it.  The number and word passes
    run over the whole line and do not skip positions inside STRING spans:
    on a line whose passes all run, a position of a number match ends
    NUMBER unless a keyword, builtin, function-call or comment span covers
    it, and a position of a reserved word ends KEYWORD unless a
    function-call or comment span covers it, inside a string literal as
    well; a position keeps STRING when a STRING span covers it and every
    span covering it is a STRING span. *)
Theorem last_pass_wins :
  (forall t st calls st' early c late p,
      highlightBlock t st = Ok (calls, st') ->
      calls = early ++ c :: late ->
      covers (length t) c p = true ->
      (forall c', In c' late -> covers (length t) c' p = false) ->
      formats (length t) calls p = Some (sf_format c))
  /\ (forall t st calls m p,
        highlightBlock t st = Ok (calls, STATE_NONE) ->
        In m (finditer re_number t) -> within m p ->
        ~ covered_by (length t) calls KEYWORD p ->
        ~ covered_by (length t) calls BUILTIN p ->
        ~ covered_by (length t) calls FUNCTION_CALL p ->
        ~ covered_by (length t) calls COMMENT p ->
        formats (length t) calls p = Some NUMBER)
  /\ (forall t st calls m p,
        highlightBlock t st = Ok (calls, STATE_NONE) ->
        In m (finditer re_ident t) ->
        mem (slice t (m_start m) (m_end m)) kw = true -> within m p ->
        ~ covered_by (length t) calls FUNCTION_CALL p ->
        ~ covered_by (length t) calls COMMENT p ->
        formats (length t) calls p = Some KEYWORD)
  /\ (forall t st calls st' p,
        highlightBlock t st = Ok (calls, st') ->
        covered_by (length t) calls STRING p ->
        (forall F, covered_by (length t) calls F p -> F = STRING) ->
        formats (length t) calls p = Some STRING)
  /\ rendered (quoted "a 12 b") STATE_NONE
     = Ok [Some STRING; Some STRING; Some STRING; Some NUMBER; Some NUMBER;
           Some STRING; Some STRING; Some STRING]
  /\ rendered (quoted "if") STATE_NONE
     = Ok [Some STRING; Some KEYWORD; Some KEYWORD; Some STRING].
Proof.
  split; [|split; [|split; [|split; [|split; reflexivity]]]].
  - intros t st calls st' early c late p _ -> Hc Hlate.
    now apply formats_last.
  - intros t st calls m p Hrun. now apply (number_match_format t st).
  - intros t st calls m p Hrun. now apply (keyword_match_format t st).
  - intros t st calls st' p _ (c & Hin & Hf & Hc) Hall.
    change calls with ([] ++ calls). apply formats_app_all.
    + now exists c.
    + intros c' Hin' Hc'. apply Hall. now exists c'.
Qed.

Lemma last_pass_wins_witness :
  exists calls,
    highlightBlock (quoted "a 12 b") STATE_NONE = Ok (calls, STATE_NONE)
    /\ covered_by 8 calls STRING 3
    /\ formats 8 calls 3 = Some NUMBER
    /\ formats 8 calls 1 = Some STRING.
Proof.
  destruct last_pass_wins as (_ & Hnum & _ & Hstr & _).
  exists [setFormat 0 8 STRING; setFormat 3 2 NUMBER].
  split; [reflexivity|]. split; [|split].
  - eexists. split; [now left|]. split; reflexivity.
  - apply (Hnum (quoted "a 12 b") STATE_NONE _ (mkMatch 3 5 []) 3).
    + reflexivity.
    + now left.
    + unfold within; simpl; lia.
    + intros (c & Hin & Hf & Hc).
      repeat (destruct Hin as [<-|Hin]; [discriminate|]). destruct Hin.
    + intros (c & Hin & Hf & Hc).
      repeat (destruct Hin as [<-|Hin]; [discriminate|]). destruct Hin.
    + intros (c & Hin & Hf & Hc).
      repeat (destruct Hin as [<-|Hin]; [discriminate|]). destruct Hin.
    + intros (c & Hin & Hf & Hc).
      repeat (destruct Hin as [<-|Hin]; [discriminate|]). destruct Hin.
  - apply (Hstr (quoted "a 12 b") STATE_NONE _ STATE_NONE 1).
    + reflexivity.
    + eexists. split; [now left|]. split; reflexivity.
    + intros F (c & Hin & Hf & Hc).
      repeat (destruct Hin as [<-|Hin];
              [first [exact (eq_sym Hf)|discriminate]|]).
      destruct Hin.
Defined.

(** C3 as stated fails on a digit inside a string literal: the position
    lies in the STRING span of the literal and ends NUMBER; likewise a
    reserved word inside a literal ends KEYWORD. *)
Lemma digit_in_string_ends_number :
  exists calls,
    highlightBlock (quoted "1") STATE_NONE = Ok (calls, STATE_NONE)
    /\ In (setFormat 0 3 STRING) calls
    /\ covers 3 (setFormat 0 3 STRING) 1 = true
    /\ formats 3 calls 1 = Some NUMBER
    /\ NUMBER <> STRING
    /\ rendered (quoted "if") STATE_NONE
       = Ok [Some STRING; Some KEYWORD; Some KEYWORD; Some STRING].
Proof.
  exists [setFormat 0 3 STRING; setFormat 1 1 NUMBER].
  split; [reflexivity|]. split; [now left|].
  repeat split; try reflexivity. discriminate.
Qed.

(** ** Comments and strings *)

Lemma star_returns {A : Type} (p : ascii -> bool) (s : text) :
  forall prev pos (k : option ascii -> text -> nat -> option A),
    (forall a b c, k a b c <> None) -> star p prev s pos k <> None.
Proof.
  induction s as [|c s IH]; intros prev pos k Hk; simpl; [apply Hk|].
  destruct (p c); [|apply Hk].
  destruct (star p (Some c) s (S pos) k) eqn:E; [discriminate|].
  now apply IH in E.
Qed.

(** The comment pattern matches exactly at a [#]. *)
Lemma comment_match_at (prev : option ascii) (s : text) (pos : nat) :
  match s with
  | c :: _ =>
      if eqc "#" c then exists m, match_at re_comment prev s pos = Some m
      else match_at re_comment prev s pos = None
  | [] => match_at re_comment prev s pos = None
  end.
Proof.
  destruct s as [|c s]; [reflexivity|].
  unfold match_at, re_comment. cbn [run].
  destruct (eqc "#" c); [|reflexivity].
  match goal with |- exists m, ?x = Some m => destruct x as [m|] eqn:E end;
    [now exists m|].
  exfalso. revert E. apply star_returns. discriminate.
Qed.

Lemma search_comment_find (s : text) :
  forall prev pos,
    option_map m_start (search_from re_comment prev s pos)
    = find_from ["#"] s pos.
Proof.
  induction s as [|c s IH]; intros prev pos; [reflexivity|].
  pose proof (comment_match_at prev (c :: s) pos) as H. cbv beta iota in H.
  cbn [search_from find_from].
  cbn [starts_with]. rewrite andb_true_r.
  destruct (eqc "#" c).
  - destruct H as (m & H). rewrite H. cbn [option_map].
    now rewrite (proj1 (match_at_span _ _ _ _ _ H)).
  - rewrite H. apply IH.
Qed.

(** From the start of a line, [comment_start] is the first [#] of the
    line, whatever the string pass makes of it afterwards. *)
Lemma comment_start_first_hash (t : text) :
  comment_start t 0 = find ["#"] t 0.
Proof.
  unfold comment_start, search, find. cbn [Nat.leb skipn before].
  rewrite <- (search_comment_find t None 0).
  destruct (search_from re_comment None t 0); reflexivity.
Qed.

(** C1 at the line of the specification. The comment is sought before the
    string pass, as the first [#] of the line, and painted last: on the
    line of the specification the COMMENT span starts at offset 6, inside
    the string literal that spans offsets 4 to 8, and not at offset 11
    where the trailing comment starts. *)
Theorem comment_starts_inside_string :
  (forall t, comment_start t 0 = find ["#"] t 0)
  /\ nth_error real_comment_line 6 = Some "#"
  /\ nth_error real_comment_line 11 = Some "#"
  /\ comment_start real_comment_line 0 = Some 6
  /\ highlightBlock real_comment_line STATE_NONE
     = Ok ([setFormat 4 5 STRING; setFormat 6 19 COMMENT], STATE_NONE)
  /\ rendered real_comment_line STATE_NONE
     = Ok ([None; None; None; None; Some STRING; Some STRING]
             ++ repeat (Some COMMENT) 19).
Proof. split; [exact comment_start_first_hash|repeat split; reflexivity]. Qed.

(** * Further properties of the editor *)

(** ** Searching: highlights and navigation *)

Lemma highlight_current_line_fields (ed : CodeEditor) :
  document (highlight_current_line ed) = document ed
  /\ textCursor (highlight_current_line ed) = textCursor ed
  /\ _search_text (highlight_current_line ed) = _search_text ed
  /\ _current_search_index (highlight_current_line ed) = _current_search_index ed
  /\ isReadOnly (highlight_current_line ed) = isReadOnly ed.
Proof.
  unfold highlight_current_line. destruct ed as [d c ro sh dh sr ix st ex].
  cbn [isReadOnly]. destruct ro; repeat split.
Qed.

Lemma setTextCursor_fields (ed : CodeEditor) (c : nat * nat) :
  document (setTextCursor ed c) = document ed
  /\ textCursor (setTextCursor ed c) = c
  /\ _search_text (setTextCursor ed c) = _search_text ed
  /\ _current_search_index (setTextCursor ed c) = _current_search_index ed
  /\ isReadOnly (setTextCursor ed c) = isReadOnly ed.
Proof.
  unfold setTextCursor. destruct (snd c =? snd (textCursor ed)); [repeat split|].
  unfold highlight_current_line. destruct ed as [d tc ro sh dh sr ix st ex].
  cbn [isReadOnly]. destruct ro; repeat split.
Qed.

Lemma find_all_diff (fuel : nat) (ed ed' : CodeEditor) (t : text) :
  _find_all_fuel fuel ed t = Ok ed' -> _diff_highlights ed' = _diff_highlights ed.
Proof.
  unfold _find_all_fuel. destruct (negb (truthy t)); [now intros [= <-]|].
  destruct (find_loop fuel _ t 0) as [r| |]; simpl; try discriminate.
  destruct r as [|first r]; intros [= <-].
  - rewrite highlight_current_line_diff. now destruct ed.
  - rewrite (proj2 (setTextCursor_layers _ _)). cbn [with_search _diff_highlights].
    rewrite highlight_current_line_diff. now destruct ed.
Qed.

Lemma occurs_fits (sub d : text) (p : nat) :
  0 < length sub -> occurs sub d p -> p + length sub <= length d.
Proof.
  unfold occurs, slice. intros Hpos H.
  assert (L : length (firstn (p + length sub - p) (skipn p d)) = length sub)
    by now rewrite H.
  rewrite length_firstn, length_skipn in L. lia.
Qed.

Lemma select_result_spec (doc : list text) (c sp : nat * nat) :
  select_result doc c sp
  = if fst sp + snd sp <=? length (toPlainText doc) then (fst sp, fst sp + snd sp)
    else if fst sp <=? length (toPlainText doc) then (fst sp, fst sp)
    else c.
Proof.
  unfold select_result, setPosition.
  destruct (Nat.leb_spec (fst sp + snd sp) (length (toPlainText doc))) as [H|H].
  - destruct (Nat.leb_spec (fst sp) (length (toPlainText doc))); [reflexivity|lia].
  - destruct (Nat.leb_spec (fst sp) (length (toPlainText doc))) as [H'|H'];
      [reflexivity|].
    destruct (Nat.leb_spec (fst sp + snd sp) (length (toPlainText doc)));
      [lia|reflexivity].
Qed.

Lemma result_selection_in_range (doc : list text) (sp : nat * nat) :
  fst sp + snd sp <= length (toPlainText doc) ->
  result_selection doc sp = search_selection sp.
Proof.
  intros H. unfold result_selection, search_selection. rewrite select_result_spec.
  destruct (Nat.leb_spec (fst sp + snd sp) (length (toPlainText doc)));
    [reflexivity|lia].
Qed.

Lemma find_loop_in_range (d t : text) (fuel : nat) :
  t <> [] -> forall pos r, find_loop fuel d t pos = Ok r ->
  Forall (fun e => fst e + snd e <= length d) r.
Proof.
  intros Hne. induction fuel as [|fuel IH]; intros pos r H; [discriminate|].
  simpl in H. destruct (find t d pos) as [p|] eqn:F.
  - destruct (find_loop fuel d t (p + 1)) as [r'| |] eqn:E; try discriminate.
    injection H as <-. constructor; [|exact (IH _ _ E)].
    apply find_some in F as (_ & Hocc & _). cbn [fst snd].
    apply occurs_fits; [|exact Hocc]. destruct t; [congruence|simpl; lia].
  - injection H as <-. constructor.
Qed.

(** What [_find_all] leaves behind, in terms of the results it stores. *)
Lemma find_all_fields (fuel : nat) (ed ed' : CodeEditor) (t : text) :
  t <> [] -> _find_all_fuel fuel ed t = Ok ed' ->
  _search_highlights ed' = map search_selection (_search_results ed')
  /\ _search_text ed' = t
  /\ document ed' = document ed
  /\ match _search_results ed' with
     | [] => _current_search_index ed' = (-1)%Z /\ textCursor ed' = textCursor ed
     | first :: _ =>
         _current_search_index ed' = 0%Z
         /\ textCursor ed' = (fst first, fst first + snd first)
     end.
Proof.
  intros Hne. unfold _find_all_fuel.
  destruct t as [|c t]; [congruence|]. cbn [truthy negb]. cbv zeta.
  replace (document (with_search ed [] (-1)%Z (c :: t))) with (document ed)
    by now destruct ed.
  destruct (find_loop fuel _ (c :: t) 0) as [r| |] eqn:E; cbn [bind];
    try discriminate.
  pose proof (find_loop_in_range _ _ _ Hne _ _ E) as Hin.
  destruct r as [|first r]; intros [= <-].
  - match goal with
    | |- context [highlight_current_line ?e] =>
        destruct (highlight_current_line_fields e) as (Hd & Hc & Ht & Hi & _);
        rewrite (highlight_current_line_search e),
          (highlight_current_line_results e), Hd, Hc, Ht, Hi
    end.
    destruct ed; repeat split.
  - match goal with
    | |- context [setTextCursor ?e ?cur] =>
        destruct (setTextCursor_fields e cur) as (Hd & Hc & Ht & Hi & _);
        rewrite (setTextCursor_results e cur),
          (proj1 (setTextCursor_layers e cur)), Hd, Hc, Ht, Hi
    end.
    cbn [with_search _search_highlights _search_results _search_text
         _current_search_index document].
    rewrite highlight_current_line_search, highlight_current_line_document.
    cbn [with_search_highlights with_search _search_highlights document].
    assert (Hmap : map (result_selection (document ed)) (first :: r)
                   = map search_selection (first :: r)).
    { apply map_ext_in. intros e He. apply result_selection_in_range.
      rewrite Forall_forall in Hin. exact (Hin e He). }
    cbn [map] in Hmap. rewrite Hmap, select_result_spec.
    apply Forall_inv in Hin.
    destruct (Nat.leb_spec (fst first + snd first)
                (length (toPlainText (document ed)))); [|lia].
    repeat split.
Qed.

Lemma occurs_chars (sub d : text) (p : nat) (c : ascii) :
  occurs sub d p -> In c sub -> In c d.
Proof.
  unfold occurs, slice. intros H Hc. rewrite <- H in Hc.
  rewrite <- (firstn_skipn p d). apply in_or_app. right.
  rewrite <- (firstn_skipn (p + length sub - p) (skipn p d)).
  apply in_or_app. now left.
Qed.

Lemma plain_text_no_nbsp (doc : list text) : ~ In "160" (toPlainText doc).
Proof.
  unfold toPlainText. intros H. apply in_map_iff in H as (c & Hc & _).
  unfold plain_char in Hc. destruct (Ascii.eqb_spec c "160"); [discriminate|].
  congruence.
Qed.

(** X1. After a search for a non-empty query the search layer holds one
    highlight per stored result, in order, each from the offset of an
    occurrence of the query to its end, and every occurrence has its
    highlight; the occurrences are those in the plain text of the document
    as [toPlainText] hands it out, in which a no-break space reads as a
    space, so that a query with a no-break space finds nothing and a space
    finds the no-break spaces too.  The text cursor selects the first
    occurrence and the index is 0, or, without occurrence, the layer is
    emptied and the index is -1.  The document and the diff layer are
    untouched, and an empty query leaves the editor as it was. *)
Theorem find_all_highlights_occurrences :
  (forall ed t ed',
      t <> [] -> _find_all ed t = Ok ed' ->
      let d := toPlainText (document ed) in
      _search_highlights ed' = map search_selection (_search_results ed')
      /\ (forall s, In s (_search_highlights ed') ->
            exists p, occurs t d p
                      /\ s = mkSel (Cursor p (p + length t)) (mkColor 255 255 0 180)
                               false)
      /\ (forall p, occurs t d p ->
            In (mkSel (Cursor p (p + length t)) (mkColor 255 255 0 180) false)
               (_search_highlights ed'))
      /\ match _search_results ed' with
         | [] => _current_search_index ed' = (-1)%Z
                 /\ textCursor ed' = textCursor ed
         | first :: _ =>
             _current_search_index ed' = 0%Z
             /\ textCursor ed' = (fst first, fst first + length t)
             /\ occurs t d (fst first)
             /\ forall p, occurs t d p -> fst first <= p
         end
      /\ _search_text ed' = t
      /\ document ed' = document ed
      /\ _diff_highlights ed' = _diff_highlights ed
      /\ length d = length (join_blocks (document ed))
      /\ (forall p c, nth_error d p = Some c ->
            exists c', nth_error (join_blocks (document ed)) p = Some c'
                       /\ c = (if Ascii.eqb c' "160" then " " else c'))
      /\ (In "160" t -> _search_results ed' = [] /\ _search_highlights ed' = []))
  /\ (forall ed, _find_all ed [] = Ok ed)
  /\ (exists ed', _find_all (new_editor nbsp_doc) [" "] = Ok ed'
                  /\ _search_results ed' = [(1, 1)])
  /\ (exists ed', _find_all (new_editor nbsp_doc) ["160"] = Ok ed'
                  /\ _search_results ed' = []).
Proof.
  split; [|split; [reflexivity|split; eexists; split; reflexivity]].
  intros ed t ed' Hne Hrun d. unfold _find_all in Hrun.
  destruct (find_all_fields _ _ _ _ Hne Hrun) as (Hh & Ht & Hd & Hc).
  pose proof (find_all_results _ _ _ _ Hne Hrun) as Hres. fold d in Hres.
  destruct (find_loop_spec d t Hne (length d + 2) 0) as (r & Hr & Hsort & Hin & Hlen);
    [lia|].
  rewrite Hr in Hres. injection Hres as Hres.
  assert (Hsel : forall e, In e r ->
            search_selection e
            = mkSel (Cursor (fst e) (fst e + length t)) (mkColor 255 255 0 180) false).
  { intros e He. rewrite Forall_forall in Hlen. unfold search_selection.
    now rewrite (Hlen e He). }
  split; [exact Hh|].
  split; [|split; [|split; [|split; [exact Ht|split; [exact Hd|split;
    [exact (find_all_diff _ _ _ _ Hrun)|split; [|split]]]]]]].
  - intros s Hs. rewrite Hh, <- Hres in Hs. apply in_map_iff in Hs as (e & <- & He).
    exists (fst e). split; [|now apply Hsel].
    apply Hin. now apply in_map.
  - intros p Hp. rewrite Hh, <- Hres.
    assert (Hp' : In p (map fst r)) by (apply Hin; split; [lia|assumption]).
    apply in_map_iff in Hp' as (e & <- & He).
    rewrite <- (Hsel e He). now apply in_map.
  - rewrite <- Hres in *. destruct r as [|first r]; [exact Hc|].
    destruct Hc as [Hi Hcur]. rewrite Forall_forall in Hlen.
    rewrite (Hlen first (or_introl eq_refl)) in Hcur.
    split; [exact Hi|]. split; [exact Hcur|]. split.
    + apply Hin. now left.
    + intros p Hp.
      assert (Hp' : In p (map fst (first :: r))) by (apply Hin; split; [lia|assumption]).
      destruct Hp' as [<-|Hp']; [lia|].
      cbn [map] in Hsort. apply StronglySorted_inv in Hsort as [_ Hall].
      rewrite Forall_forall in Hall. specialize (Hall p Hp'). lia.
  - unfold d, toPlainText. apply length_map.
  - intros p c Hp. unfold d, toPlainText in Hp. rewrite nth_error_map in Hp.
    destruct (nth_error (join_blocks (document ed)) p) as [c'|]; [|discriminate].
    injection Hp as <-. now exists c'.
  - intros Hnb. rewrite Hh, <- Hres.
    destruct r as [|first r]; [now split|]. exfalso.
    apply (plain_text_no_nbsp (document ed)). fold d.
    apply (occurs_chars t d (fst first)); [|exact Hnb].
    apply Hin. now left.
Qed.

Lemma find_all_highlights_occurrences_witness :
  exists ed',
    _find_all (new_editor [txt "aaa"]) (txt "aa") = Ok ed'
    /\ _search_highlights ed' = map search_selection (_search_results ed')
    /\ _search_text ed' = txt "aa".
Proof.
  assert (Hne : txt "aa" <> []) by (vm_compute; discriminate).
  exists searched_aaa.
  assert (Hrun : _find_all (new_editor [txt "aaa"]) (txt "aa") = Ok searched_aaa)
    by reflexivity.
  destruct (proj1 find_all_highlights_occurrences _ _ _ Hne Hrun)
    as (Hh & _ & _ & _ & Ht & _).
  split; [exact Hrun|]. split; [exact Hh|exact Ht].
Defined.

Lemma py_index_in_range {A : Type} (l : list A) (i : Z) :
  (0 <= i < Z.of_nat (length l))%Z ->
  exists x, py_index l i = Ok x /\ nth_error l (Z.to_nat i) = Some x.
Proof.
  intros Hi. unfold py_index.
  assert (H0 : (i <? 0)%Z = false) by (apply Z.ltb_ge; lia).
  assert (H1 : ((0 <=? i) && (i <? Z.of_nat (length l)))%Z = true).
  { apply andb_true_iff. split; [apply Z.leb_le|apply Z.ltb_lt]; lia. }
  rewrite H0, H1.
  destruct (nth_error l (Z.to_nat i)) as [x|] eqn:E; [now exists x|].
  apply nth_error_None in E. lia.
Qed.

Lemma find_again_step (ed : CodeEditor) (forward : bool) (selected : text) :
  _search_results ed <> [] ->
  let n := Z.of_nat (length (_search_results ed)) in
  let index := ((_current_search_index ed + (if forward then 1 else -1)) mod n)%Z in
  exists r,
    nth_error (_search_results ed) (Z.to_nat index) = Some r
    /\ _find_again ed forward selected
       = Ok (setTextCursor
               (with_search ed (_search_results ed) index (_search_text ed))
               (select_result (document ed) (textCursor ed) r)).
Proof.
  intros Hne n index. unfold _find_again.
  destruct (_search_results ed) as [|e l] eqn:E; [congruence|].
  cbv zeta. cbn [with_search _search_results _current_search_index document
                 textCursor].
  assert (Hn : (0 < n)%Z) by (unfold n; simpl; lia).
  assert (Hidx : (if forward
                  then ((_current_search_index ed + 1) mod Z.of_nat (length (e :: l)))%Z
                  else ((_current_search_index ed - 1) mod Z.of_nat (length (e :: l)))%Z)
                 = index).
  { unfold index, n. destruct forward; [reflexivity|].
    now replace (_current_search_index ed + -1)%Z
      with (_current_search_index ed - 1)%Z by lia. }
  rewrite Hidx.
  destruct (py_index_in_range (e :: l) index) as (r & Hr & Hnth).
  { unfold index. apply Z.mod_pos_bound. exact Hn. }
  exists r. split; [exact Hnth|]. now rewrite Hr.
Qed.

(** Where the two [setPosition] of a jump leave the cursor [c]. *)
Lemma select_result_cases (doc : list text) (c r : nat * nat) :
  let len := length (toPlainText doc) in
  (fst r + snd r <= len -> select_result doc c r = (fst r, fst r + snd r))
  /\ (fst r <= len < fst r + snd r -> select_result doc c r = (fst r, fst r))
  /\ (len < fst r -> select_result doc c r = c).
Proof.
  intros len. rewrite select_result_spec. fold len.
  destruct (Nat.leb_spec (fst r + snd r) len);
    destruct (Nat.leb_spec (fst r) len); repeat split; intros; lia || reflexivity.
Qed.

(** X2. With stored results, find-next and find-previous never fail: the
    index moves by one modulo the number of results, so it stays a valid
    index and wraps at both ends; results, document and both layers are
    kept.  The text cursor is set by two [setPosition]: it selects the
    result at the new index when that result ends within the document; a
    stored result that ends beyond the document, as one that has outlived
    an edit can, leaves the cursor collapsed at the start of the result, or
    where it was when the start is beyond the document too.  From a valid
    index, next followed by previous, and previous followed by next, come
    back to it.  The results a search has just stored all end within the
    document. *)
Theorem find_again_wraps_around :
  (forall ed forward selected,
    _search_results ed <> [] ->
    let n := Z.of_nat (length (_search_results ed)) in
    let len := length (toPlainText (document ed)) in
    exists ed' r,
      _find_again ed forward selected = Ok ed'
      /\ _current_search_index ed'
         = ((_current_search_index ed + (if forward then 1 else -1)) mod n)%Z
      /\ (0 <= _current_search_index ed' < n)%Z
      /\ nth_error (_search_results ed) (Z.to_nat (_current_search_index ed'))
         = Some r
      /\ (fst r + snd r <= len -> textCursor ed' = (fst r, fst r + snd r))
      /\ (fst r <= len < fst r + snd r -> textCursor ed' = (fst r, fst r))
      /\ (len < fst r -> textCursor ed' = textCursor ed)
      /\ document ed' = document ed
      /\ _search_results ed' = _search_results ed
      /\ _search_highlights ed' = _search_highlights ed
      /\ _diff_highlights ed' = _diff_highlights ed
      /\ ((0 <= _current_search_index ed < n)%Z ->
          exists back r',
            _find_again ed' (negb forward) selected = Ok back
            /\ _current_search_index back = _current_search_index ed
            /\ nth_error (_search_results ed)
                 (Z.to_nat (_current_search_index ed)) = Some r'
            /\ (fst r' + snd r' <= len ->
                textCursor back = (fst r', fst r' + snd r'))
            /\ (fst r' <= len < fst r' + snd r' ->
                textCursor back = (fst r', fst r'))
            /\ (len < fst r' -> textCursor back = textCursor ed')))
  /\ (forall ed t ed',
        t <> [] -> _find_all ed t = Ok ed' ->
        Forall (fun r => fst r + snd r <= length (toPlainText (document ed')))
          (_search_results ed')).
Proof.
  split.
  2:{ intros ed t ed' Hne Hrun. unfold _find_all in Hrun.
      destruct (find_all_fields _ _ _ _ Hne Hrun) as (_ & _ & Hd & _).
      pose proof (find_all_results _ _ _ _ Hne Hrun) as Hres.
      rewrite Hd. exact (find_loop_in_range _ _ _ Hne _ _ Hres). }
  intros ed forward selected Hne n len.
  destruct (find_again_step ed forward selected Hne) as (r & Hnth & Hrun).
  fold n in Hnth, Hrun.
  set (index := ((_current_search_index ed + (if forward then 1 else -1)) mod n)%Z)
    in *.
  set (ed1 := with_search ed (_search_results ed) index (_search_text ed)) in *.
  set (cur := select_result (document ed) (textCursor ed) r) in *.
  assert (Hn : (0 < n)%Z).
  { unfold n. destruct (_search_results ed); [congruence|simpl; lia]. }
  destruct (setTextCursor_fields ed1 cur) as (Hdoc & Hcur & _ & Hidx & _).
  destruct (setTextCursor_layers ed1 cur) as (Hsh & Hdh).
  pose proof (setTextCursor_results ed1 cur) as Hres.
  assert (Hres1 : _search_results ed1 = _search_results ed) by reflexivity.
  assert (Hdoc1 : document ed1 = document ed) by reflexivity.
  destruct (select_result_cases (document ed) (textCursor ed) r) as (Ca & Cb & Cc).
  fold len cur in Ca, Cb, Cc.
  exists (setTextCursor ed1 cur), r.
  split; [exact Hrun|]. rewrite Hidx, Hcur, Hres, Hsh, Hdh, Hdoc.
  split; [reflexivity|]. split; [apply Z.mod_pos_bound; exact Hn|].
  split; [exact Hnth|]. split; [exact Ca|]. split; [exact Cb|]. split; [exact Cc|].
  split; [reflexivity|]. split; [reflexivity|].
  split; [now destruct ed|]. split; [now destruct ed|].
  intros Hin.
  set (ed2 := setTextCursor ed1 cur) in *.
  assert (Hne2 : _search_results ed2 <> []) by (rewrite Hres, Hres1; exact Hne).
  destruct (find_again_step ed2 (negb forward) selected Hne2) as (r' & Hnth' & Hrun').
  rewrite Hres, Hres1 in Hnth', Hrun'. rewrite Hdoc, Hdoc1, Hcur in Hrun'.
  fold n in Hnth', Hrun'.
  assert (Hback : ((_current_search_index ed2
                    + (if negb forward then 1 else -1)) mod n)%Z
                  = _current_search_index ed).
  { rewrite Hidx. change (_current_search_index ed1) with index. unfold index.
    rewrite Zplus_mod_idemp_l.
    replace (_current_search_index ed + (if forward then 1 else -1)
             + (if negb forward then 1 else -1))%Z
      with (_current_search_index ed) by (destruct forward; simpl; lia).
    apply Z.mod_small. exact Hin. }
  rewrite Hback in Hnth', Hrun'.
  eexists _, r'. split; [exact Hrun'|].
  destruct (setTextCursor_fields
              (with_search ed2 (_search_results ed) (_current_search_index ed)
                 (_search_text ed2)) (select_result (document ed) cur r'))
    as (_ & Hcur' & _ & Hidx' & _).
  rewrite Hidx', Hcur'. split; [reflexivity|]. split; [exact Hnth'|].
  exact (select_result_cases (document ed) cur r').
Qed.

Lemma find_again_wraps_around_witness :
  (exists ed' back,
    _find_again searched_aaa true [] = Ok ed'
    /\ _current_search_index ed' = 1%Z /\ textCursor ed' = (1, 3)
    /\ _find_again ed' false [] = Ok back
    /\ _current_search_index back = 0%Z /\ textCursor back = (0, 2))
  /\ (exists ed',
        _find_again edited_aa true [] = Ok ed'
        /\ _current_search_index ed' = 1%Z /\ textCursor ed' = (1, 1)).
Proof.
  split.
  - assert (Hne : _search_results searched_aaa <> []) by (vm_compute; discriminate).
    destruct (proj1 find_again_wraps_around searched_aaa true [] Hne)
      as (ed' & r & Hrun & Hidx & _ & Hnth & Hcur & _ & _ & _ & _ & _ & _ & Hback).
    assert (Hin : (0 <= _current_search_index searched_aaa
                   < Z.of_nat (length (_search_results searched_aaa)))%Z)
      by (vm_compute; split; [discriminate|reflexivity]).
    destruct (Hback Hin) as (back & r' & Hrun' & Hidx' & Hnth' & Hcur' & _).
    exists ed', back.
    rewrite Hidx in Hnth. vm_compute in Hnth. injection Hnth as <-.
    vm_compute in Hnth'. injection Hnth' as <-.
    split; [exact Hrun|]. split; [exact Hidx|].
    split; [apply Hcur; vm_compute; lia|].
    split; [exact Hrun'|]. split; [exact Hidx'|apply Hcur'; vm_compute; lia].
  - assert (Hne : _search_results edited_aa <> []) by (vm_compute; discriminate).
    destruct (proj1 find_again_wraps_around edited_aa true [] Hne)
      as (ed' & r & Hrun & Hidx & _ & Hnth & _ & Hcur & _).
    exists ed'.
    rewrite Hidx in Hnth. vm_compute in Hnth. injection Hnth as <-.
    split; [exact Hrun|]. split; [exact Hidx|]. apply Hcur. vm_compute. lia.
Defined.

(** ** Clearing every highlight *)

Lemma clear_pane_cleared (w : widget) : cleared w (clear_diff (clear_search w)).
Proof.
  destruct w as [| |ed]; cbn [cleared clear_search clear_diff]; try reflexivity.
  eexists. split; [reflexivity|].
  unfold clear_search_highlight, highlight_current_line, current_line_selection.
  destruct ed as [d c ro sh dh sr ix st ex]; cbn; destruct ro; cbn; repeat split.
Qed.

(** X3. Clearing all highlights treats each pane by itself, whatever the
    other pane holds: of an editor it empties the search layer and the diff
    layer, so that the extra selections are the current line alone (nothing
    in a read-only editor), and keeps the document, the text cursor, the
    stored search results and the search index, so find-next still walks
    the old results; a widget that is no editor, or an empty pane, is left
    as it is.  Doing it twice is doing it once. *)
Theorem clear_all_highlights_empties_layers :
  forall left right,
    cleared left (fst (clear_all_highlights left right))
    /\ cleared right (snd (clear_all_highlights left right))
    /\ clear_all_highlights (fst (clear_all_highlights left right))
         (snd (clear_all_highlights left right))
       = clear_all_highlights left right.
Proof.
  intros left right. unfold clear_all_highlights, clear_both. cbn [fst snd].
  split; [apply clear_pane_cleared|]. split; [apply clear_pane_cleared|].
  f_equal; [destruct left as [| |ed]|destruct right as [| |ed]];
    try reflexivity;
    destruct ed as [d c ro sh dh sr ix st ex]; destruct ro; reflexivity.
Qed.

Lemma clear_all_highlights_empties_layers_witness :
  snd (clear_all_highlights (Editor searched_aaa) NoWidget) = NoWidget
  /\ exists l',
       fst (clear_all_highlights (Editor searched_aaa) NoWidget) = Editor l'
       /\ _search_highlights l' = []
       /\ _search_results l' = [(0, 2); (1, 2)].
Proof.
  destruct (clear_all_highlights_empties_layers (Editor searched_aaa) NoWidget)
    as (Hl & Hr & _).
  split; [exact Hr|].
  destruct Hl as (l' & Hrun & Hs & _ & _ & _ & _ & _ & Hres & _).
  exists l'. split; [exact Hrun|]. split; [exact Hs|exact Hres].
Defined.

(** ** The comparison, run both ways and run again *)

Lemma differ_sym (l r : list text) (i : nat) : differ l r i = differ r l i.
Proof.
  unfold differ. f_equal.
  destruct (text_eqb (rstrip (line l i)) (rstrip (line r i))) eqn:E.
  - apply text_eqb_eq in E. symmetry. apply text_eqb_eq. congruence.
  - destruct (text_eqb (rstrip (line r i)) (rstrip (line l i))) eqn:E';
      [|reflexivity].
    apply text_eqb_eq in E'. symmetry in E'. apply text_eqb_eq in E'. congruence.
Qed.

Lemma selected_sym (l r d : list text) (i : nat) :
  selected l r d i = selected r l d i.
Proof. unfold selected. now rewrite differ_sym. Qed.

Lemma existsb_same {A : Type} (f g : A -> bool) (l : list A) :
  (forall x, f x = g x) -> existsb f l = existsb g l.
Proof. intros H. induction l as [|x l IH]; simpl; [reflexivity|]. now rewrite H, IH. Qed.

(** X4. The comparison does not depend on which pane is which: swapping
    the two editors swaps the two diff layers and returns the same
    [changed]. *)
Theorem compare_is_symmetric :
  forall left right,
    snd (highlight left right) = snd (highlight right left)
    /\ left_marks left right = right_marks right left
    /\ right_marks left right = left_marks right left.
Proof.
  intros left right.
  destruct (highlight_marks left right) as (HL & HR & HC).
  destruct (highlight_marks right left) as (HL' & HR' & HC').
  assert (Hm : max_blocks right left = max_blocks left right)
    by (unfold max_blocks; apply Nat.max_comm).
  rewrite HL, HR, HC, HL', HR', HC', Hm.
  split; [|split].
  - apply existsb_same. intros i. apply differ_sym.
  - f_equal. apply filter_ext. intros i. apply selected_sym.
  - f_equal. apply filter_ext. intros i. apply selected_sym.
Qed.

Lemma recompose_after_diff (ed : CodeEditor) (a b : list ExtraSelection) :
  highlight_current_line
    (with_diff_highlights (highlight_current_line (with_diff_highlights ed a)) b)
  = highlight_current_line (with_diff_highlights ed b).
Proof.
  unfold highlight_current_line.
  destruct ed as [d c ro sh dh sr ix st ex]; cbn. destruct ro; reflexivity.
Qed.

Lemma highlight_unfold (left right : CodeEditor) :
  highlight left right
  = (let s := diff_loop (document left) (document right) in
     if fst (fst s)
     then (highlight_current_line (with_diff_highlights left (snd (fst s))),
           highlight_current_line (with_diff_highlights right (snd s)), true)
     else (highlight_current_line (with_diff_highlights left []),
           highlight_current_line (with_diff_highlights right []), false)).
Proof.
  unfold highlight. rewrite !highlight_current_line_document.
  replace (document (with_diff_highlights left [])) with (document left)
    by now destruct left.
  replace (document (with_diff_highlights right [])) with (document right)
    by now destruct right.
  cbv zeta. destruct (diff_loop (document left) (document right)) as [[c ls] rs].
  cbn [fst snd]. destruct c; [|reflexivity].
  now rewrite !recompose_after_diff.
Qed.

(** X5. Running the comparison again on its own result changes nothing:
    the editors and [changed] come out the same, since each run first
    clears the previous diff layer.  The comparison never touches the
    documents, the text cursors or the search layers. *)
Theorem compare_again_is_stable :
  forall left right,
    let h := highlight left right in
    highlight (fst (fst h)) (snd (fst h)) = h
    /\ document (fst (fst h)) = document left
    /\ document (snd (fst h)) = document right
    /\ textCursor (fst (fst h)) = textCursor left
    /\ textCursor (snd (fst h)) = textCursor right
    /\ _search_highlights (fst (fst h)) = _search_highlights left
    /\ _search_highlights (snd (fst h)) = _search_highlights right.
Proof.
  intros left right h. unfold h. rewrite (highlight_unfold left right).
  cbv zeta. destruct (diff_loop (document left) (document right)) as [[c ls] rs] eqn:E.
  cbn [fst snd].
  assert (Hdoc : forall ed a,
             document (highlight_current_line (with_diff_highlights ed a))
             = document ed).
  { intros ed a. rewrite highlight_current_line_document. now destruct ed. }
  assert (Hcur : forall ed a,
             textCursor (highlight_current_line (with_diff_highlights ed a))
             = textCursor ed).
  { intros ed a.
    rewrite (proj1 (proj2 (highlight_current_line_fields _))). now destruct ed. }
  assert (Hsh : forall ed a,
             _search_highlights (highlight_current_line (with_diff_highlights ed a))
             = _search_highlights ed).
  { intros ed a. rewrite highlight_current_line_search. now destruct ed. }
  destruct c; cbn [fst snd]; rewrite highlight_unfold, !Hdoc, E; cbn [fst snd];
    rewrite !recompose_after_diff, !Hcur, !Hsh; repeat split.
Qed.

Lemma filter_seq_sorted (f : nat -> bool) (k : nat) :
  forall a, StronglySorted lt (filter f (seq a k)).
Proof.
  induction k as [|k IH]; intros a; simpl; [constructor|].
  assert (Hall : Forall (lt a) (filter f (seq (S a) k))).
  { apply Forall_forall. intros x Hx. apply filter_In in Hx as [Hx _].
    apply in_seq in Hx. lia. }
  destruct (f a); [constructor; [apply IH|exact Hall]|apply IH].
Qed.

(** X6. Each diff layer lists whole-line selections of lines of its own
    document, in strictly increasing order of line number, so no line
    twice; every listed line is non-blank and differs from the line of the
    same number on the other side. *)
Theorem diff_layer_in_document_order :
  forall left right,
    exists ls rs,
      left_marks left right = map line_selection ls
      /\ right_marks left right = map line_selection rs
      /\ StronglySorted lt ls /\ StronglySorted lt rs
      /\ Forall (fun k => k < blockCount (document left)
                          /\ rstrip (line (document left) k) <> []
                          /\ rstrip (line (document left) k)
                             <> rstrip (line (document right) k)) ls
      /\ Forall (fun k => k < blockCount (document right)
                          /\ rstrip (line (document right) k) <> []
                          /\ rstrip (line (document left) k)
                             <> rstrip (line (document right) k)) rs
      /\ length (left_marks left right) <= blockCount (document left)
      /\ length (right_marks left right) <= blockCount (document right).
Proof.
  intros left right.
  destruct (highlight_marks left right) as (HL & HR & _).
  set (l := document left) in *. set (r := document right) in *.
  set (m := max_blocks left right) in *.
  assert (Hsorted : forall f, StronglySorted lt (filter f (seq 0 m)))
    by (intros f; apply filter_seq_sorted).
  assert (Hsel : forall d k, In k (filter (selected l r d) (seq 0 m)) ->
                   k < blockCount d /\ rstrip (line d k) <> []
                   /\ rstrip (line l k) <> rstrip (line r k)).
  { intros d k Hk. apply filter_In in Hk as [_ Hk]. unfold selected in Hk.
    apply andb_true_iff in Hk as [Hd Hk]. apply andb_true_iff in Hk as [Ht Hv].
    split; [apply Nat.ltb_lt; exact Hv|]. split; [|now apply differ_neq].
    intros E. rewrite E in Ht. discriminate. }
  assert (Hlen : forall d, length (filter (selected l r d) (seq 0 m))
                           <= blockCount d).
  { intros d.
    assert (Hincl : incl (filter (selected l r d) (seq 0 m)) (seq 0 (blockCount d))).
    { intros k Hk. apply in_seq. destruct (Hsel d k Hk). lia. }
    apply NoDup_incl_length in Hincl; [now rewrite length_seq in Hincl|].
    apply NoDup_filter, seq_NoDup. }
  exists (filter (selected l r l) (seq 0 m)), (filter (selected l r r) (seq 0 m)).
  split; [exact HL|]. split; [exact HR|].
  split; [apply Hsorted|]. split; [apply Hsorted|].
  split; [apply Forall_forall; intros k Hk; exact (Hsel l k Hk)|].
  split; [apply Forall_forall; intros k Hk; exact (Hsel r k Hk)|].
  rewrite HL, HR, !length_map. split; apply Hlen.
Qed.

(** ** The string pass: where literals start and end *)

(** A match of the string pattern: an optional [f] or [F], then a triple
    delimiter, or else one quote. *)
Lemma pat_match_shape (prev : option ascii) (s : text) (pos : nat) (m : Match) :
  match_at pat prev s pos = Some m ->
  m_start m = pos
  /\ exists k,
       k <= 1
       /\ group "p" (m_caps m) = Some (pos, pos + k)
       /\ ((group "ts" (m_caps m) = Some (pos + k, pos + k + 3)
            /\ m_end m = pos + k + 3
            /\ (firstn 3 (skipn k s) = triple_s \/ firstn 3 (skipn k s) = triple_d))
           \/ (group "ts" (m_caps m) = None /\ m_end m = pos + k + 1)).
Proof.
  unfold match_at, pat, triple_s, triple_d. cbn [run Opt Lit].
  destruct s as [|c0 [|c1 [|c2 [|c3 s]]]]; cbn [run];
    repeat match goal with
      | |- context [if ?b then _ else _] => destruct b eqn:?
      end;
    try discriminate; intros [= <-]; (split; [reflexivity|]);
    unfold eqc in *;
    repeat match goal with
      | H : Ascii.eqb _ _ = true |- _ => apply Ascii.eqb_eq in H; subst
      end.
  all: cbn [m_caps m_end]; unfold dq in *.
  all: try (exfalso; congruence).
  all: try (exfalso;
            match goal with
            | H : one_of _ _ = _ |- _ => vm_compute in H; discriminate
            end).
  all: first
      [ exists 0; split; [lia|];
        split; [cbn; repeat f_equal; lia|];
        first [ left; split; [cbn; repeat f_equal; lia|]; split; [lia|];
                first [left; reflexivity|right; reflexivity]
              | right; split; [reflexivity|lia] ]
      | exists 1; split; [lia|];
        split; [cbn; repeat f_equal; lia|];
        first [ left; split; [cbn; repeat f_equal; lia|]; split; [lia|];
                first [left; reflexivity|right; reflexivity]
              | right; split; [reflexivity|lia] ] ].
Qed.

(** ** The tokenizer: spans, states and comments *)

Lemma slice_length (t : text) (a b : nat) :
  b <= length t -> length (slice t a b) = b - a.
Proof.
  intros H. unfold slice. rewrite length_firstn, length_skipn. lia.
Qed.

(** A match of the string pattern found from [idx] on, read on the line. *)
Lemma search_pat_shape (t : text) (idx : nat) (m : Match) :
  search pat t idx = Some m ->
  idx <= m_start m /\ m_end m <= length t
  /\ exists k,
       k <= 1
       /\ group "p" (m_caps m) = Some (m_start m, m_start m + k)
       /\ ((group "ts" (m_caps m) = Some (m_start m + k, m_start m + k + 3)
            /\ m_end m = m_start m + k + 3
            /\ (slice t (m_start m + k) (m_start m + k + 3) = triple_s
                \/ slice t (m_start m + k) (m_start m + k + 3) = triple_d))
           \/ (group "ts" (m_caps m) = None /\ m_end m = m_start m + k + 1)).
Proof.
  intros S. pose proof (search_span _ _ _ _ S) as Hsp.
  unfold search in S. destruct (idx <=? length t); [|discriminate].
  apply search_from_match in S as (prev' & S).
  rewrite skipn_skipn in S.
  replace (m_start m - idx + idx) with (m_start m) in S by lia.
  apply pat_match_shape in S as (_ & k & Hk & Hp & Hts).
  split; [lia|]. split; [lia|]. exists k. split; [exact Hk|]. split; [exact Hp|].
  destruct Hts as [(Hg & He & Hq)|Hs]; [left|now right].
  split; [exact Hg|]. split; [exact He|].
  unfold slice. replace (m_start m + k + 3 - (m_start m + k)) with 3 by lia.
  rewrite skipn_skipn in Hq. now rewrite (Nat.add_comm (m_start m) k).
Qed.

Lemma quote_loop_le (t : text) (q : ascii) (fuel : nat) :
  forall j esc j', quote_loop fuel t q j esc = Ok j' ->
                   j' <= Nat.max j (length t).
Proof.
  induction fuel as [|fuel IH]; intros j esc j'; [discriminate|]. simpl.
  destruct (j <? length t) eqn:E; [|intros [= <-]; lia].
  apply Nat.ltb_lt in E.
  destruct (nth_error t j) as [ch|]; [|discriminate].
  destruct esc; [intros H; apply IH in H; lia|].
  destruct (eqc ch backslash); [intros H; apply IH in H; lia|].
  destruct (eqc ch q); [intros [= <-]; lia|intros H; apply IH in H; lia].
Qed.

Lemma f_braces_enumerate (start : nat) (l : text) :
  forall a,
    flat_map
      (fun ich : nat * ascii =>
         if one_of ["{"; "}"] (snd ich)
         then [setFormat (start + fst ich) 1 (fmt c_regex false false)]
         else [])
      (combine (seq a (length l)) l)
    = map (fun p => setFormat p 1 INTERPOLATION_MARKER)
        (filter (fun p => brace_at l (p - (start + a)))
           (seq (start + a) (length l))).
Proof.
  induction l as [|c l IH]; intros a; [reflexivity|].
  cbn [length seq combine flat_map filter fst snd].
  unfold brace_at at 1. rewrite Nat.sub_diag. cbn [nth_error].
  rewrite IH.
  assert (Hext : filter (fun p => brace_at (c :: l) (p - (start + a)))
                   (seq (S (start + a)) (length l))
                 = filter (fun p => brace_at l (p - (start + S a)))
                     (seq (start + S a) (length l))).
  { rewrite Nat.add_succ_r. apply filter_ext_in. intros p Hp.
    apply in_seq in Hp. unfold brace_at.
    replace (p - (start + a)) with (S (p - S (start + a))) by lia.
    reflexivity. }
  rewrite Hext. now destruct (one_of ["{"; "}"] c).
Qed.

Lemma f_braces_positions (t : text) (start end_ : nat) :
  _f_braces t start end_
  = map (fun p => setFormat p 1 INTERPOLATION_MARKER) (brace_positions t start end_).
Proof.
  unfold _f_braces, enumerate, brace_positions.
  rewrite (f_braces_enumerate start (slice t start end_) 0).
  assert (Hlen : length (slice t start end_) = Nat.min end_ (length t) - start).
  { unfold slice. rewrite length_firstn, length_skipn. lia. }
  rewrite Hlen, Nat.add_0_r. f_equal.
  apply filter_ext_in. intros p Hp. apply in_seq in Hp.
  unfold brace_at, slice. rewrite nth_error_firstn.
  destruct (Nat.ltb_spec (p - start) (end_ - start)); [|lia].
  rewrite nth_error_skipn. now replace (start + (p - start)) with p by lia.
Qed.

Lemma seq_sorted (n : nat) : forall a, StronglySorted lt (seq a n).
Proof.
  induction n as [|n IH]; intros a; simpl; constructor; [apply IH|].
  apply Forall_forall. intros p Hp. apply in_seq in Hp. lia.
Qed.

Lemma filter_sorted (f : nat -> bool) (l : list nat) :
  StronglySorted lt l -> StronglySorted lt (filter f l).
Proof.
  induction 1 as [|a l Hs IH Ha]; simpl; [constructor|].
  destruct (f a); [|exact IH]. constructor; [exact IH|].
  rewrite Forall_forall in *. intros p Hp. apply filter_In in Hp as [Hp _].
  now apply Ha.
Qed.

Lemma brace_at_spec (t : text) (p : nat) :
  brace_at t p = true
  <-> exists ch, nth_error t p = Some ch /\ (ch = "{" \/ ch = "}").
Proof.
  unfold brace_at. destruct (nth_error t p) as [ch|].
  - unfold one_of, eqc. cbn [existsb]. rewrite orb_false_r, orb_true_iff.
    rewrite !Ascii.eqb_eq. split.
    + intros H. exists ch. split; [reflexivity|exact H].
    + intros (ch' & [= <-] & H). exact H.
  - split; [discriminate|]. intros (ch & H & _). discriminate.
Qed.

Lemma brace_positions_spec (t : text) (start end_ p : nat) :
  In p (brace_positions t start end_)
  <-> start <= p < end_
      /\ exists ch, nth_error t p = Some ch /\ (ch = "{" \/ ch = "}").
Proof.
  unfold brace_positions. rewrite filter_In, in_seq, brace_at_spec. split.
  - intros [Hp Hb]. split; [lia|exact Hb].
  - intros [Hp Hb]. split; [|exact Hb].
    destruct Hb as (ch & Hn & _).
    assert (p < length t) by (apply nth_error_Some; congruence). lia.
Qed.

Lemma f_braces_in (t : text) (start end_ : nat) (c : call) :
  In c (_f_braces t start end_)
  <-> exists p, (start <= p < end_
                 /\ exists ch, nth_error t p = Some ch /\ (ch = "{" \/ ch = "}"))
                /\ c = setFormat p 1 INTERPOLATION_MARKER.
Proof.
  rewrite f_braces_positions, in_map_iff. split.
  - intros (p & <- & Hp). exists p. split; [|reflexivity].
    now apply brace_positions_spec.
  - intros (p & Hp & ->). exists p. split; [reflexivity|].
    now apply brace_positions_spec.
Qed.

(** X9. [_f_braces] makes exactly one call for each brace of the span and
    no other: its calls are, in increasing order of offset and without
    repetition, one INTERPOLATION_MARKER call of one character at every
    offset from [start] to [end - 1] at which the line holds [{] or [}];
    offsets beyond the line hold nothing. *)
Theorem f_braces_marks_the_braces :
  forall t start end_,
    _f_braces t start end_
    = map (fun p => setFormat p 1 INTERPOLATION_MARKER)
        (brace_positions t start end_)
    /\ StronglySorted lt (brace_positions t start end_)
    /\ StronglySorted lt (map sf_start (_f_braces t start end_))
    /\ NoDup (_f_braces t start end_)
    /\ (forall p,
          In p (brace_positions t start end_)
          <-> start <= p < end_
              /\ exists ch, nth_error t p = Some ch /\ (ch = "{" \/ ch = "}")).
Proof.
  intros t start end_.
  assert (Hs : StronglySorted lt (brace_positions t start end_))
    by apply filter_sorted, seq_sorted.
  assert (Hm : map sf_start (_f_braces t start end_) = brace_positions t start end_).
  { rewrite f_braces_positions, map_map. cbn [sf_start]. apply map_id. }
  split; [apply f_braces_positions|]. split; [exact Hs|].
  split; [now rewrite Hm|]. split; [|apply brace_positions_spec].
  apply (NoDup_map_inv sf_start). rewrite Hm.
  clear Hm. induction Hs as [|a l Hs IH Ha]; constructor; [|exact IH].
  intros Hin. rewrite Forall_forall in Ha. specialize (Ha a Hin). lia.
Qed.

Lemma f_braces_in_line (t : text) (start end_ n : nat) :
  end_ <= n -> Forall (in_line n) (_f_braces t start end_).
Proof.
  intros H. apply Forall_forall. intros c Hc.
  apply f_braces_in in Hc as (p & (Hp & _) & ->).
  unfold in_line. cbn. lia.
Qed.

Lemma f_braces_format (t : text) (start end_ : nat) :
  Forall (fun c => sf_format c = INTERPOLATION_MARKER) (_f_braces t start end_).
Proof.
  apply Forall_forall. intros c Hc.
  now apply f_braces_in in Hc as (p & _ & ->).
Qed.

(** What the string pass does, whatever the fuel: its calls lie in the
    line and are STRING or INTERPOLATION_MARKER, and the state it sets is
    that of a triple delimiter occurring on the line. *)
Lemma string_loop_inv (t : text) (gas fuel : nat) :
  forall idx cs o,
    string_loop gas fuel t idx = Ok (cs, o) ->
    Forall (in_line (length t)) cs
    /\ Forall (fun c => sf_format c = STRING \/ sf_format c = INTERPOLATION_MARKER) cs
    /\ match o with
       | None => True
       | Some st =>
           (st = STATE_TRIPLE_S /\ exists k, idx <= k /\ occurs triple_s t k)
           \/ (st = STATE_TRIPLE_D /\ exists k, idx <= k /\ occurs triple_d t k)
       end.
Proof.
  induction fuel as [|fuel IH]; intros idx cs o; [discriminate|]. simpl.
  destruct (idx <? length t) eqn:Eidx;
    [|intros [= <- <-]; repeat split; constructor].
  destruct (search pat t idx) as [m|] eqn:S;
    [|intros [= <- <-]; repeat split; constructor].
  destruct (search_pat_shape _ _ _ S) as (Hidx & Hend & k & Hk & Hp & Hts).
  assert (Hprefix : length (group_text "p" m t) = k).
  { unfold group_text. rewrite Hp, slice_length by lia. lia. }
  assert (Hbr : forall e, e <= length t ->
            Forall (in_line (length t))
              (if lower_is_f (group_text "p" m t) then _f_braces t (m_start m) e
               else [])
            /\ Forall (fun c => sf_format c = STRING
                                \/ sf_format c = INTERPOLATION_MARKER)
                 (if lower_is_f (group_text "p" m t) then _f_braces t (m_start m) e
                  else [])).
  { intros e He. destruct (lower_is_f _); [|split; constructor].
    split; [now apply f_braces_in_line|].
    eapply Forall_impl; [|apply f_braces_format]. intros c Hc. now right. }
  destruct Hts as [(Hg & He & Hq)|(Hg & He)]; rewrite Hg.
  - assert (Hlen : length (slice t (m_start m + k) (m_start m + k + 3)) = 3)
      by (destruct Hq as [-> | ->]; reflexivity).
    destruct (find _ t (m_start m + 3)) as [e|] eqn:F.
    + apply find_some in F as (Hle & Hocc & _).
      assert (Hfit : e + 3 <= length t).
      { rewrite <- Hlen. apply occurs_fits; [rewrite Hlen; lia|exact Hocc]. }
      destruct (string_loop gas fuel t (e + 3)) as [[cs' o']| |] eqn:E;
        try discriminate.
      cbn [bind fst snd]. intros [= <- <-].
      destruct (IH _ _ _ E) as (H1 & H2 & H3).
      destruct (Hbr (e + 3) Hfit) as (B1 & B2).
      split; [|split].
      * constructor; [unfold in_line; cbn; lia|].
        apply Forall_app. now split.
      * constructor; [now left|]. apply Forall_app. now split.
      * destruct o' as [st|]; [|exact I].
        destruct H3 as [(-> & k' & Hk' & Ho)|(-> & k' & Hk' & Ho)];
          [left|right]; (split; [reflexivity|]); exists k'; (split; [lia|exact Ho]).
    + intros [= <- <-]. split; [|split].
      * constructor; [unfold in_line; cbn; lia|constructor].
      * constructor; [now left|constructor].
      * assert (Hocc : forall q, slice t (m_start m + k) (m_start m + k + 3) = q ->
                  occurs q t (m_start m + k)).
        { intros q <-. unfold occurs. rewrite Hlen. reflexivity. }
        destruct Hq as [Hq|Hq]; rewrite Hq.
        -- left. split; [reflexivity|]. exists (m_start m + k).
           split; [lia|now apply Hocc].
        -- right. split; [reflexivity|]. exists (m_start m + k).
           split; [lia|now apply Hocc].
  - rewrite Hprefix.
    destruct (quote_loop gas t _ (m_start m + 1 + k) false) as [j| |] eqn:Q;
      try discriminate.
    cbn [bind]. pose proof (quote_loop_ge _ _ _ _ _ _ Q) as Hge.
    pose proof (quote_loop_le _ _ _ _ _ _ Q) as Hle.
    destruct (string_loop gas fuel t j) as [[cs' o']| |] eqn:E; try discriminate.
    cbn [bind fst snd]. intros [= <- <-].
    destruct (IH _ _ _ E) as (H1 & H2 & H3).
    assert (Hj : j <= length t) by lia.
    destruct (Hbr j Hj) as (B1 & B2).
    split; [|split].
    + constructor; [unfold in_line; cbn; lia|]. apply Forall_app. now split.
    + constructor; [now left|]. apply Forall_app. now split.
    + destruct o' as [st|]; [|exact I].
      destruct H3 as [(-> & k' & Hk' & Ho)|(-> & k' & Hk' & Ho)];
        [left|right]; (split; [reflexivity|]); exists k'; (split; [lia|exact Ho]).
Qed.
(** ** Every call lies in the line *)

Lemma span_call_in_line (F : QTextCharFormat) (r : re) (t : text) (m : Match) :
  In m (finditer r t) -> in_line (length t) (span_call F m).
Proof.
  intros H. apply finditer_span in H. unfold in_line, span_call. cbn. lia.
Qed.

Lemma comment_start_bounds (t : text) (i cs : nat) :
  i <= length t -> comment_start t i = Some cs -> i <= cs <= length t.
Proof.
  unfold comment_start. intros Hi.
  destruct (search re_comment (skipn i t) 0) as [cm|] eqn:S; [|discriminate].
  intros [= <-]. apply search_span in S. rewrite length_skipn in S. lia.
Qed.

Lemma late_calls_in_line (t : text) (i : nat) :
  i <= length t ->
  Forall (in_line (length t))
    (number_calls t ++ word_calls t ++ func_calls t ++ comment_calls t i).
Proof.
  intros Hi. repeat (apply Forall_app; split); apply Forall_forall; intros c Hc.
  - apply in_map_iff in Hc as (m & <- & Hm). now apply (span_call_in_line _ re_number).
  - apply word_calls_in in Hc as (m & Hm & [[_ ->]|[_ ->]]);
      now apply (span_call_in_line _ re_ident).
  - apply in_map_iff in Hc as (m & <- & Hm). now apply (span_call_in_line _ re_call).
  - unfold comment_calls in Hc.
    destruct (comment_start t i) as [cs|] eqn:E; [|destruct Hc].
    destruct Hc as [<-|[]]. apply comment_start_bounds in E; [|exact Hi].
    unfold in_line. cbn. lia.
Qed.

Lemma deco_calls_in_line (t : text) : Forall (in_line (length t)) (deco_calls t).
Proof.
  apply Forall_forall. intros c Hc.
  apply in_map_iff in Hc as (m & <- & Hm). now apply (span_call_in_line _ re_deco).
Qed.

(** The calls of the passes, split at the end of the string pass. *)
Lemma passes_structure (fuel : nat) (t : text) (i : nat) (pre calls : list call)
    (st : Z) :
  passes fuel t i pre = Ok (calls, st) ->
  exists strs,
    Forall (in_line (length t)) strs
    /\ Forall (fun c => sf_format c = STRING \/ sf_format c = INTERPOLATION_MARKER)
         strs
    /\ ((st = STATE_NONE
         /\ calls = (pre ++ deco_calls t ++ strs)
                    ++ number_calls t ++ word_calls t ++ func_calls t
                    ++ comment_calls t i)
        \/ (calls = pre ++ deco_calls t ++ strs
            /\ ((st = STATE_TRIPLE_S /\ exists k, i <= k /\ occurs triple_s t k)
                \/ (st = STATE_TRIPLE_D
                    /\ exists k, i <= k /\ occurs triple_d t k)))).
Proof.
  unfold passes.
  destruct (string_loop fuel fuel t i) as [[cs o]| |] eqn:E; try discriminate.
  cbn [bind fst snd]. destruct (string_loop_inv _ _ _ _ _ _ E) as (H1 & H2 & H3).
  intros Hrun. exists cs. split; [exact H1|]. split; [exact H2|].
  destruct o as [st0|]; injection Hrun as <- <-.
  - right. split; [reflexivity|exact H3].
  - left. split; [reflexivity|]. now rewrite <- !app_assoc.
Qed.

(** X7. Every [setFormat] call of [highlightBlock] lies inside the line:
    its start plus its count never exceeds the length of the text, so
    nothing is clipped. *)
Theorem calls_stay_in_line :
  forall t st calls st',
    highlightBlock t st = Ok (calls, st') ->
    Forall (in_line (length t)) calls.
Proof.
  intros t st calls st'. unfold highlightBlock, highlightBlock_fuel.
  assert (Hp : forall i pre,
             i <= length t -> Forall (in_line (length t)) pre ->
             passes (S (length t)) t i pre = Ok (calls, st') ->
             Forall (in_line (length t)) calls).
  { intros i pre Hi Hpre H.
    apply passes_structure in H as (strs & H1 & _ & [(_ & ->)|(-> & _)]).
    - apply Forall_app. split; [|now apply late_calls_in_line].
      repeat (apply Forall_app; split); auto using deco_calls_in_line.
    - repeat (apply Forall_app; split); auto using deco_calls_in_line. }
  destruct ((_ =? STATE_TRIPLE_S)%Z || _) eqn:B.
  - destruct (find _ t 0) as [e|] eqn:F.
    + apply find_some in F as (_ & Hocc & _).
      assert (Hlen : length (endq (if (st =? -1)%Z then STATE_NONE else st)) = 3)
        by (unfold endq; destruct (_ =? STATE_TRIPLE_S)%Z; reflexivity).
      apply occurs_fits in Hocc; [|lia]. rewrite Hlen in Hocc.
      apply Hp; [exact Hocc|]. constructor; [unfold in_line; cbn; lia|constructor].
    + intros [= <- _]. constructor; [unfold in_line; cbn; lia|constructor].
  - apply Hp; [lia|constructor].
Qed.

Lemma calls_stay_in_line_witness :
  Forall (in_line (length sample_line))
    [setFormat 4 6 STRING; setFormat 6 1 INTERPOLATION_MARKER;
     setFormat 8 1 INTERPOLATION_MARKER; setFormat 15 4 NUMBER;
     setFormat 23 2 KEYWORD; setFormat 13 1 FUNCTION_CALL;
     setFormat 21 4 COMMENT].
Proof.
  apply (calls_stay_in_line sample_line STATE_NONE _ STATE_NONE). reflexivity.
Defined.

(** ** The block state *)

Lemma entry_state_other (t : text) (st : Z) :
  st <> STATE_TRIPLE_S -> st <> STATE_TRIPLE_D ->
  highlightBlock t st = highlightBlock t STATE_NONE.
Proof.
  intros HS HD. unfold highlightBlock, highlightBlock_fuel.
  cbn [Z.eqb STATE_NONE orb].
  destruct (st =? -1)%Z; [reflexivity|].
  assert (E1 : (st =? STATE_TRIPLE_S)%Z = false) by now apply Z.eqb_neq.
  assert (E2 : (st =? STATE_TRIPLE_D)%Z = false) by now apply Z.eqb_neq.
  now rewrite E1, E2.
Qed.

(** X8. Outside a triple-quoted string the previous block state plays no
    part: every value other than the two triple states, the unset state -1
    among them, is read as [STATE_NONE].  The line then leaves a triple
    state only where the matching triple delimiter occurs on it: without
    three single quotes in a row it never leaves [STATE_TRIPLE_S], without
    three double quotes never [STATE_TRIPLE_D], and a line with neither,
    an unterminated one-quote literal included, leaves [STATE_NONE]. *)
Theorem triple_state_needs_delimiter :
  forall t st calls st',
    st <> STATE_TRIPLE_S -> st <> STATE_TRIPLE_D ->
    highlightBlock t st = Ok (calls, st') ->
    highlightBlock t STATE_NONE = Ok (calls, st')
    /\ (st' = STATE_TRIPLE_S -> exists k, occurs triple_s t k)
    /\ (st' = STATE_TRIPLE_D -> exists k, occurs triple_d t k)
    /\ ((forall k, ~ occurs triple_s t k) -> (forall k, ~ occurs triple_d t k) ->
        st' = STATE_NONE).
Proof.
  intros t st calls st' HS HD Hrun.
  rewrite (entry_state_other t st HS HD) in Hrun. split; [exact Hrun|].
  unfold highlightBlock, highlightBlock_fuel in Hrun.
  cbn [Z.eqb STATE_NONE STATE_TRIPLE_S STATE_TRIPLE_D orb] in Hrun.
  apply passes_structure in Hrun
    as (strs & _ & _ & [(-> & _)|(_ & [(-> & k & _ & Hk)|(-> & k & _ & Hk)])]).
  - split; [discriminate|]. split; [discriminate|reflexivity].
  - split; [intros _; now exists k|]. split; [discriminate|].
    intros Hs _. destruct (Hs k Hk).
  - split; [discriminate|]. split; [intros _; now exists k|].
    intros _ Hd. destruct (Hd k Hk).
Qed.

Lemma triple_state_needs_delimiter_witness :
  highlightBlock (dq :: txt "abc") 7%Z
  = Ok ([setFormat 0 4 STRING], STATE_NONE)
  /\ highlightBlock (dq :: txt "abc") STATE_NONE
     = Ok ([setFormat 0 4 STRING], STATE_NONE).
Proof.
  assert (H7 : 7%Z <> STATE_TRIPLE_S) by discriminate.
  assert (H7' : 7%Z <> STATE_TRIPLE_D) by discriminate.
  assert (Hrun : highlightBlock (dq :: txt "abc") 7%Z
                 = Ok ([setFormat 0 4 STRING], STATE_NONE)) by reflexivity.
  split; [exact Hrun|].
  exact (proj1 (triple_state_needs_delimiter _ _ _ _ H7 H7' Hrun)).
Defined.

(** ** Where the comment is painted *)

Lemma formats_from_some (n p : nat) (F : QTextCharFormat) (cs : list call) :
  forall f, fold_left (apply_call n) cs f p = Some F ->
            (exists c, In c cs /\ sf_format c = F /\ covers n c p = true)
            \/ f p = Some F.
Proof.
  induction cs as [|c cs IH]; intros f H; [now right|]. simpl in H.
  apply IH in H as [(c' & Hin & HF & Hc)|H].
  - left. exists c'. split; [now right|]. now split.
  - unfold apply_call in H. destruct (covers n c p) eqn:Hc; [|now right].
    injection H as <-. left. exists c. split; [now left|]. now split.
Qed.

Lemma formats_some_in (n p : nat) (F : QTextCharFormat) (cs : list call) :
  formats n cs p = Some F ->
  exists c, In c cs /\ sf_format c = F /\ covers n c p = true.
Proof.
  intros H. apply formats_from_some in H as [H|H]; [exact H|discriminate].
Qed.

Lemma deco_calls_format (t : text) (c : call) :
  In c (deco_calls t) -> sf_format c = DECORATOR.
Proof. unfold deco_calls. rewrite in_map_iff. now intros (m & <- & _). Qed.

(** X10. On a line entered outside a triple-quoted string whose passes all
    run, a position ends COMMENT exactly when it lies at or after the first
    [#] of the line; a line without [#] has no COMMENT position. *)
Theorem comment_from_first_hash :
  forall t st calls p,
    st <> STATE_TRIPLE_S -> st <> STATE_TRIPLE_D ->
    highlightBlock t st = Ok (calls, STATE_NONE) ->
    (formats (length t) calls p = Some COMMENT
     <-> exists h, find ["#"] t 0 = Some h /\ h <= p < length t).
Proof.
  intros t st calls p HS HD Hrun.
  rewrite (entry_state_other t st HS HD) in Hrun.
  unfold highlightBlock, highlightBlock_fuel in Hrun.
  cbn [Z.eqb STATE_NONE STATE_TRIPLE_S STATE_TRIPLE_D orb] in Hrun.
  apply passes_structure in Hrun
    as (strs & _ & Hstr & [(_ & ->)|(_ & [(E & _)|(E & _)])]);
    try discriminate.
  cbn [app]. rewrite <- comment_start_first_hash.
  set (early := (deco_calls t ++ strs) ++ number_calls t ++ word_calls t
                  ++ func_calls t).
  replace ((deco_calls t ++ strs) ++ number_calls t ++ word_calls t
             ++ func_calls t ++ comment_calls t 0)
    with (early ++ comment_calls t 0)
    by (unfold early; now rewrite <- !app_assoc).
  assert (Hearly : forall c, In c early -> sf_format c <> COMMENT).
  { intros c Hc. unfold early in Hc.
    apply in_app_or in Hc as [Hc|Hc]; [apply in_app_or in Hc as [Hc|Hc]|].
    - rewrite (deco_calls_format _ _ Hc). discriminate.
    - rewrite Forall_forall in Hstr.
      destruct (Hstr c Hc) as [-> | ->]; discriminate.
    - apply in_app_or in Hc as [Hc|Hc]; [|apply in_app_or in Hc as [Hc|Hc]].
      + rewrite (number_calls_format _ _ Hc). discriminate.
      + destruct (word_calls_format _ _ Hc) as [-> | ->]; discriminate.
      + rewrite (func_calls_format _ _ Hc). discriminate. }
  assert (Hnot : formats (length t) early p <> Some COMMENT).
  { intros H. apply formats_some_in in H as (c & Hin & HF & _).
    exact (Hearly c Hin HF). }
  unfold comment_calls.
  destruct (comment_start t 0) as [h|] eqn:E.
  - pose proof (comment_start_bounds t 0 h (Nat.le_0_l _) E) as Hh.
    destruct (covers (length t) (setFormat h (length t - h) COMMENT) p) eqn:C.
    + split.
      * intros _. exists h. split; [reflexivity|].
        unfold covers in C. cbn [sf_start sf_count] in C.
        apply andb_true_iff in C as [C1 C2].
        apply Nat.leb_le in C1. apply Nat.ltb_lt in C2. lia.
      * intros _. apply formats_app_all.
        -- eexists. split; [now left|exact C].
        -- intros c [<-|[]] _. reflexivity.
    + rewrite formats_app_none by (intros c [<-|[]]; exact C).
      split; [intros H; destruct (Hnot H)|].
      intros (h' & [= <-] & Hp). exfalso.
      unfold covers in C. cbn [sf_start sf_count] in C.
      apply andb_false_iff in C as [C|C];
        [apply Nat.leb_gt in C|apply Nat.ltb_ge in C]; lia.
  - rewrite app_nil_r. split; [intros H; destruct (Hnot H)|].
    intros (h & [=] & _).
Qed.

Lemma comment_from_first_hash_witness :
  formats (length sample_line)
    [setFormat 4 6 STRING; setFormat 6 1 INTERPOLATION_MARKER;
     setFormat 8 1 INTERPOLATION_MARKER; setFormat 15 4 NUMBER;
     setFormat 23 2 KEYWORD; setFormat 13 1 FUNCTION_CALL;
     setFormat 21 4 COMMENT] 23 = Some COMMENT.
Proof.
  assert (HS : STATE_NONE <> STATE_TRIPLE_S) by discriminate.
  assert (HD : STATE_NONE <> STATE_TRIPLE_D) by discriminate.
  apply (proj2 (comment_from_first_hash sample_line STATE_NONE _ 23 HS HD
                  eq_refl)).
  exists 21. split; [reflexivity|]. vm_compute. split; lia.
Defined.

(** ** One-quote literals *)

Lemma find_char_step (t : text) (q ch : ascii) (j : nat) :
  nth_error t j = Some ch ->
  find [q] t j = if eqc q ch then Some j else find [q] t (S j).
Proof.
  intros Hn. assert (Hj : j < length t) by (apply nth_error_Some; congruence).
  unfold find.
  assert (E1 : (j <=? length t) = true) by (apply Nat.leb_le; lia).
  assert (E2 : (S j <=? length t) = true) by (apply Nat.leb_le; lia).
  rewrite E1, E2, (nth_error_skipn_cons _ _ _ Hn).
  cbn [find_from starts_with]. rewrite andb_true_r. reflexivity.
Qed.

(** A backslash makes the scan pass over the character that follows it,
    whatever it is, so an escaped quote does not close the literal. *)
Lemma quote_scan_skips_escaped (t : text) (q : ascii) (j fuel : nat) :
  nth_error t j = Some backslash -> S j < length t ->
  quote_loop (S (S fuel)) t q j false = quote_loop fuel t q (S (S j)) false.
Proof.
  intros Hn Hj. cbn [quote_loop].
  assert (E1 : (j <? length t) = true) by (apply Nat.ltb_lt; lia).
  assert (E2 : (S j <? length t) = true) by (apply Nat.ltb_lt; lia).
  rewrite E1, Hn, E2.
  assert (Hb : eqc backslash backslash = true) by reflexivity.
  rewrite Hb.
  destruct (nth_error t (S j)) as [ch|] eqn:N; [reflexivity|].
  apply nth_error_None in N. lia.
Qed.

(** X11. On a line without backslash from [j] on, the scan of a one-quote
    literal started at [j] stops right after the next quote of its kind, or
    at the end of the line when there is none. *)
Theorem quote_scan_closes_at_next_quote :
  forall t q j fuel,
    j <= length t -> length t - j < fuel ->
    (forall k, j <= k -> nth_error t k <> Some backslash) ->
    quote_loop fuel t q j false
    = Ok (match find [q] t j with Some e => S e | None => length t end).
Proof.
  intros t q j fuel. revert j.
  induction fuel as [|fuel IH]; intros j Hj Hfuel Hno; [lia|].
  cbn [quote_loop]. destruct (j <? length t) eqn:E.
  - apply Nat.ltb_lt in E.
    destruct (nth_error t j) as [ch|] eqn:N; [|apply nth_error_None in N; lia].
    rewrite (find_char_step _ q _ _ N).
    assert (Hb : eqc ch backslash = false).
    { destruct (eqc ch backslash) eqn:B; [|reflexivity].
      apply Ascii.eqb_eq in B. subst ch. destruct (Hno j (Nat.le_refl _) N). }
    rewrite Hb. unfold eqc. rewrite (Ascii.eqb_sym q ch).
    destruct (Ascii.eqb ch q); [reflexivity|].
    apply IH; [lia|lia|]. intros k Hk. apply Hno. lia.
  - apply Nat.ltb_ge in E. assert (j = length t) by lia. subst j.
    unfold find. rewrite Nat.leb_refl, skipn_all. reflexivity.
Qed.

Lemma quote_scan_closes_at_next_quote_witness :
  quote_loop 9 (txt "'ab' + 'c") "'" 1 false = Ok 4.
Proof.
  rewrite (quote_scan_closes_at_next_quote (txt "'ab' + 'c") "'" 1 9);
    [reflexivity| | |].
  - vm_compute. lia.
  - vm_compute. lia.
  - intros k Hk.
    do 9 (destruct k as [|k]; [try lia; discriminate|]).
    destruct k; discriminate.
Defined.

(** ** Cleaning a text *)

Lemma replace_single (a : N) (new s : ustr) :
  str_replace [a] new s = flat_map (fun c => if (a =? c)%N then new else [c]) s.
Proof.
  unfold str_replace. induction s as [|c rest IH]; [reflexivity|].
  cbn [replace_from has_prefix flat_map length Nat.sub]. rewrite andb_true_r.
  destruct (a =? c)%N; rewrite IH; reflexivity.
Qed.

Lemma replace_absent (a : N) (old new s : ustr) :
  ~ In a s -> str_replace (a :: old) new s = s.
Proof.
  unfold str_replace. induction s as [|c rest IH]; intros H; [reflexivity|].
  cbn [replace_from has_prefix].
  destruct (N.eqb_spec a c) as [->|Hne]; [destruct H; now left|].
  cbn [andb]. rewrite IH; [reflexivity|]. intros Hin. apply H. now right.
Qed.

Lemma replace_crlf_pair (rest : ustr) :
  str_replace [13; 10]%N [10]%N (13 :: 10 :: rest)%N
  = (10 :: str_replace [13; 10] [10] rest)%N.
Proof. reflexivity. Qed.

Lemma replace_crlf_other (c : N) (rest : ustr) :
  c <> 13%N \/ (forall rest', rest <> 10%N :: rest') ->
  str_replace [13; 10]%N [10]%N (c :: rest)
  = c :: str_replace [13; 10]%N [10]%N rest.
Proof.
  intros H. unfold str_replace. cbn [replace_from has_prefix].
  destruct (N.eqb_spec 13 c) as [<-|Hne]; [|reflexivity].
  destruct H as [H|H]; [now destruct H|].
  destruct rest as [|d rest']; [reflexivity|].
  destruct (N.eqb_spec 10 d) as [<-|Hd]; [now destruct (H rest')|reflexivity].
Qed.

(** The two cases of the replacement of CR LF, as an induction principle. *)
Lemma replace_crlf_ind (P : ustr -> ustr -> Prop) :
  P [] [] ->
  (forall rest out, P rest out -> P (13 :: 10 :: rest)%N (10%N :: out)) ->
  (forall c rest out,
      c <> 13%N \/ (forall rest', rest <> 10%N :: rest') ->
      P rest out -> P (c :: rest) (c :: out)) ->
  forall s, P s (str_replace [13; 10]%N [10]%N s).
Proof.
  intros Hnil Hpair Hother s.
  assert (H : forall n s, length s <= n -> P s (str_replace [13; 10]%N [10]%N s)).
  { clear s. induction n as [|n IH]; intros s Hs.
    - destruct s; [exact Hnil|simpl in Hs; lia].
    - destruct s as [|c rest]; [exact Hnil|]. simpl in Hs.
      destruct (N.eq_dec c 13) as [->|Hc].
      + destruct rest as [|d rest'].
        * rewrite replace_crlf_other by (right; intros r'; discriminate).
          apply Hother; [right; intros r'; discriminate|exact Hnil].
        * destruct (N.eq_dec d 10) as [->|Hd].
          -- rewrite replace_crlf_pair. apply Hpair, IH. simpl in Hs. lia.
          -- rewrite replace_crlf_other by (right; intros r'; congruence).
             apply Hother; [right; intros r'; congruence|apply IH; simpl in *; lia].
      + rewrite replace_crlf_other by now left.
        apply Hother; [now left|apply IH; lia]. }
  now apply (H (length s)).
Qed.

Lemma replace_crlf_filter (f : N -> bool) (s : ustr) :
  f 13%N = false ->
  filter f (str_replace [13; 10]%N [10]%N s) = filter f s.
Proof.
  intros H13. apply (replace_crlf_ind (fun s out => filter f out = filter f s)).
  - reflexivity.
  - intros rest out IH. cbn [filter]. now rewrite H13, IH.
  - intros c rest out _ IH. cbn [filter]. now rewrite IH.
Qed.

Lemma replace_crlf_length (s : ustr) :
  length (str_replace [13; 10]%N [10]%N s) <= length s.
Proof.
  apply (replace_crlf_ind (fun s out => length out <= length s)); simpl; intros; lia.
Qed.

Lemma filter_flat_map {A : Type} (p : A -> bool) (l : list A) :
  filter p l = flat_map (fun x => if p x then [x] else []) l.
Proof.
  induction l as [|x l IH]; [reflexivity|].
  cbn [filter flat_map]. rewrite IH. now destruct (p x).
Qed.

Lemma norm_char_steps (c : N) :
  flat_map (fun x => if negb (control x) then [x] else [])
    (flat_map (fun x => if (0 =? x)%N then [] else [x])
       (flat_map (fun x => if (0xa0 =? x)%N then [32%N] else [x])
          (flat_map (fun x => if (0x200d =? x)%N then [] else [x])
             (flat_map (fun x => if (0x200c =? x)%N then [] else [x])
                (flat_map (fun x => if (0xfeff =? x)%N then [] else [x])
                   (flat_map (fun x => if (0x200b =? x)%N then [] else [x])
                      (if (13 =? c)%N then [10%N] else [c])))))))
  = norm_char c.
Proof.
  unfold norm_char, artifact.
  rewrite !(N.eqb_sym c).
  destruct (N.eqb_spec 13 c) as [<-|H1]; [reflexivity|].
  destruct (N.eqb_spec 0x200b c) as [<-|H2]; [reflexivity|].
  destruct (N.eqb_spec 0xfeff c) as [<-|H3]; [reflexivity|].
  destruct (N.eqb_spec 0x200c c) as [<-|H4]; [reflexivity|].
  destruct (N.eqb_spec 0x200d c) as [<-|H5]; [reflexivity|].
  destruct (N.eqb_spec 0xa0 c) as [<-|H6]; [reflexivity|].
  destruct (N.eqb_spec 0 c) as [<-|H7]; [reflexivity|].
  apply N.eqb_neq in H1, H2, H3, H4, H5, H6, H7.
  repeat (cbn [flat_map app orb]; rewrite ?H1, ?H2, ?H3, ?H4, ?H5, ?H6, ?H7).
  now destruct (control c).
Qed.

(** [_normalize_line_endings] in one pass over the text with its CR LF
    pairs replaced. *)
Lemma normalize_closed (t : ustr) :
  _normalize_line_endings t
  = flat_map norm_char (str_replace [13; 10]%N [10]%N t).
Proof.
  unfold _normalize_line_endings, re_sub_control. cbv zeta.
  rewrite !replace_single, filter_flat_map.
  induction (str_replace [13; 10]%N [10]%N t) as [|c s IH]; [reflexivity|].
  cbn [flat_map]. rewrite !flat_map_app, IH. f_equal. apply norm_char_steps.
Qed.

Lemma norm_char_clean (c : N) : artifact c = false -> norm_char c = [c].
Proof.
  intros H. unfold norm_char. rewrite H. unfold artifact in H.
  destruct (c =? 13)%N; [cbn in H; discriminate|].
  destruct (c =? 0xa0)%N; [|reflexivity].
  rewrite orb_true_r in H. cbn in H. discriminate.
Qed.

Lemma norm_char_out (c : N) : Forall (fun x => artifact x = false) (norm_char c).
Proof.
  unfold norm_char.
  destruct (c =? 13)%N; [repeat constructor|].
  destruct (c =? 0xa0)%N; [repeat constructor|].
  destruct (artifact c) eqn:E; repeat constructor. exact E.
Qed.

Lemma norm_char_length (c : N) : length (norm_char c) <= 1.
Proof.
  unfold norm_char.
  destruct (c =? 13)%N; [simpl; lia|].
  destruct (c =? 0xa0)%N; [simpl; lia|].
  destruct (artifact c); simpl; lia.
Qed.

Lemma norm_char_visible (c : N) :
  filter visible (norm_char c) = filter visible [c].
Proof.
  unfold norm_char.
  destruct (N.eqb_spec c 13) as [->|H1]; [reflexivity|].
  destruct (N.eqb_spec c 0xa0) as [->|H2]; [reflexivity|].
  destruct (artifact c) eqn:E; [|reflexivity].
  cbn [filter]. unfold visible. now rewrite E.
Qed.

Lemma artifact_free_no_cr (t : ustr) :
  Forall (fun c => artifact c = false) t -> ~ In 13%N t.
Proof.
  intros H Hin. rewrite Forall_forall in H. apply H in Hin. discriminate.
Qed.

Lemma normalize_fixed (t : ustr) :
  Forall (fun c => artifact c = false) t -> _normalize_line_endings t = t.
Proof.
  intros H. rewrite normalize_closed.
  rewrite replace_absent by now apply artifact_free_no_cr.
  induction H as [|c t Hc _ IH]; [reflexivity|].
  cbn [flat_map]. now rewrite IH, (norm_char_clean c Hc).
Qed.

Lemma normalize_out (t : ustr) :
  Forall (fun c => artifact c = false) (_normalize_line_endings t).
Proof.
  rewrite normalize_closed.
  induction (str_replace [13; 10]%N [10]%N t) as [|c s IH]; [constructor|].
  cbn [flat_map]. apply Forall_app. split; [apply norm_char_out|exact IH].
Qed.

(** X12. The text [_normalize_line_endings] returns holds no carriage
    return, NUL, zero-width character, no-break space or control character
    of the class; a text without any of them is returned as it is, and only
    such a text, so normalising twice is normalising once.  The result is
    never longer than the text, and the characters that are neither removed
    nor newline nor space come out as they went in, in the same order. *)
Theorem normalize_line_endings_cleans :
  forall t,
    Forall (fun c => artifact c = false) (_normalize_line_endings t)
    /\ (_normalize_line_endings t = t <-> Forall (fun c => artifact c = false) t)
    /\ _normalize_line_endings (_normalize_line_endings t)
       = _normalize_line_endings t
    /\ length (_normalize_line_endings t) <= length t
    /\ filter visible (_normalize_line_endings t) = filter visible t.
Proof.
  intros t. split; [apply normalize_out|]. split; [|split; [|split]].
  - split; [|apply normalize_fixed].
    intros E. rewrite <- E. apply normalize_out.
  - apply normalize_fixed, normalize_out.
  - rewrite normalize_closed.
    apply Nat.le_trans with (length (str_replace [13; 10]%N [10]%N t));
      [|apply replace_crlf_length].
    induction (str_replace [13; 10]%N [10]%N t) as [|c s IH]; [simpl; lia|].
    cbn [flat_map]. rewrite length_app. pose proof (norm_char_length c).
    simpl. lia.
  - rewrite normalize_closed.
    rewrite <- (replace_crlf_filter visible t) by reflexivity.
    induction (str_replace [13; 10]%N [10]%N t) as [|c s IH]; [reflexivity|].
    cbn [flat_map]. rewrite filter_app, IH, norm_char_visible.
    cbn [filter]. now destruct (visible c).
Qed.

Lemma filter_fixed {A : Type} (p : A -> bool) (l : list A) :
  filter p l = l <-> Forall (fun x => p x = true) l.
Proof.
  split.
  - intros E. apply Forall_forall. intros x Hx. rewrite <- E in Hx.
    now apply filter_In in Hx.
  - intros H. induction H as [|x l Hx _ IH]; [reflexivity|].
    cbn [filter]. now rewrite Hx, IH.
Qed.

Lemma kept_no_cr (t : ustr) : ~ In 13%N (filter kept t).
Proof. intros H. apply filter_In in H as [_ H]. discriminate. Qed.

Lemma clean_is_filter (t : ustr) : _clean_text_aggressive t = filter kept t.
Proof.
  unfold _clean_text_aggressive. cbv zeta.
  rewrite (replace_absent 13 [10%N] [10%N] (filter kept t)) by apply kept_no_cr.
  now rewrite replace_absent by apply kept_no_cr.
Qed.

Lemma clean_kept (c : N) : artifact c = false -> kept c = true.
Proof.
  unfold artifact, control, kept. intros H.
  rewrite !orb_false_iff, !andb_false_iff, !N.eqb_neq, !N.leb_gt in H.
  rewrite !orb_true_iff, andb_true_iff, !N.eqb_eq, !N.leb_le. lia.
Qed.

(** X13. [_clean_text_aggressive] keeps, in order, exactly the characters
    that are newline, tab, printable ASCII or at or above code 128, the
    zero-width characters among them; its two replacements of line endings
    never fire, so a carriage return is deleted and not turned into a
    newline.  It returns the text unchanged exactly when every character is
    one it keeps, cleaning twice is cleaning once, and a text that went
    through [_normalize_line_endings] is already clean. *)
Theorem clean_text_aggressive_filters :
  forall t,
    _clean_text_aggressive t = filter kept t
    /\ (_clean_text_aggressive t = t <-> Forall (fun c => kept c = true) t)
    /\ _clean_text_aggressive (_clean_text_aggressive t) = _clean_text_aggressive t
    /\ _clean_text_aggressive (_normalize_line_endings t)
       = _normalize_line_endings t.
Proof.
  intros t. rewrite !clean_is_filter. split; [reflexivity|].
  split; [apply filter_fixed|]. split.
  - apply filter_fixed, Forall_forall. intros c Hc.
    now apply filter_In in Hc.
  - apply filter_fixed. eapply Forall_impl; [|apply normalize_out].
    intros c. apply clean_kept.
Qed.

(** ** Triple-quoted literals across lines: after the closing delimiter *)

Lemma pat_match_shift (prev prev' : option ascii) (s : text) (pos d : nat) :
  match_at pat prev s (pos + d)
  = option_map (shift_match d) (match_at pat prev' s pos).
Proof.
  unfold match_at, pat, triple_s, triple_d. cbn [run Opt Lit].
  destruct s as [|c0 [|c1 [|c2 [|c3 s]]]]; cbn [run];
    repeat match goal with
      | |- context [if ?b then _ else _] => destruct b eqn:?
      end; reflexivity.
Qed.

Lemma search_from_pat_shift (s : text) (d : nat) :
  forall prev prev' pos,
    search_from pat prev s (pos + d)
    = option_map (shift_match d) (search_from pat prev' s pos).
Proof.
  induction s as [|c s IH]; intros prev prev' pos; cbn [search_from];
    rewrite (pat_match_shift prev prev');
    destruct (match_at pat prev' _ pos); try reflexivity.
  exact (IH (Some c) (Some c) (S pos)).
Qed.

Lemma search_pat_shift (t : text) (i idx : nat) :
  i <= length t ->
  search pat t (idx + i) = option_map (shift_match i) (search pat (skipn i t) idx).
Proof.
  intros Hi. unfold search. rewrite length_skipn, skipn_skipn.
  destruct (Nat.leb_spec (idx + i) (length t));
    destruct (Nat.leb_spec idx (length t - i)); try lia; [|reflexivity].
  apply search_from_pat_shift.
Qed.

Lemma group_shift (name : string) (d : nat) (cs : caps) :
  group name (map (fun g : string * (nat * nat) =>
                     (fst g, (fst (snd g) + d, snd (snd g) + d))) cs)
  = option_map (fun sp => (fst sp + d, snd sp + d)) (group name cs).
Proof.
  induction cs as [|[n [a b]] cs IH]; [reflexivity|]. cbn [map group fst snd].
  destruct (String.eqb n name); [reflexivity|exact IH].
Qed.

Lemma slice_skipn (t : text) (i a b : nat) :
  slice t (a + i) (b + i) = slice (skipn i t) a b.
Proof.
  unfold slice. rewrite skipn_skipn. f_equal. lia.
Qed.

Lemma find_from_shift (sub s : text) (d : nat) :
  forall pos, find_from sub s (pos + d)
              = option_map (fun e => e + d) (find_from sub s pos).
Proof.
  induction s as [|c s IH]; intros pos; cbn [find_from];
    destruct (starts_with sub _); try reflexivity.
  exact (IH (S pos)).
Qed.

Lemma find_shift (sub t : text) (i j : nat) :
  i <= length t ->
  find sub t (j + i) = option_map (fun e => e + i) (find sub (skipn i t) j).
Proof.
  intros Hi. unfold find. rewrite length_skipn, skipn_skipn.
  destruct (Nat.leb_spec (j + i) (length t));
    destruct (Nat.leb_spec j (length t - i)); try lia; [|reflexivity].
  apply find_from_shift.
Qed.

Lemma quote_loop_shift (t : text) (q : ascii) (i : nat) (fuel : nat) :
  forall j esc j',
    quote_loop fuel (skipn i t) q j esc = Ok j' ->
    quote_loop fuel t q (j + i) esc = Ok (j' + i).
Proof.
  induction fuel as [|fuel IH]; intros j esc j'; [discriminate|].
  cbn [quote_loop]. rewrite length_skipn, nth_error_skipn.
  replace (i + j) with (j + i) by lia.
  destruct (Nat.ltb_spec j (length t - i));
    destruct (Nat.ltb_spec (j + i) (length t)); try lia;
    [|now intros [= <-]].
  destruct (nth_error t (j + i)) as [ch|]; [|discriminate].
  destruct esc; [exact (IH (S j) false j')|].
  destruct (eqc ch backslash); [exact (IH (S j) true j')|].
  destruct (eqc ch q); [now intros [= <-]|exact (IH (S j) false j')].
Qed.

Lemma f_braces_shift (t : text) (i a b : nat) :
  _f_braces t (a + i) (b + i) = map (shift_call i) (_f_braces (skipn i t) a b).
Proof.
  unfold _f_braces. rewrite slice_skipn.
  induction (enumerate (slice (skipn i t) a b)) as [|[k ch] l IH]; [reflexivity|].
  cbn [flat_map fst snd]. rewrite map_app, IH. f_equal.
  destruct (one_of ["{"; "}"] ch); [|reflexivity].
  unfold shift_call. cbn [sf_start sf_count sf_format map]. do 2 f_equal. lia.
Qed.

(** The string pass on the rest of a line from [i] on is the string pass on
    the line from [i] on, with the calls moved by [i]. *)
Lemma string_loop_shift (t : text) (i : nat) (Hi : i <= length t)
    (gas fuel : nat) :
  forall idx cs o,
    string_loop gas fuel (skipn i t) idx = Ok (cs, o) ->
    string_loop gas fuel t (idx + i) = Ok (map (shift_call i) cs, o).
Proof.
  induction fuel as [|fuel IH]; intros idx cs o; [discriminate|].
  cbn [string_loop]. rewrite length_skipn, (search_pat_shift t i idx Hi).
  destruct (Nat.ltb_spec idx (length t - i));
    destruct (Nat.ltb_spec (idx + i) (length t)); try lia;
    [|now intros [= <- <-]].
  destruct (search pat (skipn i t) idx) as [m|]; cbn [option_map];
    [|now intros [= <- <-]].
  assert (Hp : group_text "p" (shift_match i m) t = group_text "p" m (skipn i t)).
  { unfold group_text, shift_match. cbn [m_caps]. rewrite group_shift.
    destruct (group "p" (m_caps m)) as [[a b]|]; [|reflexivity].
    cbn [option_map fst snd]. apply slice_skipn. }
  rewrite Hp. cbn [shift_match m_start m_caps]. rewrite !group_shift.
  destruct (group "ts" (m_caps m)) as [[a b]|]; cbn [option_map fst snd].
  - rewrite slice_skipn.
    replace (m_start m + i + 3) with (m_start m + 3 + i) by lia.
    rewrite (find_shift _ t i _ Hi).
    destruct (find (slice (skipn i t) a b) (skipn i t) (m_start m + 3)) as [e|];
      cbn [option_map].
    + replace (e + i + 3) with (e + 3 + i) by lia.
      destruct (string_loop gas fuel (skipn i t) (e + 3)) as [[cs' o']| |] eqn:E;
        try discriminate.
      rewrite (IH _ _ _ E). cbn [bind fst snd]. intros [= <- <-].
      rewrite (f_braces_shift t i (m_start m) (e + 3)).
      cbn [map]. rewrite map_app. unfold shift_call at 1.
      cbn [sf_start sf_count sf_format].
      replace (e + 3 + i - (m_start m + i)) with (e + 3 - m_start m) by lia.
      now destruct (lower_is_f _).
    + intros [= <- <-]. cbn [map]. unfold shift_call.
      cbn [sf_start sf_count sf_format].
      now replace (length t - (m_start m + i)) with (length t - i - m_start m) by lia.
  - match goal with
    | |- context [quote_loop gas (skipn i t) ?q ?j false] =>
        destruct (quote_loop gas (skipn i t) q j false) as [j'| |] eqn:Q;
        try discriminate;
        replace (m_start m + i + 1 + length (group_text "p" m (skipn i t)))
          with (j + i) by lia
    end.
    assert (Hq : (match option_map (fun sp : nat * nat => (fst sp + i, snd sp + i))
                          (group "s" (m_caps m)) with
                  | Some _ => "'"
                  | None => dq
                  end)
                 = match group "s" (m_caps m) with Some _ => "'" | None => dq end)
      by now destruct (group "s" (m_caps m)).
    rewrite Hq, (quote_loop_shift _ _ _ _ _ _ _ Q). cbn [bind].
    destruct (string_loop gas fuel (skipn i t) j') as [[cs' o']| |] eqn:E;
      try discriminate.
    rewrite (IH _ _ _ E). cbn [bind fst snd]. intros [= <- <-].
    rewrite (f_braces_shift t i (m_start m) j').
    cbn [map]. rewrite map_app. unfold shift_call at 1.
    cbn [sf_start sf_count sf_format].
    replace (j' + i - (m_start m + i)) with (j' - m_start m) by lia.
    now destruct (lower_is_f _).
Qed.

Lemma filter_nil_forall {A : Type} (f : A -> bool) (l : list A) :
  Forall (fun x => f x = false) l -> filter f l = [].
Proof.
  induction 1 as [|x l Hx _ IH]; [reflexivity|]. cbn [filter]. now rewrite Hx.
Qed.

Lemma filter_all_forall {A : Type} (f : A -> bool) (l : list A) :
  Forall (fun x => f x = true) l -> filter f l = l.
Proof.
  induction 1 as [|x l Hx _ IH]; [reflexivity|]. cbn [filter].
  now rewrite Hx, IH.
Qed.

(** Of the calls of a line, those of the string pass. *)
Lemma string_calls_of_line (t : text) (i : nat) (cs : list call) :
  Forall (fun c => sf_format c = STRING \/ sf_format c = INTERPOLATION_MARKER) cs ->
  filter is_string_call (deco_calls t ++ cs) = cs
  /\ filter is_string_call
       (deco_calls t ++ cs ++ number_calls t ++ word_calls t ++ func_calls t
          ++ comment_calls t i) = cs.
Proof.
  intros Hcs.
  assert (Hd : filter is_string_call (deco_calls t) = []).
  { apply filter_nil_forall, Forall_forall. intros c Hc.
    unfold deco_calls in Hc. apply in_map_iff in Hc as (m & <- & _). reflexivity. }
  assert (Hs : filter is_string_call cs = cs).
  { apply filter_all_forall. apply Forall_impl with (2 := Hcs).
    intros c [H|H]; unfold is_string_call; now rewrite H. }
  assert (Hn : filter is_string_call (number_calls t) = []).
  { apply filter_nil_forall, Forall_forall. intros c Hc.
    unfold number_calls in Hc. apply in_map_iff in Hc as (m & <- & _). reflexivity. }
  assert (Hw : filter is_string_call (word_calls t) = []).
  { apply filter_nil_forall, Forall_forall. intros c Hc.
    unfold word_calls in Hc. apply in_flat_map in Hc as (m & _ & Hc).
    destruct (mem _ kw); [destruct Hc as [<-|[]]; reflexivity|].
    destruct (mem _ builtins); [destruct Hc as [<-|[]]; reflexivity|destruct Hc]. }
  assert (Hf : filter is_string_call (func_calls t) = []).
  { apply filter_nil_forall, Forall_forall. intros c Hc.
    unfold func_calls in Hc. apply in_map_iff in Hc as (m & <- & _). reflexivity. }
  assert (Hc : filter is_string_call (comment_calls t i) = []).
  { unfold comment_calls. now destruct (comment_start t i). }
  rewrite !filter_app, Hd, Hs, Hn, Hw, Hf, Hc, !app_nil_r. now split.
Qed.

(** C4, as the code has it. The line of one single-quote triple entered
    in [STATE_NONE] is one STRING call over the line and leaves
    [STATE_TRIPLE_S].  A line entered in a triple-quote state that holds
    the closing delimiter first makes a STRING call up to and including
    the first closing delimiter, and then goes on with the rest of the
    line as with a line entered in [STATE_NONE]: its string pass makes the
    STRING and INTERPOLATION_MARKER calls of the rest tokenized by itself,
    moved to where the rest stands in the line, and the block state the
    line leaves is the one the rest leaves, [STATE_NONE] unless the rest
    opens a triple-quoted literal that it does not close, and so
    [STATE_NONE] when no triple-quote delimiter follows.  The decorator
    pass runs on the whole line, and when the state left is [STATE_NONE]
    so do the number, word and function-call passes, the comment being
    looked for in the rest only.  A line entered in a triple-quote state
    without the closing delimiter is one STRING call over the line and
    keeps the state. *)
Theorem triple_quote_continuation :
  highlightBlock (txt "'''") STATE_NONE
  = Ok ([setFormat 0 3 STRING], STATE_TRIPLE_S)
  /\ (forall t st e,
        st = STATE_TRIPLE_S \/ st = STATE_TRIPLE_D ->
        find (endq st) t 0 = Some e ->
        occurs (endq st) t e
        /\ (forall k, k < e -> ~ occurs (endq st) t k)
        /\ exists calls_rest st',
             highlightBlock (skipn (e + 3) t) STATE_NONE = Ok (calls_rest, st')
             /\ highlightBlock t st
                = Ok (setFormat 0 (e + 3) STRING
                        :: deco_calls t
                        ++ map (shift_call (e + 3))
                             (filter is_string_call calls_rest)
                        ++ (if (st' =? STATE_NONE)%Z
                            then number_calls t ++ word_calls t ++ func_calls t
                                 ++ comment_calls t (e + 3)
                            else []),
                      st')
             /\ (st' = STATE_NONE \/ st' = STATE_TRIPLE_S \/ st' = STATE_TRIPLE_D)
             /\ ((forall k, e + 3 <= k -> triple_at t k = false) ->
                 st' = STATE_NONE))
  /\ (forall t st,
        st = STATE_TRIPLE_S \/ st = STATE_TRIPLE_D ->
        find (endq st) t 0 = None ->
        highlightBlock t st = Ok ([setFormat 0 (length t) STRING], st)).
Proof.
  assert (Hentry : forall st, st = STATE_TRIPLE_S \/ st = STATE_TRIPLE_D ->
            (if (st =? -1)%Z then STATE_NONE else st) = st
            /\ ((st =? STATE_TRIPLE_S)%Z || (st =? STATE_TRIPLE_D)%Z) = true
            /\ length (endq st) = 3).
  { intros st [-> | ->]; repeat split. }
  split; [reflexivity|]. split.
  - intros t st e Hst F.
    destruct (Hentry st Hst) as (Hin & Hb & Hq).
    pose proof (find_some _ _ _ _ F) as (_ & Hocc & Hbefore).
    assert (Hfit : e + 3 <= length t).
    { rewrite <- Hq. apply occurs_fits; [lia|exact Hocc]. }
    split; [exact Hocc|]. split; [intros k Hk; apply Hbefore; lia|].
    set (i := e + 3) in *. set (r := skipn i t).
    assert (Hlen : length r <= length t) by (unfold r; rewrite length_skipn; lia).
    destruct (string_loop_total r (S (length r)) (Nat.lt_succ_diag_r _)
                (S (length r)) 0) as ([cs o] & Hr); [lia|].
    assert (Hr' : string_loop (S (length t)) (S (length t)) r 0 = Ok (cs, o)).
    { apply (string_loop_more_fuel r (S (length r)) (S (length t))
               ltac:(lia) _ _ _ _ Hr). lia. }
    pose proof (string_loop_shift t i Hfit _ _ _ _ _ Hr') as Hfull.
    cbn [Nat.add] in Hfull.
    destruct (string_loop_inv _ _ _ _ _ _ Hr) as (_ & Hfmt & _).
    destruct (string_calls_of_line r 0 cs Hfmt) as (Hopen & Hclosed).
    assert (Hleft : highlightBlock t st
              = match o with
                | Some s => Ok (setFormat 0 i STRING
                                  :: deco_calls t ++ map (shift_call i) cs, s)
                | None => Ok (setFormat 0 i STRING
                                :: deco_calls t ++ map (shift_call i) cs
                                ++ number_calls t ++ word_calls t ++ func_calls t
                                ++ comment_calls t i, STATE_NONE)
                end).
    { unfold highlightBlock, highlightBlock_fuel. rewrite Hin, Hb, F.
      fold i. unfold passes. rewrite Hfull. cbn [bind fst snd].
      now destruct o. }
    assert (Hright : highlightBlock r STATE_NONE
              = match o with
                | Some s => Ok (deco_calls r ++ cs, s)
                | None => Ok (deco_calls r ++ cs ++ number_calls r ++ word_calls r
                                ++ func_calls r ++ comment_calls r 0, STATE_NONE)
                end).
    { unfold highlightBlock, highlightBlock_fuel. cbn [Z.eqb orb STATE_NONE].
      unfold passes. rewrite Hr. cbn [bind fst snd app]. now destruct o. }
    destruct o as [s|].
    + destruct (string_loop_state _ _ _ _ _ _ Hr) as [-> | ->];
        (eexists _, _; split; [exact Hright|]; rewrite Hopen; split;
         [rewrite Hleft; cbn [Z.eqb STATE_TRIPLE_S STATE_TRIPLE_D STATE_NONE];
          now rewrite app_nil_r|]);
        (split; [tauto|]); intros Hno;
        destruct (string_loop_open _ _ _ _ _ _ Hfull) as (k & Hk & Hat);
        rewrite (Hno k Hk) in Hat; discriminate.
    + eexists _, _. split; [exact Hright|]. rewrite Hclosed.
      split; [exact Hleft|]. split; [now left|reflexivity].
  - intros t st Hst F. unfold highlightBlock, highlightBlock_fuel.
    destruct (Hentry st Hst) as (Hin & Hb & _). now rewrite Hin, Hb, F.
Qed.

Lemma triple_quote_continuation_witness :
  (exists calls,
      highlightBlock (txt "''' + '''x'''") STATE_TRIPLE_S
      = Ok (setFormat 0 3 STRING :: calls, STATE_NONE)
      /\ In (setFormat 6 7 STRING) calls)
  /\ (exists calls,
        highlightBlock six_quotes STATE_TRIPLE_S
        = Ok (setFormat 0 3 STRING :: calls, STATE_TRIPLE_S))
  /\ highlightBlock (txt "ab' + 1") STATE_TRIPLE_S
     = Ok ([setFormat 0 7 STRING], STATE_TRIPLE_S).
Proof.
  destruct triple_quote_continuation as (_ & Hclose & Hopen).
  split; [|split].
  - destruct (Hclose (txt "''' + '''x'''") STATE_TRIPLE_S 0
                (or_introl eq_refl) eq_refl)
      as (_ & _ & calls_rest & st' & Hrest & Hline & _).
    vm_compute in Hrest. injection Hrest as <- <-.
    eexists. split; [exact Hline|]. vm_compute. auto 10.
  - destruct (Hclose six_quotes STATE_TRIPLE_S 0 (or_introl eq_refl) eq_refl)
      as (_ & _ & calls_rest & st' & Hrest & Hline & _).
    vm_compute in Hrest. injection Hrest as <- <-.
    eexists. exact Hline.
  - exact (Hopen (txt "ab' + 1") STATE_TRIPLE_S (or_introl eq_refl) eq_refl).
Defined.

(** C4 as stated fails where the rest of the line opens a new triple-quoted
    literal: six single quotes entered in [STATE_TRIPLE_S] hold the closing
    delimiter, and the line leaves [STATE_TRIPLE_S], not [STATE_NONE]. *)
Lemma closing_line_may_reopen :
  find triple_s six_quotes 0 = Some 0
  /\ highlightBlock six_quotes STATE_TRIPLE_S
     = Ok ([setFormat 0 3 STRING; setFormat 3 3 STRING], STATE_TRIPLE_S)
  /\ STATE_TRIPLE_S <> STATE_NONE.
Proof. split; [reflexivity|]. split; [reflexivity|discriminate]. Qed.
